(** * RushHourSolver: a shallow embedding of [RushHourSolver.cpp]

    The solver is a breadth-first search over the configurations of a
    6x6 "Rush Hour" board.  This file embeds the program in Rocq and
    proves properties of it:

    - [Board] with [Cell], [CellSafe] and [SetCell];
    - the two globals [state_list] and [states_in_list], threaded
      through a small state monad together with the text written to
      [stdout];
    - [CheckAddState], [CheckMove], [PrintSolutionRecursive],
      [PrintSolutionAndQuit] and [main];
    - [Board::operator<], as [Board_lt], and [Board::Print], as
      [Board_Print], with the text it writes.

    [assert] and [exit] are outcomes of a computation, so that "the
    assertion cannot fire" and "the process leaves with status 0" are
    ordinary statements about the embedded functions.  The loops of
    the source that have no bound of their own take a number of
    rounds as an argument; the theorems say how many are enough.

    The properties, in the order of the file: the cells of a board;
    registration in the two globals; the scan and the moves of
    [CheckMove]; the path [PrintSolutionRecursive] writes; how [main]
    ends; where the search stops; that the search is breadth-first,
    with the shortest path it finds; the order of the boards; what
    [Print] writes, for a board alone and for the moves of the search;
    what [main] writes; and what the moves keep. *)

From Stdlib Require Import ZArith Lia Ascii String List.
From stdpp Require Import base gmap sets list strings.

Open Scope Z_scope.

(** ** Constants *)

(** [constexpr int BOARD_SIZE = 6;] *)
Definition BOARD_SIZE : Z := 6.

(** [constexpr int BOARD_EXIT_Y = 2;] *)
Definition BOARD_EXIT_Y : Z := 2.

(** [constexpr bool DEBUG_PROGRESS_OUTPUT = false;] *)
Definition DEBUG_PROGRESS_OUTPUT : bool := false.

(** The character of an empty cell, [' ']. *)
Definition SPACE : ascii := " "%char.

(** The character of the goal car, ['X']. *)
Definition GOAL_CAR : ascii := "X"%char.

(** The character [CellSafe] returns off the board, [0]. *)
Definition NUL : ascii := Ascii.zero.

(** ** Board *)

(** [char cell[BOARD_SIZE][BOARD_SIZE]], indexed [[y][x]]: the 36
    characters in the order they lie in memory (row after row), which
    is the order [memcmp] in [operator<] reads them in. *)
Abbreviation Board := (list ascii).

Definition board_wf (s : Board) : Prop :=
  length s = Z.to_nat (BOARD_SIZE * BOARD_SIZE).

(** Offset of [cell[y][x]] in the array. *)
Definition offset (y x : Z) : nat := Z.to_nat (y * BOARD_SIZE + x).

(** The condition of the [assert] in [Cell] and [SetCell]:
    [x >= 0 && x < BOARD_SIZE && y >= 0 && y < BOARD_SIZE]. *)
Definition in_bounds (y x : Z) : bool :=
  (x >=? 0) && (x <? BOARD_SIZE) && (y >=? 0) && (y <? BOARD_SIZE).

(** The raw array read [cell[y][x]]. *)
Definition cell_at (s : Board) (y x : Z) : ascii := nth (offset y x) s NUL.

(** [char Cell( int y, int x ) const]: [None] when the assertion
    fails. *)
Definition Cell (s : Board) (y x : Z) : option ascii :=
  if in_bounds y x then Some (cell_at s y x) else None.

(** [char CellSafe( int y, int x ) const]. *)
Definition CellSafe (s : Board) (y x : Z) : ascii :=
  if (x <? 0) || (x >=? BOARD_SIZE) || (y <? 0) || (y >=? BOARD_SIZE)
  then NUL
  else cell_at s y x.

(** [void SetCell( int y, int x, char c )]: [None] when the assertion
    fails, otherwise the board after [cell[y][x] = c]. *)
Definition SetCell (s : Board) (y x : Z) (c : ascii) : option Board :=
  if in_bounds y x then Some (<[offset y x := c]> s) else None.

(** ** The process: globals, output, outcomes *)

(** What the program writes to [stdout].  [Board::Print] is kept as
    one item holding its arguments: which board is drawn, with which
    indent, and the next board whose move is drawn as an arrow. *)
Inductive output :=
| Text (t : string)                     (* a [printf] without arguments *)
| SolutionStep (step_number : Z)        (* ["Solution step %d\n"] *)
| Exploring (idx_state : Z)             (* ["Exploring state %d\n"] *)
| Explored (idx_state : Z)              (* ["...explored %d board states\n"] *)
| Print (indent : string) (cur : Board) (next : option Board).

(** The two globals and the output written so far. *)
Record World := mkWorld {
  state_list : list (Board * Z);
  states_in_list : gset Board;
  stdout : list output
}.

Definition initial_world : World :=
  {| state_list := []; states_in_list := ∅; stdout := [] |}.

(** The places where the program can stop abnormally. *)
Inductive fault :=
| AssertCell            (* the assert of [Cell] *)
| AssertSetCell         (* the assert of [SetCell] *)
| AssertSizes           (* [assert( state_list.size() == states_in_list.size() )] *)
| AssertOneState        (* [assert( state_list.size() == 1 )] in [main] *)
| VectorRange.          (* [state_list[i]] with [i] out of range *)

(** How a computation ends: it returns a value, the process leaves
    through [exit], an assertion fails, or the loop bound of the model
    is used up. *)
Inductive result (A : Type) :=
| Ret (a : A) (w : World)
| Exit (status : Z) (w : World)
| Abort (f : fault)
| Stuck.
Arguments Ret {A} a w.
Arguments Exit {A} status w.
Arguments Abort {A} f.
Arguments Stuck {A}.

Definition M (A : Type) : Type := World -> result A.

Definition ret {A} (a : A) : M A := fun w => Ret a w.

Definition bind {A B} (m : M A) (k : A -> M B) : M B :=
  fun w =>
    match m w with
    | Ret a w' => k a w'
    | Exit st w' => Exit st w'
    | Abort f => Abort f
    | Stuck => Stuck
    end.

Notation "x <- m ;; k" := (bind m (fun x => k))
  (at level 100, m at next level, right associativity).
Notation "m ;;; k" := (bind m (fun _ => k))
  (at level 100, right associativity).

(** [exit(status)] *)
Definition exit {A} (status : Z) : M A := fun w => Exit status w.

Definition abort {A} (f : fault) : M A := fun _ => Abort f.

Definition stuck {A} : M A := fun _ => Stuck.

(** A call that can fail an assertion. *)
Definition checked {A} (f : fault) (o : option A) : M A :=
  match o with
  | Some a => ret a
  | None => abort f
  end.

Definition get_state_list : M (list (Board * Z)) :=
  fun w => Ret (state_list w) w.

Definition write (o : output) : M unit :=
  fun w => Ret tt {| state_list := state_list w;
                     states_in_list := states_in_list w;
                     stdout := stdout w ++ [o] |}.

(** [for ( i = lo ; i < hi ; ++i ) body], the variable [a] being what
    the body changes. *)
Fixpoint for_each {A} (l : list Z) (body : Z -> A -> M A) (a : A) : M A :=
  match l with
  | [] => ret a
  | i :: l' => a' <- body i a ;; for_each l' body a'
  end.

Definition for_range {A} (lo hi : Z) (body : Z -> A -> M A) (a : A) : M A :=
  for_each (seqZ lo (hi - lo)) body a.

(** [state_list[i]]; reading past the end is undefined in C++ and a
    fault here. *)
Definition state_at (i : Z) : M (Board * Z) :=
  l <- get_state_list ;;
  if (0 <=? i) && (i <? Z.of_nat (length l))
  then checked VectorRange (l !! Z.to_nat i)
  else abort VectorRange.

(** The character ['\n']. *)
Definition newline : string := String (ascii_of_nat 10) EmptyString.

(** ** The search state *)

(** [void CheckAddState( const Board &state, int from )].

    [states_in_list.insert( state ).second] is false when the board is
    already in the set, and the function returns; otherwise the board
    has been inserted, and the pair is appended to [state_list].  The
    two dumps under [DEBUG_PROGRESS_OUTPUT] are compiled out, the
    constant being false. *)
Definition CheckAddState (state : Board) (from : Z) : M unit :=
  fun w =>
    if decide (state ∈ states_in_list w) then Ret tt w
    else
      let w' := {| state_list := state_list w ++ [(state, from)];
                   states_in_list := {[ state ]} ∪ states_in_list w;
                   stdout := stdout w |} in
      if decide (length (state_list w') = size (states_in_list w'))
      then Ret tt w'
      else Abort AssertSizes.

(** [int PrintSolutionRecursive( int i, const Board *next )].  The
    recursion follows the second components of [state_list]; [fuel]
    bounds its depth. *)
Fixpoint PrintSolutionRecursive (fuel : nat) (i : Z) (next : option Board)
  : M Z :=
  match fuel with
  | O => stuck
  | S fuel' =>
      if i <? 0 then ret 0
      else
        e <- state_at i ;;
        let cur := e.1 in
        n <- PrintSolutionRecursive fuel' e.2 (Some cur) ;;
        let step_number := n + 1 in
        write (SolutionStep step_number) ;;;
        write (Print "  " cur next) ;;;
        write (Text newline) ;;;
        ret step_number
  end.

(** [void PrintSolutionAndQuit()].  A chain of previous states that
    only goes to smaller indices makes at most [size + 1] calls. *)
Definition PrintSolutionAndQuit {A} : M A :=
  l <- get_state_list ;;
  PrintSolutionRecursive (S (length l)) (Z.of_nat (length l) - 1) None ;;;
  exit 0.

(** ** The move generator *)

(** The macro [txty_on_board]. *)
Definition txty_on_board (dx dy tx ty : Z) : bool :=
  ((dx >=? 0) || (tx >=? 0)) &&
  ((dx <=? 0) || (tx <? BOARD_SIZE)) &&
  ((dy >=? 0) || (ty >=? 0)) &&
  ((dy <=? 0) || (ty <? BOARD_SIZE)).

(** The loop
    [do { tx += dx; ty += dy; } while ( (txty_on_board) && s.Cell( ty, tx ) == car );]
    returning [tx] and [ty] as the loop leaves them. *)
Fixpoint find_end (fuel : nat) (dx dy : Z) (s : Board) (car : ascii)
    (tx ty : Z) : M (Z * Z) :=
  match fuel with
  | O => stuck
  | S fuel' =>
      let tx := tx + dx in
      let ty := ty + dy in
      if txty_on_board dx dy tx ty then
        c <- checked AssertCell (Cell s ty tx) ;;
        if Ascii.eqb c car then find_end fuel' dx dy s car tx ty
        else ret (tx, ty)
      else ret (tx, ty)
  end.

(** [for ( int xx = lo ; xx <= hi ; ++xx ) s.SetCell( y, xx, c );] *)
Definition set_span (y lo hi : Z) (c : ascii) (s : Board) : M Board :=
  for_range lo (hi + 1)
    (fun xx s => checked AssertSetCell (SetCell s y xx c)) s.

(** [template <int dx, int dy> void CheckMove( Board &s, int x, int y, int idx_state )].
    The board is passed by reference: the function returns the board
    as it leaves it.  The loop of [find_end] starts two cells from
    [(y,x)] and leaves the board after at most [BOARD_SIZE] steps. *)
Definition CheckMove (dx dy : Z) (s : Board) (x y idx_state : Z) : M Board :=
  let tx := x + dx * 2 in
  let ty := y + dy * 2 in
  if negb (txty_on_board dx dy tx ty) then ret s
  else
    car <- checked AssertCell (Cell s ty tx) ;;
    c <- checked AssertCell (Cell s (ty - dy) (tx - dx)) ;;
    if negb (Ascii.eqb c car) || Ascii.eqb car SPACE then ret s
    else
      e <- find_end (Z.to_nat BOARD_SIZE) dx dy s car tx ty ;;
      let tx := e.1 - dx in
      let ty := e.2 - dy in
      s <- checked AssertSetCell (SetCell s y x car) ;;
      s <- checked AssertSetCell (SetCell s ty tx SPACE) ;;
      s <- (if (dx =? -1) && (x =? BOARD_SIZE - 1) && (y =? BOARD_EXIT_Y)
            then
              if Ascii.eqb car GOAL_CAR then
                CheckAddState s idx_state ;;;
                PrintSolutionAndQuit
              else
                s <- set_span y (tx + 1) x SPACE s ;;
                CheckAddState s idx_state ;;;
                set_span y (tx + 1) x car s
            else
              CheckAddState s idx_state ;;;
              ret s) ;;
      s <- checked AssertSetCell (SetCell s y x SPACE) ;;
      checked AssertSetCell (SetCell s ty tx car).

(** ** The driver *)

(** The body of the two loops of [main] over [y] and [x]. *)
Definition explore_cell (idx_state y x : Z) (s : Board) : M Board :=
  c <- checked AssertCell (Cell s y x) ;;
  if negb (Ascii.eqb c SPACE) then ret s
  else
    s <- CheckMove 1 0 s x y idx_state ;;
    s <- CheckMove (-1) 0 s x y idx_state ;;
    s <- CheckMove 0 1 s x y idx_state ;;
    CheckMove 0 (-1) s x y idx_state.

(** The two loops of [main] over [y] and [x]. *)
Definition explore (idx_state : Z) (s : Board) : M Board :=
  for_range 0 BOARD_SIZE
    (fun y s => for_range 0 BOARD_SIZE (explore_cell idx_state y) s) s.

(** One round of the loop of [main] over [idx_state]. *)
Definition explore_state (idx_state : Z) : M unit :=
  e <- state_at idx_state ;;
  let s := e.1 in
  (if DEBUG_PROGRESS_OUTPUT then
     write (Exploring idx_state) ;;; write (Print "  " s None)
   else if idx_state `rem` 100 =? 0 then write (Explored idx_state)
   else ret tt) ;;;
  explore idx_state s ;;;
  ret tt.

(** [for ( int idx_state = 0 ; idx_state < (int)state_list.size() ; ++idx_state )];
    [fuel] bounds the number of rounds. *)
Fixpoint search (fuel : nat) (idx_state : Z) : M unit :=
  match fuel with
  | O => stuck
  | S fuel' =>
      l <- get_state_list ;;
      if idx_state <? Z.of_nat (length l) then
        explore_state idx_state ;;;
        search fuel' (idx_state + 1)
      else ret tt
  end.

(** [int main()], from the point where [initial_board] is filled in. *)
Definition main (fuel : nat) (initial_board : Board) : M Z :=
  write (Text ("Initial board state:" ++ newline)) ;;;
  write (Print "  " initial_board None) ;;;
  CheckAddState initial_board (-1) ;;;
  l <- get_state_list ;;
  (if decide (length l = 1%nat) then ret tt else abort AssertOneState) ;;;
  search fuel 0 ;;;
  write (Text ("Cannot find solution!" ++ newline)) ;;;
  ret 1.

(** The status the process ends with: the argument of [exit], or the
    value [main] returns; none when the run does not end in one of the
    two. *)
Definition process_status (r : result Z) : option Z :=
  match r with
  | Ret v _ => Some v
  | Exit status _ => Some status
  | Abort _ => None
  | Stuck => None
  end.

(** The board of the source, "Board #155 (genius)". *)
Definition board_155 : Board :=
  list_ascii_of_string
    ("OOOA P" ++ "  BA P" ++ "XXBIIP" ++ " DEEFF" ++ "GDH CC" ++ "G H JJ").


(** ** Boards and states used in the statements below *)

(** The four instances of [CheckMove] that [main] calls, named by the
    direction of the scan. *)
Inductive direction := ScanRight | ScanLeft | ScanDown | ScanUp.

(** The template arguments [dx] and [dy] of each instance. *)
Definition dir_dx (d : direction) : Z :=
  match d with ScanRight => 1 | ScanLeft => -1 | ScanDown => 0 | ScanUp => 0 end.

Definition dir_dy (d : direction) : Z :=
  match d with ScanRight => 0 | ScanLeft => 0 | ScanDown => 1 | ScanUp => -1 end.

(** [(y, x)] is a cell of the board. *)
Definition on_board (y x : Z) : Prop :=
  0 <= x < BOARD_SIZE /\ 0 <= y < BOARD_SIZE.

(** The invariant [CheckAddState] asserts. *)
Definition sizes_agree (w : World) : Prop :=
  length (state_list w) = size (states_in_list w).

(** The board [CheckMove] builds with its first two [SetCell]: the car
    is written at [(y, x)] and the space at its far end [(ty, tx)]. *)
Definition slide (s : Board) (y x : Z) (car : ascii) (ty tx : Z) : Board :=
  <[offset ty tx := SPACE]> (<[offset y x := car]> s).

(** The board after [c] is written on the cells [lo .. hi] of row [y]. *)
Definition span (y lo hi : Z) (c : ascii) (s : Board) : Board :=
  foldl (fun s xx => <[offset y xx := c]> s) s (seqZ lo (hi + 1 - lo)).

(** What the scan of [CheckMove] finds from the cell [(y, x)]: the
    cells one to [n] steps away hold [car], which is not the space,
    [n] is at least two, the far end [(ty, tx)] is the [n]-th, and the
    cell after it is off the board or holds something else. *)
Record found (d : direction) (s : Board) (x y : Z)
    (car : ascii) (tx ty : Z) : Prop := {
  found_car : car <> SPACE;
  found_span : exists n, 2 <= n /\
      tx = x + n * dir_dx d /\ ty = y + n * dir_dy d /\
      forall k, 1 <= k <= n ->
        cell_at s (y + k * dir_dy d) (x + k * dir_dx d) = car;
  found_on_board : on_board ty tx;
  found_end : on_board (ty + dir_dy d) (tx + dir_dx d) ->
      cell_at s (ty + dir_dy d) (tx + dir_dx d) <> car
}.

(** The test [dx == -1 && x == BOARD_SIZE-1 && y == BOARD_EXIT_Y]. *)
Definition at_exit (d : direction) (x y : Z) : bool :=
  (dir_dx d =? -1) && (x =? BOARD_SIZE - 1) && (y =? BOARD_EXIT_Y).

(** Steps left before the scan leaves the board. *)
Definition room (d : direction) (tx ty : Z) : Z :=
  match d with
  | ScanRight => BOARD_SIZE - tx
  | ScanLeft => tx + 1
  | ScanDown => BOARD_SIZE - ty
  | ScanUp => ty + 1
  end.

(** What [CheckMove] does once its scan has found [car] with the far
    end [(ty, tx)]: which board it hands to [CheckAddState], and how
    it leaves; the board it was given is [s]. *)
Definition after_scan (d : direction) (s : Board) (x y idx_state : Z)
    (car : ascii) (tx ty : Z) : M Board :=
  if at_exit d x y then
    if Ascii.eqb car GOAL_CAR then
      CheckAddState (slide s y x car ty tx) idx_state ;;;
      PrintSolutionAndQuit
    else
      CheckAddState (span y (tx + 1) x SPACE (slide s y x car ty tx)) idx_state ;;;
      ret s
  else
    CheckAddState (slide s y x car ty tx) idx_state ;;;
    ret s.

(** A board with a car [B] next to the last column of the exit row,
    and the goal car behind it. *)
Definition board_exit_lane : Board :=
  list_ascii_of_string
    ("      " ++ "      " ++ "XX BB " ++ "      " ++ "      " ++ "      ").

(** [board_exit_lane] after [B] has moved one cell to the right. *)
Definition board_exit_lane_slid : Board :=
  list_ascii_of_string
    ("      " ++ "      " ++ "XX  BB" ++ "      " ++ "      " ++ "      ").

(** [board_exit_lane] after [B] has left the board. *)
Definition board_exit_lane_vacated : Board :=
  list_ascii_of_string
    ("      " ++ "      " ++ "XX    " ++ "      " ++ "      " ++ "      ").

(** A board where the goal car can leave at once. *)
Definition board_goal_free : Board :=
  list_ascii_of_string
    ("      " ++ "      " ++ "  XXX " ++ "      " ++ "      " ++ "      ").

(** The globals with the initial board registered and nothing written
    yet. *)
Definition world_of (initial_board : Board) : World :=
  {| state_list := [(initial_board, -1)];
     states_in_list := {[ initial_board ]};
     stdout := [] |}.

(** ** The path that is printed *)

(** The globals with [out] written after what [stdout] holds. *)
Definition add_output (w : World) (out : list output) : World :=
  {| state_list := state_list w;
     states_in_list := states_in_list w;
     stdout := stdout w ++ out |}.

(** In [state_list], every entry comes from the root marker [-1] or
    from an entry before it. *)
Definition parents_ok (l : list (Board * Z)) : Prop :=
  forall j e, l !! j = Some e -> -1 <= e.2 < Z.of_nat j.

(** The walk from entry [i] along the indices of the previous states,
    down to the root: the indices it visits, [i] first. *)
Fixpoint walk_back (fuel : nat) (l : list (Board * Z)) (i : Z) : list Z :=
  match fuel with
  | O => []
  | S fuel' =>
      if i <? 0 then []
      else
        match l !! Z.to_nat i with
        | Some e => i :: walk_back fuel' l e.2
        | None => []
        end
  end.

(** The chain of entry [i]: the indices from the root to [i]. *)
Definition chain (l : list (Board * Z)) (i : Z) : list Z :=
  rev (walk_back (S (Z.to_nat i)) l i).

(** The board of entry [j]. *)
Definition board_at (l : list (Board * Z)) (j : Z) : Board :=
  match l !! Z.to_nat j with
  | Some e => e.1
  | None => []
  end.

(** The index entry [j] comes from. *)
Definition origin (l : list (Board * Z)) (j : Z) : Z :=
  match l !! Z.to_nat j with
  | Some e => e.2
  | None => -1
  end.

(** What is written for a chain of boards, in the order of the chain:
    each board with its step number and with the board after it, the
    last one with [next]; the numbers start from [n]. *)
Fixpoint emit (n : Z) (boards : list Board) (next : option Board)
  : list output :=
  match boards with
  | [] => []
  | cur :: rest =>
      [SolutionStep n;
       Print "  " cur (match rest with b :: _ => Some b | [] => next end);
       Text newline] ++ emit (n + 1) rest next
  end.

(** [board_exit_lane_vacated] after the goal car has moved one cell to
    the right. *)
Definition board_exit_lane_next : Board :=
  list_ascii_of_string
    ("      " ++ "      " ++ " XX   " ++ "      " ++ "      " ++ "      ").

(** Globals with a chain of three boards. *)
Definition world_chain : World :=
  {| state_list := [(board_exit_lane, -1);
                    (board_exit_lane_vacated, 0);
                    (board_exit_lane_next, 1)];
     states_in_list :=
       {[ board_exit_lane; board_exit_lane_vacated; board_exit_lane_next ]};
     stdout := [] |}.

(** ** Invariants of the search *)

(** The two globals hold the same boards, each board once, every
    entry comes from an earlier one, and every board is a 6x6 grid. *)
Record world_inv (w : World) : Prop := {
  inv_set : forall b, b ∈ states_in_list w <-> b ∈ (state_list w).*1;
  inv_nodup : NoDup (state_list w).*1;
  inv_sizes : sizes_agree w;
  inv_parents : parents_ok (state_list w);
  inv_wf : forall b, b ∈ (state_list w).*1 -> board_wf b
}.

(** The last line [main] writes when the search finds nothing. *)
Definition cannot_find : string := "Cannot find solution!" ++ newline.

(** Output that is neither a step of a solution nor the line
    [cannot_find]. *)
Definition progress (o : output) : Prop :=
  match o with
  | SolutionStep _ => False
  | Text t => t <> cannot_find
  | _ => True
  end.

(** The state of a search that has found nothing yet. *)
Definition running (w : World) : Prop :=
  world_inv w /\ Forall progress (stdout w) /\ state_list w <> [].

(** The solution that is written for the last entry of [state_list]. *)
Definition solution_output (l : list (Board * Z)) : list output :=
  emit 1 (map (board_at l) (chain l (Z.of_nat (length l) - 1))) None.

(** The state the process leaves in when it has found a solution: the
    search was running, and the path to the last entry is written
    after what was written before. *)
Definition solved (w' : World) : Prop :=
  exists w, running w /\ w' = add_output w (solution_output (state_list w)).

(** What a computation guarantees: [Q] when it returns, [E] when the
    process leaves, and then with status 0; it does not fail an
    assertion and does not use up the loop bounds of the model. *)
Definition post {A} (r : result A) (Q : A -> World -> Prop)
    (E : World -> Prop) : Prop :=
  match r with
  | Ret a w' => Q a w'
  | Exit status w' => status = 0 /\ E w'
  | Abort _ => False
  | Stuck => False
  end.

(** All characters. *)
Definition all_ascii : list ascii := ascii_of_nat <$> seq 0 256.

(** All lists of [n] characters. *)
Fixpoint all_boards (n : nat) : list Board :=
  match n with
  | O => [[]]
  | S n' => c ← all_ascii; (cons c) <$> all_boards n'
  end.

(** The number of 6x6 grids of characters; it bounds the length of
    [state_list]. *)
Definition board_count : nat := length (all_boards 36).

(** What holds while [main] explores entry [idx_state] with the
    working board [s]: each call gives the board back, and the search
    is still running. *)
Definition exploring (idx_state : Z) (s : Board) (s' : Board) (w : World)
  : Prop :=
  s' = s /\ running w /\ 0 <= idx_state < Z.of_nat (length (state_list w)).

(** The state [main] returns in when the search has found nothing. *)
Definition exhausted (w' : World) : Prop :=
  exists w, running w /\ w' = add_output w [Text cannot_find].

(** A board without an empty cell: no car can move. *)
Definition board_full : Board :=
  list_ascii_of_string
    ("AABBCC" ++ "DDEEFF" ++ "GHIXXO" ++ "GHIJJO" ++ "KKLLMM" ++ "NNQQPP").

(** The cells of the board in the order the two loops of [main] visit
    them. *)
Definition all_cells : list (Z * Z) :=
  y ← seqZ 0 BOARD_SIZE; x ← seqZ 0 BOARD_SIZE; [(y, x)].

(** The body of the two loops of [main], run on a list of cells. *)
Fixpoint explore_cells (idx_state : Z) (cells : list (Z * Z)) (s : Board)
  : M Board :=
  match cells with
  | [] => ret s
  | c :: rest =>
      s' <- explore_cell idx_state c.1 c.2 s ;;
      explore_cells idx_state rest s'
  end.

(** The globals when the loops over the cells of entry [idx_state]
    start: [main] has written its progress line when the index is a
    multiple of 100. *)
Definition with_progress_line (idx_state : Z) (w : World) : World :=
  if idx_state `rem` 100 =? 0 then add_output w [Explored idx_state] else w.

(** A board with the goal car already in the last column of the exit
    row, and a single empty cell behind it. *)
Definition board_goal_at_exit : Board :=
  list_ascii_of_string
    ("AABBCC" ++ "DDEEFF" ++ "GHI XX" ++ "GHIJJJ" ++ "KKLLMM" ++ "NNOOPP").

(** [board_goal_at_exit] after the goal car has moved one cell to the
    left, away from the exit. *)
Definition board_goal_moved_back : Board :=
  list_ascii_of_string
    ("AABBCC" ++ "DDEEFF" ++ "GHIXX " ++ "GHIJJJ" ++ "KKLLMM" ++ "NNOOPP").

(** The goal car alone, in the last two columns of the exit row. *)
Definition board_goal_alone : Board :=
  list_ascii_of_string
    ("      " ++ "      " ++ "    XX" ++ "      " ++ "      " ++ "      ").

(** The goal car alone, two cells away from the last column. *)
Definition board_goal_alone_away : Board :=
  list_ascii_of_string
    ("      " ++ "      " ++ "  XX  " ++ "      " ++ "      " ++ "      ").

(** ** The graph the search explores *)

(** The board [CheckMove] hands to [CheckAddState], without leaving
    the process, when its scan from [(y, x)] finds a car: the car
    moved one cell, or taken off the board when it is not the goal
    car and the move is into the last cell of the exit row. *)
Definition offered_at (d : direction) (s : Board) (x y : Z) (b : Board)
  : Prop :=
  exists car tx ty,
    found d s x y car tx ty /\
    ((at_exit d x y = false /\ b = slide s y x car ty tx) \/
     (at_exit d x y = true /\ car <> GOAL_CAR /\
      b = span y (tx + 1) x SPACE (slide s y x car ty tx))).

(** The move the search takes for the win: the goal car moves into
    the last cell of the exit row. *)
Definition wins_at (d : direction) (s : Board) (x y : Z) : Prop :=
  at_exit d x y = true /\ exists tx ty, found d s x y GOAL_CAR tx ty.

(** One move of the search: from an empty cell of [s], a scan offers
    [b]. *)
Definition move (s b : Board) : Prop :=
  exists d x y, on_board y x /\ cell_at s y x = SPACE /\ offered_at d s x y b.

(** From [s] the goal car can take the winning move. *)
Definition wins (s : Board) : Prop :=
  exists d x y, on_board y x /\ cell_at s y x = SPACE /\ wins_at d s x y.

(** [s] is [n] moves away from [init]. *)
Inductive reach (init : Board) : nat -> Board -> Prop :=
| reach_init : reach init O init
| reach_move n s b : reach init n s -> move s b -> reach init (S n) b.

(** The number of boards on the chain of entry [j]: one for the root,
    one more for each move. *)
Definition level (l : list (Board * Z)) (j : Z) : nat := length (chain l j).

(** [b] is in the list, on a chain of at most [c] boards. *)
Definition listed (l : list (Board * Z)) (b : Board) (c : nat) : Prop :=
  exists j, 0 <= j < Z.of_nat (length l) /\ board_at l j = b /\
            (level l j <= c)%nat.

(** The goal car lies in the exit row, and not in its last cell. *)
Definition goal_in_lane (b : Board) : Prop :=
  (forall y x, on_board y x -> cell_at b y x = GOAL_CAR -> y = BOARD_EXIT_Y) /\
  cell_at b BOARD_EXIT_Y (BOARD_SIZE - 1) <> GOAL_CAR.

(** What makes the search breadth-first, while entry [idx] is the
    next one to explore or is being explored: the list starts with
    the initial board, every other entry is one move from the entry
    it comes from, the levels do not decrease along the list and are
    at most one above the level of [idx], and the entries before
    [idx] are done with: none of them wins, and every move from them
    is in the list, at most one level above them. *)
Record bfs_inv (init : Board) (idx : Z) (w : World) : Prop := {
  bfs_root : state_list w !! 0%nat = Some (init, -1);
  bfs_moves : forall j e,
      state_list w !! j = Some e -> (0 < j)%nat ->
      0 <= e.2 /\ move (board_at (state_list w) e.2) e.1;
  bfs_sorted : forall j1 j2,
      0 <= j1 <= j2 -> j2 < Z.of_nat (length (state_list w)) ->
      (level (state_list w) j1 <= level (state_list w) j2)%nat;
  bfs_next : forall j,
      0 <= j < Z.of_nat (length (state_list w)) ->
      idx < Z.of_nat (length (state_list w)) ->
      (level (state_list w) j <= S (level (state_list w) idx))%nat;
  bfs_done : forall j,
      0 <= j < idx ->
      ~ wins (board_at (state_list w) j) /\
      forall b, move (board_at (state_list w) j) b ->
                listed (state_list w) b (S (level (state_list w) j));
  bfs_lane : forall b, b ∈ (state_list w).*1 -> goal_in_lane b
}.

(** What has been done for the cells [cells] of the board [s] of
    entry [idx]: no scan from them wins, and what the scans offer is
    in the list, at most one level above [idx]. *)
Definition scanned (idx : Z) (s : Board) (cells : list (Z * Z)) (w : World)
  : Prop :=
  forall c d, c ∈ cells -> cell_at s c.1 c.2 = SPACE ->
    ~ wins_at d s c.2 c.1 /\
    forall b, offered_at d s c.2 c.1 b ->
              listed (state_list w) b (S (level (state_list w) idx)).

(** What a computation guarantees when it ends: [Q] when it returns,
    [E] when the process leaves. *)
Definition holds {A} (r : result A) (Q : A -> World -> Prop)
    (E : World -> Prop) : Prop :=
  match r with
  | Ret a w' => Q a w'
  | Exit _ w' => E w'
  | Abort _ => True
  | Stuck => True
  end.

(** The state the process leaves in after a win: the search was
    breadth-first and exploring entry [idx], whose board wins, and
    the board with the goal car moved into the last cell of the exit
    row has been added to the list, as coming from [idx]. *)
Definition won (init : Board) (w' : World) : Prop :=
  exists idx w b,
    running w /\ bfs_inv init idx w /\
    0 <= idx < Z.of_nat (length (state_list w)) /\
    wins (board_at (state_list w) idx) /\
    (exists tx ty,
       found ScanLeft (board_at (state_list w) idx) (BOARD_SIZE - 1) BOARD_EXIT_Y
         GOAL_CAR tx ty /\
       b = slide (board_at (state_list w) idx) BOARD_EXIT_Y (BOARD_SIZE - 1)
             GOAL_CAR ty tx) /\
    state_list w' = state_list w ++ [(b, idx)].

(** What has been done for the scan in direction [d] from the cell
    [(y, x)] of the board [s] of entry [idx]. *)
Definition dir_done (idx : Z) (s : Board) (x y : Z) (d : direction)
    (w : World) : Prop :=
  ~ wins_at d s x y /\
  forall b, offered_at d s x y b ->
            listed (state_list w) b (S (level (state_list w) idx)).

(** A list of boards, each one move from the one before. *)
Inductive path_of_moves : list Board -> Prop :=
| path_one b : path_of_moves [b]
| path_snoc p s b :
    path_of_moves p -> last p = Some s -> move s b -> path_of_moves (p ++ [b]).

(** [goal_in_lane], as a test on the 36 cells. *)
Definition goal_in_lane_test (b : Board) : bool :=
  forallb (fun c => implb (Ascii.eqb (cell_at b c.1 c.2) GOAL_CAR)
                          (c.1 =? BOARD_EXIT_Y)) all_cells
  && negb (Ascii.eqb (cell_at b BOARD_EXIT_Y (BOARD_SIZE - 1)) GOAL_CAR).

(** Disequalities of coordinates, in the form [lia] reads. *)
Ltac split_pairs :=
  repeat match goal with
  | H : (?a, ?b) <> (?c, ?d) |- _ =>
      assert (a <> c \/ b <> d)
        by (destruct (decide (a = c)); destruct (decide (b = d));
            subst; auto; congruence);
      clear H
  | H : (?a, ?b) = (?c, ?d) |- _ =>
      apply pair_equal_spec in H; destruct H
  end.

(** The globals and the output a computation ends with. *)
Definition final_world {A} (r : result A) : World :=
  match r with
  | Ret _ w => w
  | Exit _ w => w
  | Abort _ => initial_world
  | Stuck => initial_world
  end.

(** ** [Board::operator<] *)

(** [memcmp( a, b, n )]: zero when the first [n] bytes agree, and
    otherwise the difference of the first two bytes that differ, each
    read as an [unsigned char]; the caller looks at the sign only. *)
Fixpoint memcmp (a b : list ascii) (n : nat) : Z :=
  match n, a, b with
  | S n', x :: a', y :: b' =>
      if Ascii.eqb x y then memcmp a' b' n'
      else Z.of_nat (nat_of_ascii x) - Z.of_nat (nat_of_ascii y)
  | _, _, _ => 0
  end.

(** [bool operator<( const Board &x ) const], with [sizeof(cell)]
    being [BOARD_SIZE * BOARD_SIZE]. *)
Definition Board_lt (a b : Board) : bool :=
  memcmp a b (Z.to_nat (BOARD_SIZE * BOARD_SIZE)) <? 0.

(** Two boards that [std::set] takes for the same element: neither is
    less than the other. *)
Definition Board_equiv (a b : Board) : bool :=
  negb (Board_lt a b) && negb (Board_lt b a).

(** ** [Board::Print] *)

(** The places where [Print] can stop abnormally. *)
Inductive print_fault :=
| AssertPrintCell       (* the assert of [Cell], called from [Print] *)
| AssertNoMove.         (* [assert( false )]: the next state is not
                           reachable from this state by a simple move *)

(** How a piece of [Print] ends: with the text it has written, with a
    failed assertion, or with the loop bound of the model used up. *)
Inductive printed (A : Type) :=
| Printed (a : A)
| PrintAbort (f : print_fault)
| PrintStuck.
Arguments Printed {A} a.
Arguments PrintAbort {A} f.
Arguments PrintStuck {A}.

Definition print_bind {A B} (m : printed A) (k : A -> printed B) : printed B :=
  match m with
  | Printed a => k a
  | PrintAbort f => PrintAbort f
  | PrintStuck => PrintStuck
  end.

Notation "x <~ m ;; k" := (print_bind m (fun x => k))
  (at level 100, m at next level, right associativity).

(** [Cell( y, x )], called from [Print]. *)
Definition cell_of (s : Board) (y x : Z) : printed ascii :=
  match Cell s y x with
  | Some c => Printed c
  | None => PrintAbort AssertPrintCell
  end.

(** The choice of the arrow, for the character [n] the next board has
    in the cell [(y, x)]:
    [if ( CellSafe( y, x-1 ) == n ) c = '>'; else if ... else assert( false );] *)
Definition arrow (cur : Board) (y x : Z) (n : ascii) : printed ascii :=
  if Ascii.eqb (CellSafe cur y (x - 1)) n then Printed ">"%char
  else if Ascii.eqb (CellSafe cur y (x + 1)) n then Printed "<"%char
  else if Ascii.eqb (CellSafe cur (y - 1) x) n then Printed "v"%char
  else if Ascii.eqb (CellSafe cur (y + 1) x) n then Printed "^"%char
  else PrintAbort AssertNoMove.

(** The loop over [xx] that computes [bCarLeftBoard], on the columns
    [cols] that are left; it stops at the first column that fails the
    test. *)
Fixpoint car_left_board (cur next : Board) (y : Z) (c : ascii)
    (cols : list Z) : printed bool :=
  match cols with
  | [] => Printed true
  | xx :: rest =>
      n <~ cell_of next y xx ;;
      if negb (Ascii.eqb n SPACE) then Printed false
      else
        a <~ cell_of cur y xx ;;
        if negb (Ascii.eqb a SPACE) then
          a' <~ cell_of cur y xx ;;
          if negb (Ascii.eqb a' c) then Printed false
          else car_left_board cur next y c rest
        else car_left_board cur next y c rest
  end.

(** [while ( x < BOARD_SIZE && c == Cell( y, x ) ) { printf( "%c", c ); ++x; }]:
    the text, and [x] as the loop leaves it. *)
Fixpoint car_cells (fuel : nat) (cur : Board) (y : Z) (c : ascii) (x : Z)
  : printed (string * Z) :=
  match fuel with
  | O => PrintStuck
  | S fuel' =>
      if x <? BOARD_SIZE then
        a <~ cell_of cur y x ;;
        if Ascii.eqb c a then
          r <~ car_cells fuel' cur y c (x + 1) ;;
          Printed (String c r.1, r.2)
        else Printed (EmptyString, x)
      else Printed (EmptyString, x)
  end.

(** [while ( x < BOARD_SIZE+1 ) { printf( ">" ); ++x; }] *)
Fixpoint leave_arrows (fuel : nat) (x : Z) : printed string :=
  match fuel with
  | O => PrintStuck
  | S fuel' =>
      if x <? BOARD_SIZE + 1 then
        t <~ leave_arrows fuel' (x + 1) ;;
        Printed (String ">"%char t)
      else Printed EmptyString
  end.

(** Rounds that are enough for each of the loops of [Print] over [x],
    which all start at a column that is not negative and stop at
    [BOARD_SIZE + 1] at the latest. *)
Definition print_fuel : nat := Z.to_nat (BOARD_SIZE + 2).

(** What one round of the loop over [x] writes: one character, after
    which the loop goes on, or the rest of the row, after which the
    loop is left with [break]. *)
Inductive cell_text :=
| Char (c : ascii)
| Leave (t : string).

(** The body of the loop over [x], up to the [printf] that ends it. *)
Definition print_cell (cur next : Board) (y x : Z) : printed cell_text :=
  c <~ cell_of cur y x ;;
  n <~ cell_of next y x ;;
  if negb (Ascii.eqb c n) then
    if Ascii.eqb c SPACE then
      a <~ arrow cur y x n ;;
      Printed (Char a)
    else if Ascii.eqb n SPACE && (y =? BOARD_EXIT_Y) && (x <? BOARD_SIZE - 1) then
      b <~ car_left_board cur next y c (seqZ (x + 1) (BOARD_SIZE - (x + 1))) ;;
      if b : bool then
        r <~ car_cells print_fuel cur y c x ;;
        a <~ leave_arrows print_fuel r.2 ;;
        Printed (Leave (r.1 ++ a)%string)
      else Printed (Char c)
    else Printed (Char c)
  else Printed (Char c).

(** [for ( int x = 0 ; x < BOARD_SIZE ; ++x )], from the column [x]
    on: the text of the rest of the row. *)
Fixpoint print_row (fuel : nat) (cur next : Board) (y x : Z) : printed string :=
  match fuel with
  | O => PrintStuck
  | S fuel' =>
      if x <? BOARD_SIZE then
        o <~ print_cell cur next y x ;;
        match o with
        | Char c =>
            t <~ print_row fuel' cur next y (x + 1) ;;
            Printed (String c t)
        | Leave t => Printed t
        end
      else Printed EmptyString
  end.

(** [for ( int y = 0 ; y < BOARD_SIZE ; ++y )], on the rows [rows]
    that are left: the indent, the row and the end of the line. *)
Fixpoint print_rows (indent : string) (cur next : Board) (rows : list Z)
  : printed string :=
  match rows with
  | [] => Printed EmptyString
  | y :: rest =>
      r <~ print_row print_fuel cur next y 0 ;;
      t <~ print_rows indent cur next rest ;;
      Printed (indent ++ r ++ newline ++ t)%string
  end.

(** [void Print( const char *indent, const Board *next ) const]: the
    text it writes.  [Print] is the name of the item of [output]. *)
Definition Board_Print (indent : string) (cur : Board) (next : option Board)
  : printed string :=
  let next := match next with Some b => b | None => cur end in
  print_rows indent cur next (seqZ 0 BOARD_SIZE).

(** The cells of row [y] from the column [x] on, as they are. *)
Definition row_from (s : Board) (y x : Z) : string :=
  string_of_list_ascii (cell_at s y <$> seqZ x (BOARD_SIZE - x)).

(** The board as it is, row after row, each after the indent. *)
Definition plain_text (indent : string) (s : Board) : string :=
  foldr (fun y t => (indent ++ row_from s y 0 ++ newline ++ t)%string) EmptyString
        (seqZ 0 BOARD_SIZE).

(** [n] times the character [c]. *)
Definition repeat_char (c : ascii) (n : Z) : string :=
  string_of_list_ascii (replicate (Z.to_nat n) c).

(** The cells of row [y] from the column [lo] up to the column before
    [hi]. *)
Definition row_between (s : Board) (y lo hi : Z) : string :=
  string_of_list_ascii (cell_at s y <$> seqZ lo (hi - lo)).

(** An item of the output can be written: when it is a board, [Print]
    does not fail on it. *)
Definition renders (o : output) : bool :=
  match o with
  | Print indent cur next =>
      match Board_Print indent cur next with
      | Printed _ => true
      | _ => false
      end
  | _ => true
  end.

(** In every empty cell where [next] holds a car, a cell next to it
    holds that car in [cur]: [Print] finds an arrow to draw. *)
Definition has_arrows (cur next : Board) : Prop :=
  forall y x, on_board y x -> cell_at cur y x = SPACE ->
    cell_at next y x <> SPACE ->
    CellSafe cur y (x - 1) = cell_at next y x \/
    CellSafe cur y (x + 1) = cell_at next y x \/
    CellSafe cur (y - 1) x = cell_at next y x \/
    CellSafe cur (y + 1) x = cell_at next y x.

(** ** What [main] writes *)

(** What [main] has written when it starts to explore the entry
    [idx]: the heading, the initial board, and a line for every entry
    below [idx] whose index is a multiple of 100. *)
Definition search_output (init : Board) (idx : Z) : list output :=
  [Text ("Initial board state:" ++ newline); Print "  " init None] ++
  (Explored <$> filter (fun i => i `rem` 100 = 0) (seqZ 0 idx)).

(** The process leaves with a solution written after [out]. *)
Definition solved_after (out : list output) (w' : World) : Prop :=
  exists w, running w /\ stdout w = out /\
            w' = add_output w (solution_output (state_list w)).

(** [exploring], with nothing written. *)
Definition exploring_quietly (out : list output) (idx_state : Z) (s : Board)
    (s' : Board) (w : World) : Prop :=
  exploring idx_state s s' w /\ stdout w = out.

(** The number of cells of [s] that hold [c]. *)
Definition cells_with (c : ascii) (s : Board) : nat :=
  length (filter (fun a => a = c) s).

(** The board with the exit row as [Print] writes it when a car
    leaves from the last but one column: the first five cells, and
    two arrows. *)
Definition leave_text (indent : string) (s : Board) : string :=
  foldr (fun (y : Z) t =>
           (indent ++
            (if (y =? BOARD_EXIT_Y)%Z
             then row_between s y 0 (BOARD_SIZE - 1) ++ ">>"
             else row_from s y 0) ++ newline ++ t)%string)
        EmptyString (seqZ 0 BOARD_SIZE).

(** A board with a car [A] that stands across the exit row, its upper
    end in it, with nothing to its right. *)
Definition board_car_down : Board :=
  list_ascii_of_string
    ("      " ++ "      " ++ "XXA   " ++ "  A   " ++ "      " ++ "      ").

(** The arrow that points the way a car moves when the scan in the
    direction [d] has found it: the car moves against the scan. *)
Definition arrow_of (d : direction) : ascii :=
  match d with
  | ScanRight => "<"%char
  | ScanLeft => ">"%char
  | ScanDown => "^"%char
  | ScanUp => "v"%char
  end.

(** * Properties *)

(** ** Cells *)

Lemma in_bounds_on_board y x : in_bounds y x = true <-> on_board y x.
Proof. unfold in_bounds, on_board, BOARD_SIZE. lia. Qed.

Lemma in_bounds_off_board y x : in_bounds y x = false <-> ~ on_board y x.
Proof. rewrite <- in_bounds_on_board. destruct (in_bounds y x); split; congruence. Qed.

Lemma offset_lt y x : on_board y x -> (offset y x < 36)%nat.
Proof. unfold on_board, offset, BOARD_SIZE. lia. Qed.

Lemma offset_inj y x y' x' :
  on_board y x -> on_board y' x' -> offset y x = offset y' x' -> y = y' /\ x = x'.
Proof. unfold on_board, offset, BOARD_SIZE. lia. Qed.

Lemma board_wf_length s : board_wf s <-> length s = 36%nat.
Proof. unfold board_wf, BOARD_SIZE. reflexivity. Qed.

Lemma board_wf_insert s i c : board_wf s -> board_wf (<[i := c]> s).
Proof. unfold board_wf. now rewrite length_insert. Qed.

Lemma cell_at_insert_eq s y x c :
  board_wf s -> on_board y x -> cell_at (<[offset y x := c]> s) y x = c.
Proof.
  intros Hwf Hb. unfold cell_at. rewrite nth_lookup.
  rewrite list_lookup_insert_eq; [reflexivity|].
  apply board_wf_length in Hwf. rewrite Hwf. now apply offset_lt.
Qed.

Lemma cell_at_insert_ne s y x y' x' c :
  on_board y x -> on_board y' x' -> (y, x) <> (y', x') ->
  cell_at (<[offset y x := c]> s) y' x' = cell_at s y' x'.
Proof.
  intros Hb Hb' Hne. unfold cell_at. rewrite !nth_lookup.
  rewrite list_lookup_insert_ne; [reflexivity|].
  intros Heq. apply offset_inj in Heq as [-> ->]; auto.
Qed.

Lemma cell_at_insert s y x y' x' c :
  board_wf s -> on_board y x -> on_board y' x' ->
  cell_at (<[offset y x := c]> s) y' x' =
  if decide ((y, x) = (y', x')) then c else cell_at s y' x'.
Proof.
  intros Hwf Hb Hb'. destruct (decide _) as [[= <- <-]|Hne].
  - now apply cell_at_insert_eq.
  - now apply cell_at_insert_ne.
Qed.

(** Two boards with the same 36 cells are the same board. *)
Lemma board_ext s1 s2 :
  board_wf s1 -> board_wf s2 ->
  (forall y x, on_board y x -> cell_at s1 y x = cell_at s2 y x) ->
  s1 = s2.
Proof.
  intros H1 H2 Hc. apply board_wf_length in H1, H2.
  apply list_eq_same_length with 36%nat; auto.
  intros i a b Hi Ha Hb.
  specialize (Hc (Z.of_nat i / 6) (Z.of_nat i mod 6)).
  unfold cell_at, offset, on_board, BOARD_SIZE in Hc.
  replace (Z.to_nat (Z.of_nat i / 6 * 6 + Z.of_nat i mod 6)) with i in Hc
    by (rewrite Z.mul_comm, <- Z.div_mod by lia; lia).
  rewrite !nth_lookup, Ha, Hb in Hc. simpl in Hc. apply Hc.
  split; [apply Z.mod_pos_bound; lia|].
  split; [apply Z.div_pos; lia|apply Z.div_lt_upper_bound; lia].
Qed.

Lemma Cell_on_board s y x : on_board y x -> Cell s y x = Some (cell_at s y x).
Proof. intros H. unfold Cell. now apply in_bounds_on_board in H as ->. Qed.

Lemma SetCell_on_board s y x c :
  on_board y x -> SetCell s y x c = Some (<[offset y x := c]> s).
Proof. intros H. unfold SetCell. now apply in_bounds_on_board in H as ->. Qed.

Lemma CellSafe_on_board s y x : on_board y x -> CellSafe s y x = cell_at s y x.
Proof.
  unfold on_board, CellSafe, BOARD_SIZE. intros H.
  replace (_ || _) with false; [reflexivity|]. symmetry. lia.
Qed.

(** ** C3: [CellSafe] off the board *)

(** C3, as stated, fails: off the board [CellSafe] returns the
    character 0, and an empty cell is the character [' ']. *)
Lemma CellSafe_off_board_is_not_space :
  ~ on_board 0 6 /\ CellSafe board_155 0 6 <> SPACE.
Proof. split; [unfold on_board, BOARD_SIZE; lia|discriminate]. Qed.

(** C3 (amended): for every pair of coordinates with the row or the
    column outside [0, BOARD_SIZE), [CellSafe] returns the character 0
    without failing, whatever the board holds, where [Cell] fails its
    assertion; that character is not the empty marker [' ']. *)
Theorem CellSafe_off_board (s : Board) (y x : Z) :
  ~ on_board y x ->
  CellSafe s y x = NUL /\ NUL <> SPACE /\ Cell s y x = None.
Proof.
  intros H. split; [|split; [discriminate|]].
  - unfold on_board, CellSafe, BOARD_SIZE in *.
    replace (_ || _) with true; [reflexivity|]. symmetry. lia.
  - unfold Cell. now apply in_bounds_off_board in H as ->.
Qed.

Lemma CellSafe_off_board_witness :
  CellSafe board_155 (-1) 3 = NUL /\ NUL <> SPACE /\ Cell board_155 (-1) 3 = None.
Proof. apply CellSafe_off_board. unfold on_board, BOARD_SIZE. lia. Defined.

(** ** C4: registration *)

(** While the two sizes agree, the assertion of [CheckAddState] holds. *)
Lemma CheckAddState_sizes (state : Board) (from : Z) (w : World) :
  sizes_agree w ->
  exists w',
    CheckAddState state from w = Ret tt w' /\
    (state ∈ states_in_list w -> w' = w) /\
    (state ∉ states_in_list w ->
       state_list w' = state_list w ++ [(state, from)] /\
       states_in_list w' = {[ state ]} ∪ states_in_list w /\
       stdout w' = stdout w) /\
    sizes_agree w'.
Proof.
  unfold sizes_agree, CheckAddState. intros Hsz.
  destruct (decide (state ∈ states_in_list w)) as [Hin|Hnin].
  - exists w. split; [reflexivity|]. split; [reflexivity|].
    split; [intros; contradiction|assumption].
  - cbn zeta. destruct (decide _) as [Heq|Hne].
    + eexists. split; [reflexivity|]. split; [intros; contradiction|].
      split; [intros _; repeat split|exact Heq].
    + exfalso. apply Hne. cbn.
      rewrite length_app, size_union, size_singleton by set_solver.
      cbn. lia.
Qed.

(** C4: a call of [CheckAddState] with a board that is already in
    [states_in_list] leaves [state_list] (and everything else) as it
    is; with a new board it appends exactly the pair of the board and
    the index it comes from; and when the two sizes agree before the
    call, the call returns and they agree after it. *)
Theorem CheckAddState_registers (state : Board) (from : Z) (w : World) :
  sizes_agree w ->
  exists w',
    CheckAddState state from w = Ret tt w' /\
    (state ∈ states_in_list w -> w' = w) /\
    (state ∉ states_in_list w ->
       state_list w' = state_list w ++ [(state, from)] /\
       states_in_list w' = {[ state ]} ∪ states_in_list w /\
       stdout w' = stdout w) /\
    sizes_agree w'.
Proof.
  unfold sizes_agree, CheckAddState. intros Hsz.
  destruct (decide (state ∈ states_in_list w)) as [Hin|Hnin].
  - exists w. split; [reflexivity|]. split; [reflexivity|].
    split; [intros; contradiction|assumption].
  - cbn zeta. destruct (decide _) as [Heq|Hne].
    + eexists. split; [reflexivity|]. split; [intros; contradiction|].
      split; [intros _; repeat split|exact Heq].
    + exfalso. apply Hne. cbn.
      rewrite length_app, size_union, size_singleton by set_solver.
      cbn. lia.
Qed.

Lemma CheckAddState_registers_witness :
  exists w',
    CheckAddState board_155 (-1) initial_world = Ret tt w' /\
    (board_155 ∈ states_in_list initial_world -> w' = initial_world) /\
    (board_155 ∉ states_in_list initial_world ->
       state_list w' = state_list initial_world ++ [(board_155, -1)] /\
       states_in_list w' = {[ board_155 ]} ∪ states_in_list initial_world /\
       stdout w' = stdout initial_world) /\
    sizes_agree w'.
Proof. apply CheckAddState_registers. reflexivity. Defined.

(** ** The scan of [CheckMove] *)

(** Along the scan, the macro tests exactly that the cell is on the
    board: the coordinate that does not move stays where it was, and
    the other one can leave on one side only. *)
Lemma txty_on_board_step d tx ty k :
  on_board ty tx -> 0 <= k ->
  txty_on_board (dir_dx d) (dir_dy d) (tx + k * dir_dx d) (ty + k * dir_dy d) = true
  <-> on_board (ty + k * dir_dy d) (tx + k * dir_dx d).
Proof.
  unfold on_board, txty_on_board, BOARD_SIZE. destruct d; cbn; lia.
Qed.

Lemma find_end_spec d s car fuel : forall tx ty w,
  on_board ty tx -> room d tx ty <= Z.of_nat fuel ->
  exists m, 1 <= m /\
    find_end fuel (dir_dx d) (dir_dy d) s car tx ty w
      = Ret (tx + m * dir_dx d, ty + m * dir_dy d) w /\
    (forall k, 1 <= k < m ->
       on_board (ty + k * dir_dy d) (tx + k * dir_dx d) /\
       cell_at s (ty + k * dir_dy d) (tx + k * dir_dx d) = car) /\
    (on_board (ty + m * dir_dy d) (tx + m * dir_dx d) ->
       cell_at s (ty + m * dir_dy d) (tx + m * dir_dx d) <> car).
Proof.
  induction fuel as [|fuel IH]; intros tx ty w Hb Hroom.
  - exfalso. unfold on_board, room, BOARD_SIZE in *. destruct d; lia.
  - cbn [find_end].
    pose proof (txty_on_board_step d tx ty 1 Hb ltac:(lia)) as Hstep.
    rewrite !Z.mul_1_l in Hstep.
    destruct (txty_on_board _ _ _ _) eqn:Hon.
    + assert (Hb' : on_board (ty + dir_dy d) (tx + dir_dx d)) by now apply Hstep.
      unfold bind. rewrite (Cell_on_board _ _ _ Hb'). cbn.
      destruct (Ascii.eqb _ car) eqn:Hc.
      * apply Ascii.eqb_eq in Hc.
        destruct (IH (tx + dir_dx d) (ty + dir_dy d) w Hb') as (m & Hm & Hr & Hk & He).
        { unfold on_board, room, BOARD_SIZE in *. destruct d; cbn in *; lia. }
        exists (m + 1). split; [lia|]. split; [|split].
        -- rewrite Hr. f_equal. f_equal; lia.
        -- intros k Hk1. destruct (decide (k = 1)) as [->|Hne].
           ++ now rewrite !Z.mul_1_l.
           ++ specialize (Hk (k - 1) ltac:(lia)).
              replace (ty + k * dir_dy d) with (ty + dir_dy d + (k - 1) * dir_dy d) by lia.
              replace (tx + k * dir_dx d) with (tx + dir_dx d + (k - 1) * dir_dx d) by lia.
              exact Hk.
        -- replace (ty + (m + 1) * dir_dy d) with (ty + dir_dy d + m * dir_dy d) by lia.
           replace (tx + (m + 1) * dir_dx d) with (tx + dir_dx d + m * dir_dx d) by lia.
           exact He.
      * apply Ascii.eqb_neq in Hc.
        exists 1. rewrite !Z.mul_1_l. split; [lia|]. split; [reflexivity|].
        split; [intros; lia|auto].
    + exists 1. rewrite !Z.mul_1_l. split; [lia|]. split; [reflexivity|].
      split; [intros; lia|].
      intros Hb'. apply Hstep in Hb'. congruence.
Qed.

(** ** The monad *)

Lemma bind_assoc {A B C} (m : M A) (k : A -> M B) (h : B -> M C) w :
  bind (bind m k) h w = bind m (fun a => bind (k a) h) w.
Proof. unfold bind. destruct (m w); reflexivity. Qed.

Lemma bind_ext {A B} (m : M A) (k k' : A -> M B) w :
  (forall a w', k a w' = k' a w') -> bind m k w = bind m k' w.
Proof. intros H. unfold bind. destruct (m w); auto. Qed.

(** [PrintSolutionAndQuit] does not return: what follows the call is
    not run. *)
Lemma PrintSolutionAndQuit_no_return {A B} (k : A -> M B) w :
  bind PrintSolutionAndQuit k w = PrintSolutionAndQuit w.
Proof.
  unfold PrintSolutionAndQuit, get_state_list, bind, exit.
  destruct (PrintSolutionRecursive _ _ _ _); reflexivity.
Qed.

(** ** Writing a span of cells *)

Lemma for_each_SetCell y c (l : list Z) : forall s w,
  (forall xx, xx ∈ l -> on_board y xx) ->
  for_each l (fun xx s => checked AssertSetCell (SetCell s y xx c)) s w
  = Ret (foldl (fun s xx => <[offset y xx := c]> s) s l) w.
Proof.
  induction l as [|xx l IH]; intros s w Hl; [reflexivity|].
  cbn [for_each foldl]. unfold bind at 1.
  rewrite SetCell_on_board by (apply Hl; left). cbn.
  apply IH. intros; apply Hl. now right.
Qed.

Lemma set_span_spec y lo hi c s w :
  0 <= y < BOARD_SIZE -> 0 <= lo -> hi < BOARD_SIZE ->
  set_span y lo hi c s w = Ret (span y lo hi c s) w.
Proof.
  intros Hy Hlo Hhi. unfold set_span, for_range, span.
  replace (hi + 1 - lo) with (hi + 1 - lo) by lia.
  apply for_each_SetCell. intros xx Hxx. apply elem_of_seqZ in Hxx.
  unfold on_board. lia.
Qed.

Lemma board_wf_foldl y c (l : list Z) : forall s,
  board_wf s -> board_wf (foldl (fun s xx => <[offset y xx := c]> s) s l).
Proof.
  induction l; intros s Hs; cbn; auto. apply IHl. now apply board_wf_insert.
Qed.

Lemma board_wf_span y lo hi c s : board_wf s -> board_wf (span y lo hi c s).
Proof. apply board_wf_foldl. Qed.

Lemma board_wf_slide s y x car ty tx : board_wf s -> board_wf (slide s y x car ty tx).
Proof. intros. unfold slide. now do 2 apply board_wf_insert. Qed.

Lemma cell_at_foldl y c (l : list Z) y' x' : forall s,
  board_wf s -> (forall xx, xx ∈ l -> on_board y xx) -> on_board y' x' ->
  cell_at (foldl (fun s xx => <[offset y xx := c]> s) s l) y' x'
  = if decide (y' = y /\ x' ∈ l) then c else cell_at s y' x'.
Proof.
  induction l as [|xx l IH]; intros s Hs Hl Hb'; cbn [foldl].
  - destruct (decide _) as [[_ H]|]; [inversion H|reflexivity].
  - rewrite IH; auto using board_wf_insert.
    2:{ intros; apply Hl; now right. }
    assert (Hxx : on_board y xx) by (apply Hl; left).
    rewrite cell_at_insert by auto.
    destruct (decide (y' = y /\ x' ∈ l)) as [[Hy Hin]|Hn1];
      destruct (decide ((y, xx) = (y', x'))) as [Heq|Hne];
      destruct (decide (y' = y /\ x' ∈ xx :: l)) as [[Hy' Hin']|Hn3];
      try reflexivity; exfalso.
    + apply Hn3. split; [exact Hy|now right].
    + apply Hn3. split; [exact Hy|now right].
    + apply Hn3. injection Heq as -> ->. split; [reflexivity|left].
    + apply elem_of_cons in Hin' as [->|Hin'].
      * apply Hne. now rewrite Hy'.
      * apply Hn1. now split.
Qed.

Lemma cell_at_span y lo hi c s y' x' :
  board_wf s -> 0 <= y < BOARD_SIZE -> 0 <= lo -> hi < BOARD_SIZE ->
  on_board y' x' ->
  cell_at (span y lo hi c s) y' x'
  = if decide (y' = y /\ lo <= x' <= hi) then c else cell_at s y' x'.
Proof.
  intros Hs Hy Hlo Hhi Hb'. unfold span. rewrite cell_at_foldl; auto.
  - repeat case_decide; try reflexivity; exfalso;
      rewrite elem_of_seqZ in *; intuition lia.
  - intros xx H%elem_of_seqZ. unfold on_board. lia.
Qed.

Lemma cell_at_slide s y x car ty tx y' x' :
  board_wf s -> on_board y x -> on_board ty tx -> on_board y' x' ->
  cell_at (slide s y x car ty tx) y' x'
  = if decide ((ty, tx) = (y', x')) then SPACE
    else if decide ((y, x) = (y', x')) then car
    else cell_at s y' x'.
Proof.
  intros. unfold slide. rewrite !cell_at_insert; auto using board_wf_insert.
Qed.

(** ** The cases of [CheckMove] *)

(** Undoing the slide gives the board back. *)
Lemma slide_undo d s x y car tx ty :
  board_wf s -> on_board y x -> cell_at s y x = SPACE ->
  found d s x y car tx ty ->
  <[offset ty tx := car]> (<[offset y x := SPACE]> (slide s y x car ty tx)) = s.
Proof.
  intros Hwf Hb Hsp [Hcar (n & Hn & -> & -> & Hcells) Hbt Hend].
  apply board_ext; auto using board_wf_insert, board_wf_slide.
  intros y' x' Hb'.
  rewrite 2!cell_at_insert, cell_at_slide by auto using board_wf_insert, board_wf_slide.
  repeat case_decide; simplify_eq; auto.
  symmetry. apply Hcells. lia.
Qed.

(** Undoing the erasure of the car and then the slide gives the board
    back. *)
Lemma vacate_undo s x y car tx ty :
  board_wf s -> on_board y x -> cell_at s y x = SPACE ->
  found ScanLeft s x y car tx ty ->
  <[offset ty tx := car]>
    (<[offset y x := SPACE]>
       (span y (tx + 1) x car
          (span y (tx + 1) x SPACE (slide s y x car ty tx)))) = s.
Proof.
  intros Hwf Hb Hsp [Hcar (n & Hn & -> & -> & Hcells) Hbt Hend].
  cbn [dir_dx dir_dy] in *. rewrite Z.mul_0_r, Z.add_0_r in *.
  assert (Hy : 0 <= y < BOARD_SIZE) by apply Hb.
  assert (Hx : x < BOARD_SIZE) by apply Hb.
  assert (Hlo : 0 <= x + n * -1 + 1) by (unfold on_board in Hbt; lia).
  apply board_ext; auto 10 using board_wf_insert, board_wf_slide, board_wf_span.
  intros y' x' Hb'.
  rewrite 2!cell_at_insert, 2!cell_at_span, cell_at_slide
    by auto 10 using board_wf_insert, board_wf_slide, board_wf_span.
  repeat case_decide; simplify_eq; auto.
  - rewrite <- (Hcells n) by lia. f_equal; lia.
  - match goal with H : _ /\ _ <= x' <= _ |- _ => destruct H as [? Hx'] end.
    subst. assert (x' <> x) by congruence.
    rewrite <- (Hcells (x - x')) by lia. f_equal; lia.
Qed.

Lemma bind_checked_Some {A B} f (a : A) (k : A -> M B) w :
  bind (checked f (Some a)) k w = k a w.
Proof. reflexivity. Qed.

Lemma bind_ret {A B} (a : A) (k : A -> M B) w : bind (ret a) k w = k a w.
Proof. reflexivity. Qed.

Lemma bind_Ret {A B} (m : M A) (k : A -> M B) w a w' :
  m w = Ret a w' -> bind m k w = k a w'.
Proof. intros H. unfold bind. now rewrite H. Qed.

Lemma CheckMove_cases d s x y idx_state :
  board_wf s -> on_board y x -> cell_at s y x = SPACE ->
  ((forall car tx ty, ~ found d s x y car tx ty) /\
   forall w, CheckMove (dir_dx d) (dir_dy d) s x y idx_state w = Ret s w) \/
  (exists car tx ty,
     found d s x y car tx ty /\
     forall w, CheckMove (dir_dx d) (dir_dy d) s x y idx_state w
               = after_scan d s x y idx_state car tx ty w).
Proof.
  intros Hwf Hb Hsp.
  assert (Hline : forall n k, 0 <= k <= n ->
            on_board (y + n * dir_dy d) (x + n * dir_dx d) ->
            on_board (y + k * dir_dy d) (x + k * dir_dx d)).
  { intros n k Hk. unfold on_board in *. destruct d; cbn; lia. }
  pose proof (txty_on_board_step d x y 2 Hb ltac:(lia)) as H2.
  replace (x + 2 * dir_dx d) with (x + dir_dx d * 2) in H2 by lia.
  replace (y + 2 * dir_dy d) with (y + dir_dy d * 2) in H2 by lia.
  destruct (txty_on_board (dir_dx d) (dir_dy d) (x + dir_dx d * 2) (y + dir_dy d * 2))
    eqn:Hon.
  2:{ left. split; [|intros w; unfold CheckMove; now rewrite Hon].
      intros car tx ty [_ (n & Hn & -> & -> & _) Hbt _].
      apply (Hline n 2) in Hbt; [|lia].
      replace (x + 2 * dir_dx d) with (x + dir_dx d * 2) in Hbt by lia.
      replace (y + 2 * dir_dy d) with (y + dir_dy d * 2) in Hbt by lia.
      apply H2 in Hbt. congruence. }
  assert (Hb2 : on_board (y + dir_dy d * 2) (x + dir_dx d * 2)) by now apply H2.
  assert (Hb1 : on_board (y + dir_dy d * 2 - dir_dy d) (x + dir_dx d * 2 - dir_dx d)).
  { unfold on_board in *. destruct d; cbn in *; lia. }
  set (car := cell_at s (y + dir_dy d * 2) (x + dir_dx d * 2)).
  set (c := cell_at s (y + dir_dy d * 2 - dir_dy d) (x + dir_dx d * 2 - dir_dx d)).
  assert (Hstart : forall w,
            CheckMove (dir_dx d) (dir_dy d) s x y idx_state w =
            (if negb (Ascii.eqb c car) || Ascii.eqb car SPACE then ret s
             else
               e <- find_end (Z.to_nat BOARD_SIZE) (dir_dx d) (dir_dy d) s car
                      (x + dir_dx d * 2) (y + dir_dy d * 2) ;;
               let tx := e.1 - dir_dx d in
               let ty := e.2 - dir_dy d in
               s <- checked AssertSetCell (SetCell s y x car) ;;
               s <- checked AssertSetCell (SetCell s ty tx SPACE) ;;
               s <- (if (dir_dx d =? -1) && (x =? BOARD_SIZE - 1) && (y =? BOARD_EXIT_Y)
                     then
                       if Ascii.eqb car GOAL_CAR then
                         CheckAddState s idx_state ;;;
                         PrintSolutionAndQuit
                       else
                         s <- set_span y (tx + 1) x SPACE s ;;
                         CheckAddState s idx_state ;;;
                         set_span y (tx + 1) x car s
                     else
                       CheckAddState s idx_state ;;;
                       ret s) ;;
               s <- checked AssertSetCell (SetCell s y x SPACE) ;;
               checked AssertSetCell (SetCell s ty tx car)) w).
  { intros w. unfold CheckMove. rewrite Hon. cbn [negb].
    rewrite (Cell_on_board _ _ _ Hb2), bind_checked_Some.
    rewrite (Cell_on_board _ _ _ Hb1), bind_checked_Some. reflexivity. }
  destruct (Ascii.eqb c car) eqn:Hc1; cbn [negb orb] in Hstart.
  2:{ left. split; [|exact Hstart]. apply Ascii.eqb_neq in Hc1.
      intros car' tx ty [_ (n & Hn & -> & -> & Hcells) _ _]. apply Hc1.
      transitivity car'; [|symmetry].
      - rewrite <- (Hcells 1) by lia. unfold c. f_equal; lia.
      - rewrite <- (Hcells 2) by lia. unfold car. f_equal; lia. }
  destruct (Ascii.eqb car SPACE) eqn:Hc2.
  { left. split; [|exact Hstart]. apply Ascii.eqb_eq in Hc2.
    intros car' tx ty [Hcar (n & Hn & -> & -> & Hcells) _ _]. apply Hcar.
    rewrite <- Hc2, <- (Hcells 2) by lia. unfold car. f_equal; lia. }
  apply Ascii.eqb_eq in Hc1. apply Ascii.eqb_neq in Hc2.
  right.
  assert (Hfe := fun w => find_end_spec d s car (Z.to_nat BOARD_SIZE)
                   (x + dir_dx d * 2) (y + dir_dy d * 2) w Hb2).
  assert (Hroom : room d (x + dir_dx d * 2) (y + dir_dy d * 2)
                  <= Z.of_nat (Z.to_nat BOARD_SIZE)).
  { unfold on_board, room, BOARD_SIZE in *. destruct d; cbn in *; lia. }
  destruct (Hfe initial_world Hroom) as (m & Hm & _ & Hk & He).
  set (tx := x + (m + 1) * dir_dx d).
  set (ty := y + (m + 1) * dir_dy d).
  assert (Hrun : forall w,
             find_end (Z.to_nat BOARD_SIZE) (dir_dx d) (dir_dy d) s car
               (x + dir_dx d * 2) (y + dir_dy d * 2) w
             = Ret (tx + dir_dx d, ty + dir_dy d) w).
  { intros w. destruct (Hfe w Hroom) as (m' & Hm' & Hr' & Hk' & He').
    assert (m' = m) as ->.
    { destruct (Z.lt_trichotomy m' m) as [Hlt|[Heq|Hgt]]; auto; exfalso.
      - destruct (Hk m' ltac:(lia)) as [Hbm Hcm]. now apply He'.
      - destruct (Hk' m ltac:(lia)) as [Hbm Hcm]. now apply He. }
    rewrite Hr'. unfold tx, ty. f_equal. f_equal; lia. }
  assert (Hbt : on_board ty tx).
  { destruct (decide (m = 1)) as [->|Hne].
    - unfold tx, ty. replace (y + (1 + 1) * dir_dy d) with (y + dir_dy d * 2) by lia.
      now replace (x + (1 + 1) * dir_dx d) with (x + dir_dx d * 2) by lia.
    - destruct (Hk (m - 1) ltac:(lia)) as [Hbm _]. unfold tx, ty.
      replace (y + (m + 1) * dir_dy d) with (y + dir_dy d * 2 + (m - 1) * dir_dy d) by lia.
      now replace (x + (m + 1) * dir_dx d) with (x + dir_dx d * 2 + (m - 1) * dir_dx d) by lia. }
  assert (Hfound : found d s x y car tx ty).
  { split; auto.
    - exists (m + 1). split; [lia|]. split; [reflexivity|]. split; [reflexivity|].
      intros k Hk1.
      destruct (decide (k = 1)) as [->|Hn1].
      { rewrite <- Hc1. unfold c. f_equal; lia. }
      destruct (decide (k = 2)) as [->|Hn2].
      { unfold car. f_equal; lia. }
      destruct (Hk (k - 2) ltac:(lia)) as [_ Hck]. rewrite <- Hck. f_equal; lia.
    - unfold tx, ty.
      replace (y + (m + 1) * dir_dy d + dir_dy d) with (y + dir_dy d * 2 + m * dir_dy d) by lia.
      replace (x + (m + 1) * dir_dx d + dir_dx d) with (x + dir_dx d * 2 + m * dir_dx d) by lia.
      exact He. }
  exists car, tx, ty. split; [exact Hfound|]. intros w.
  rewrite Hstart. rewrite (bind_Ret _ _ _ _ _ (Hrun w)). cbn [fst snd]. cbv zeta.
  replace (tx + dir_dx d - dir_dx d) with tx by lia.
  replace (ty + dir_dy d - dir_dy d) with ty by lia.
  rewrite (SetCell_on_board _ _ _ _ Hb), bind_checked_Some.
  rewrite (SetCell_on_board _ _ _ _ Hbt), bind_checked_Some.
  fold (slide s y x car ty tx).
  unfold after_scan, at_exit.
  destruct (_ && _ && _) eqn:Hexit.
  - destruct (Ascii.eqb car GOAL_CAR) eqn:Hgoal.
    + rewrite bind_assoc. apply bind_ext. intros _ w'.
      apply PrintSolutionAndQuit_no_return.
    + assert (d = ScanLeft) as -> by (destruct d; cbn in Hexit; try discriminate; auto).
      assert (Hy : 0 <= y < BOARD_SIZE) by apply Hb.
      assert (Hx : x < BOARD_SIZE) by apply Hb.
      assert (Hlo : 0 <= tx + 1) by (unfold on_board in Hbt; lia).
      rewrite bind_assoc.
      rewrite (bind_Ret _ _ _ _ _ (set_span_spec y (tx + 1) x SPACE _ w Hy Hlo Hx)).
      rewrite bind_assoc. apply bind_ext. intros _ w'.
      rewrite (bind_Ret _ _ _ _ _ (set_span_spec y (tx + 1) x car _ w' Hy Hlo Hx)).
      rewrite SetCell_on_board, bind_checked_Some by auto.
      rewrite SetCell_on_board by auto. cbn [checked].
      now rewrite vacate_undo.
  - rewrite bind_assoc. apply bind_ext. intros _ w'.
    rewrite bind_ret.
    rewrite SetCell_on_board, bind_checked_Some by auto.
    rewrite SetCell_on_board by auto. cbn [checked].
    now rewrite (slide_undo d).
Qed.

(** The scan finds at most one car, and one far end. *)
Lemma found_unique d s x y car tx ty car' tx' ty' :
  on_board y x ->
  found d s x y car tx ty -> found d s x y car' tx' ty' ->
  car' = car /\ tx' = tx /\ ty' = ty.
Proof.
  intros Hb [_ (n & Hn & -> & -> & Hcells) Hbt Hend]
            [_ (n' & Hn' & -> & -> & Hcells') Hbt' Hend'].
  assert (Hline : forall n k, 0 <= k <= n ->
            on_board (y + n * dir_dy d) (x + n * dir_dx d) ->
            on_board (y + k * dir_dy d) (x + k * dir_dx d)).
  { intros m k Hk. unfold on_board in *. destruct d; cbn; lia. }
  assert (car' = car) as ->.
  { rewrite <- (Hcells 1), <- (Hcells' 1) by lia. reflexivity. }
  split; [reflexivity|].
  assert (n' = n) as ->; [|auto].
  destruct (Z.lt_trichotomy n' n) as [Hlt|[Heq|Hgt]]; auto; exfalso.
  - apply Hend'.
    + replace (y + n' * dir_dy d + dir_dy d) with (y + (n' + 1) * dir_dy d) by lia.
      replace (x + n' * dir_dx d + dir_dx d) with (x + (n' + 1) * dir_dx d) by lia.
      apply (Hline n); [lia|assumption].
    + rewrite <- (Hcells (n' + 1)) by lia. f_equal; lia.
  - apply Hend.
    + replace (y + n * dir_dy d + dir_dy d) with (y + (n + 1) * dir_dy d) by lia.
      replace (x + n * dir_dx d + dir_dx d) with (x + (n + 1) * dir_dx d) by lia.
      apply (Hline n'); [lia|assumption].
    + rewrite <- (Hcells' (n + 1)) by lia. f_equal; lia.
Qed.

(** When the scan finds a car, [CheckMove] does what [after_scan]
    says. *)
Lemma CheckMove_found d s x y idx_state car tx ty w :
  board_wf s -> on_board y x -> cell_at s y x = SPACE ->
  found d s x y car tx ty ->
  CheckMove (dir_dx d) (dir_dy d) s x y idx_state w
  = after_scan d s x y idx_state car tx ty w.
Proof.
  intros Hwf Hb Hsp Hf.
  destruct (CheckMove_cases d s x y idx_state Hwf Hb Hsp)
    as [[Hno _]|(car' & tx' & ty' & Hf' & Heq)].
  - now apply Hno in Hf.
  - destruct (found_unique _ _ _ _ _ _ _ _ _ _ Hb Hf Hf') as (-> & -> & ->).
    apply Heq.
Qed.

(** A car the scan has found lies on the line of the scan, away from
    the cell it started from. *)
Lemma found_far_end d s x y car tx ty :
  on_board y x -> cell_at s y x = SPACE -> found d s x y car tx ty ->
  (ty, tx) <> (y, x) /\ cell_at s ty tx = car.
Proof.
  intros Hb Hsp [Hcar (n & Hn & -> & -> & Hcells) Hbt Hend]. split.
  - intros [= H1 H2]. destruct d; cbn in *; lia.
  - apply Hcells. lia.
Qed.

(** ** C7: the slide changes two cells *)

(** C7: when the scan from the empty cell [(y, x)] finds a car, of any
    length, and the move is an ordinary one (not the one into the last
    column of the exit row), the board [CheckMove] hands to
    [CheckAddState] differs from the board it was given in exactly two
    cells: [(y, x)], which held the space and now holds the car, and
    the far end [(ty, tx)], which held the car and now holds the
    space.  Every other cell, the rest of the car included, is as it
    was. *)
Theorem slide_changes_two_cells d s x y idx_state car tx ty :
  board_wf s -> on_board y x -> cell_at s y x = SPACE ->
  found d s x y car tx ty ->
  at_exit d x y = false ->
  let s' := slide s y x car ty tx in
  (forall w, CheckMove (dir_dx d) (dir_dy d) s x y idx_state w
             = (CheckAddState s' idx_state ;;; ret s) w) /\
  on_board ty tx /\ (ty, tx) <> (y, x) /\
  cell_at s' y x = car /\ cell_at s y x <> car /\
  cell_at s' ty tx = SPACE /\ cell_at s ty tx <> SPACE /\
  (forall y' x', on_board y' x' -> (y', x') <> (y, x) -> (y', x') <> (ty, tx) ->
     cell_at s' y' x' = cell_at s y' x') /\
  (forall k, 1 <= k -> on_board (y + k * dir_dy d) (x + k * dir_dx d) ->
     (y + k * dir_dy d, x + k * dir_dx d) <> (ty, tx) ->
     cell_at s (y + k * dir_dy d) (x + k * dir_dx d) = car ->
     cell_at s' (y + k * dir_dy d) (x + k * dir_dx d) = car).
Proof.
  intros Hwf Hb Hsp Hf Hexit s'.
  destruct (found_far_end _ _ _ _ _ _ _ Hb Hsp Hf) as [Hne Hend].
  pose proof (found_on_board _ _ _ _ _ _ _ Hf) as Hbt.
  pose proof (found_car _ _ _ _ _ _ _ Hf) as Hcar.
  assert (Hframe : forall y' x', on_board y' x' ->
            (y', x') <> (y, x) -> (y', x') <> (ty, tx) ->
            cell_at s' y' x' = cell_at s y' x').
  { intros y' x' Hb' H1 H2. unfold s'. rewrite cell_at_slide by auto.
    repeat case_decide; congruence. }
  split.
  { intros w. rewrite (CheckMove_found d s x y idx_state car tx ty) by auto.
    unfold after_scan. now rewrite Hexit. }
  split; [exact Hbt|]. split; [exact Hne|].
  split.
  { unfold s'. rewrite cell_at_slide by auto. repeat case_decide; congruence. }
  split; [congruence|].
  split.
  { unfold s'. rewrite cell_at_slide by auto. repeat case_decide; congruence. }
  split; [congruence|].
  split; [exact Hframe|].
  intros k Hk Hbk Hnk Hck. rewrite Hframe; auto.
  intros [= H1 H2]. destruct d; cbn in *; lia.
Qed.

Lemma found_in_board_155 : found ScanDown board_155 0 3 "G" 0 5.
Proof.
  split.
  - discriminate.
  - exists 2. repeat split; try lia. intros k Hk.
    assert (k = 1 \/ k = 2) as [-> | ->] by lia; reflexivity.
  - unfold on_board, BOARD_SIZE. lia.
  - unfold on_board, BOARD_SIZE. cbn. lia.
Qed.

Lemma slide_changes_two_cells_witness :
  let s' := slide board_155 3 0 "G" 5 0 in
  (forall w, CheckMove 0 1 board_155 0 3 0 w
             = (CheckAddState s' 0 ;;; ret board_155) w) /\
  on_board 5 0 /\ (5, 0) <> (3, 0) /\
  cell_at s' 3 0 = "G"%char /\ cell_at board_155 3 0 <> "G"%char /\
  cell_at s' 5 0 = SPACE /\ cell_at board_155 5 0 <> SPACE /\
  (forall y' x', on_board y' x' -> (y', x') <> (3, 0) -> (y', x') <> (5, 0) ->
     cell_at s' y' x' = cell_at board_155 y' x') /\
  (forall k, 1 <= k -> on_board (3 + k * 1) (0 + k * 0) ->
     (3 + k * 1, 0 + k * 0) <> (5, 0) ->
     cell_at board_155 (3 + k * 1) (0 + k * 0) = "G"%char ->
     cell_at s' (3 + k * 1) (0 + k * 0) = "G"%char).
Proof.
  apply (slide_changes_two_cells ScanDown board_155 0 3 0 "G" 0 5).
  - reflexivity.
  - unfold on_board, BOARD_SIZE. lia.
  - reflexivity.
  - exact found_in_board_155.
  - reflexivity.
Defined.

(** ** C2: a car that is not the goal car, at the exit *)

(** C2, as stated, fails: from [board_exit_lane], the move of [B] into
    the last column of the exit row registers the board without [B]
    and nothing else; the board with [B] moved one cell is new and is
    not registered. *)
Lemma exit_lane_slid_board_not_offered :
  let r := (CheckAddState board_exit_lane (-1) ;;;
            CheckMove (-1) 0 board_exit_lane 5 2 0) initial_world in
  r = Ret board_exit_lane (final_world r) /\
  state_list (final_world r)
  = [(board_exit_lane, -1); (board_exit_lane_vacated, 0)] /\
  (board_exit_lane_slid ∉ states_in_list (final_world r)) /\
  slide board_exit_lane 2 5 "B" 2 3 = board_exit_lane_slid.
Proof.
  cbv zeta. split; [vm_compute; reflexivity|].
  split; [vm_compute; reflexivity|]. split; [|vm_compute; reflexivity].
  refine (bool_decide_eq_false_1 (_ ∈ _) _). vm_compute. reflexivity.
Qed.

(** C2 (amended): when a car that is not the goal car can leave the
    board, that is, it lies in the exit row and its move to the right
    is into the empty last cell of that row (the scan to the left from
    that cell finds it), [CheckMove] hands one board to
    [CheckAddState]: the board with all the cells of that car set to
    the space.  The board with the car moved one cell is a different
    board and is not handed over.  [CheckMove] then returns the board
    it was given. *)
Theorem exit_lane_vacates s idx_state car tx ty :
  let x := BOARD_SIZE - 1 in
  let y := BOARD_EXIT_Y in
  board_wf s -> cell_at s y x = SPACE ->
  found ScanLeft s x y car tx ty ->
  car <> GOAL_CAR ->
  let vacated := span y (tx + 1) x SPACE (slide s y x car ty tx) in
  (forall w, CheckMove (-1) 0 s x y idx_state w
             = (CheckAddState vacated idx_state ;;; ret s) w) /\
  ty = y /\
  (forall xx, tx <= xx < x -> cell_at s y xx = car) /\
  (forall y' x', on_board y' x' ->
     cell_at vacated y' x'
     = if decide (y' = y /\ tx <= x') then SPACE else cell_at s y' x') /\
  vacated <> slide s y x car ty tx.
Proof.
  intros x y Hwf Hsp Hf Hcar vacated.
  assert (Hb : on_board y x) by (unfold on_board, x, y, BOARD_SIZE, BOARD_EXIT_Y; lia).
  pose proof (found_on_board _ _ _ _ _ _ _ Hf) as Hbt.
  pose proof Hf as [Hsp' (n & Hn & Htx & Hty & Hcells) _ Hend].
  cbn [dir_dx dir_dy] in *. rewrite Z.mul_0_r, Z.add_0_r in Hty.
  assert (Hcell : forall y' x', on_board y' x' ->
     cell_at vacated y' x'
     = if decide (y' = y /\ tx <= x') then SPACE else cell_at s y' x').
  { intros y' x' Hb'. unfold vacated.
    rewrite cell_at_span, cell_at_slide; auto using board_wf_slide.
    - unfold on_board in Hb'.
      repeat case_decide; try reflexivity; exfalso;
        split_pairs; subst x; intuition lia.
    - apply Hb.
    - unfold on_board in Hbt. lia.
    - unfold x. lia. }
  split.
  { intros w. rewrite (CheckMove_found ScanLeft s x y idx_state car tx ty) by auto.
    unfold after_scan. replace (at_exit ScanLeft x y) with true by reflexivity.
    apply Ascii.eqb_neq in Hcar. now rewrite Hcar. }
  split; [exact Hty|].
  split.
  { intros xx Hxx. rewrite <- (Hcells (x - xx)) by lia.
    rewrite Z.mul_0_r, Z.add_0_r. f_equal. lia. }
  split; [exact Hcell|].
  intros Heq.
  assert (Hx : cell_at vacated y x = cell_at (slide s y x car ty tx) y x)
    by now rewrite Heq.
  rewrite Hcell, cell_at_slide in Hx by auto.
  unfold on_board in Hbt.
  repeat case_decide; try congruence; split_pairs; subst x; intuition lia.
Qed.

Lemma found_in_board_exit_lane : found ScanLeft board_exit_lane 5 2 "B" 3 2.
Proof.
  split.
  - discriminate.
  - exists 2. repeat split; try lia. intros k Hk.
    assert (k = 1 \/ k = 2) as [-> | ->] by lia; reflexivity.
  - unfold on_board, BOARD_SIZE. lia.
  - intros _. discriminate.
Qed.

Lemma exit_lane_vacates_witness :
  let vacated := span 2 (3 + 1) 5 SPACE (slide board_exit_lane 2 5 "B" 2 3) in
  (forall w, CheckMove (-1) 0 board_exit_lane 5 2 0 w
             = (CheckAddState vacated 0 ;;; ret board_exit_lane) w) /\
  2 = 2 /\
  (forall xx, 3 <= xx < 5 -> cell_at board_exit_lane 2 xx = "B"%char) /\
  (forall y' x', on_board y' x' ->
     cell_at vacated y' x'
     = if decide (y' = 2 /\ 3 <= x') then SPACE else cell_at board_exit_lane y' x') /\
  vacated <> slide board_exit_lane 2 5 "B" 2 3.
Proof.
  apply (exit_lane_vacates board_exit_lane 0 "B" 3 2).
  - reflexivity.
  - reflexivity.
  - exact found_in_board_exit_lane.
  - discriminate.
Defined.

(** ** How the calls end *)

(** [CheckAddState] returns, unless its assertion fails. *)
Lemma CheckAddState_result state from w :
  match CheckAddState state from w with
  | Ret _ w' =>
      state ∈ states_in_list w' /\ stdout w' = stdout w /\
      (state ∈ states_in_list w -> w' = w) /\
      (state ∉ states_in_list w ->
         state_list w' = state_list w ++ [(state, from)] /\
         states_in_list w' = {[ state ]} ∪ states_in_list w)
  | Exit _ _ => False
  | Abort f => f = AssertSizes
  | Stuck => False
  end.
Proof.
  unfold CheckAddState.
  destruct (decide (state ∈ states_in_list w)) as [Hin|Hnin].
  - split; [assumption|]. split; [reflexivity|].
    split; [reflexivity|intros; contradiction].
  - cbn zeta. destruct (decide _); [|reflexivity].
    cbn. split; [apply elem_of_union_l, elem_of_singleton; reflexivity|].
    split; [reflexivity|]. split; [intros; contradiction|auto].
Qed.

(** [PrintSolutionRecursive] only writes to [stdout], and fails only
    on an index that is not in [state_list]. *)
Lemma PrintSolutionRecursive_result fuel : forall i next w,
  match PrintSolutionRecursive fuel i next w with
  | Ret _ w' =>
      state_list w' = state_list w /\ states_in_list w' = states_in_list w
  | Exit _ _ => False
  | Abort f => f = VectorRange
  | Stuck => True
  end.
Proof.
  induction fuel as [|fuel IH]; intros i next w; cbn [PrintSolutionRecursive].
  - exact I.
  - destruct (i <? 0); [cbn; auto|].
    unfold bind at 1. unfold state_at, get_state_list, bind at 1.
    destruct (_ && _); [|reflexivity].
    destruct (state_list w !! Z.to_nat i) as [e|]; [|reflexivity].
    cbn [checked ret]. unfold bind at 1.
    specialize (IH e.2 (Some e.1) w).
    destruct (PrintSolutionRecursive fuel e.2 (Some e.1) w); auto.
Qed.

(** [PrintSolutionAndQuit] does not return; it leaves with status 0
    and the globals as they were. *)
Lemma PrintSolutionAndQuit_result {A} w :
  match @PrintSolutionAndQuit A w with
  | Ret _ _ => False
  | Exit status w' =>
      status = 0 /\
      state_list w' = state_list w /\ states_in_list w' = states_in_list w
  | Abort f => f = VectorRange
  | Stuck => True
  end.
Proof.
  unfold PrintSolutionAndQuit, get_state_list, bind, exit.
  pose proof (PrintSolutionRecursive_result (S (length (state_list w)))
                (Z.of_nat (length (state_list w)) - 1) None w) as H.
  destruct (PrintSolutionRecursive _ _ _ _); auto. contradiction.
Qed.

(** ** C9: the accesses of [CheckMove] are on the board *)

(** C9: for every 6x6 board and every empty cell [(y, x)] of it,
    [CheckMove] in each of the four directions never fails the
    assertion of [Cell] or of [SetCell], and the loop that looks for
    the far end of the car ends within the bound of the model, in
    every state of the globals. *)
Theorem CheckMove_accesses_in_bounds d s x y idx_state w :
  board_wf s -> on_board y x -> cell_at s y x = SPACE ->
  CheckMove (dir_dx d) (dir_dy d) s x y idx_state w <> Abort AssertCell /\
  CheckMove (dir_dx d) (dir_dy d) s x y idx_state w <> Abort AssertSetCell /\
  (CheckMove (dir_dx d) (dir_dy d) s x y idx_state w = Ret s w \/
   exists car tx ty,
     found d s x y car tx ty /\
     CheckMove (dir_dx d) (dir_dy d) s x y idx_state w
     = after_scan d s x y idx_state car tx ty w).
Proof.
  intros Hwf Hb Hsp.
  destruct (CheckMove_cases d s x y idx_state Hwf Hb Hsp)
    as [[_ Hret]|(car & tx & ty & Hf & Heq)].
  - rewrite Hret. repeat split; try discriminate. now left.
  - assert (Hres : forall f, after_scan d s x y idx_state car tx ty w = Abort f ->
                     f = AssertSizes \/ f = VectorRange).
    { intros f. unfold after_scan.
      destruct (at_exit d x y); [destruct (Ascii.eqb car GOAL_CAR)|].
      - unfold bind.
        pose proof (CheckAddState_result (slide s y x car ty tx) idx_state w) as H1.
        destruct (CheckAddState _ _ w) as [[] w'|? ?|f'|]; try contradiction.
        + pose proof (@PrintSolutionAndQuit_result Board w') as H2.
          destruct PrintSolutionAndQuit; try contradiction; try discriminate.
          intros [= <-]. now right.
        + intros [= <-]. now left.
      - unfold bind.
        pose proof (CheckAddState_result
                      (span y (tx + 1) x SPACE (slide s y x car ty tx)) idx_state w) as H1.
        destruct (CheckAddState _ _ w) as [[] w'|? ?|f'|]; try contradiction;
          try discriminate.
        intros [= <-]. now left.
      - unfold bind.
        pose proof (CheckAddState_result (slide s y x car ty tx) idx_state w) as H1.
        destruct (CheckAddState _ _ w) as [[] w'|? ?|f'|]; try contradiction;
          try discriminate.
        intros [= <-]. now left. }
    rewrite Heq. split; [|split].
    + intros H. apply Hres in H as [H|H]; discriminate.
    + intros H. apply Hres in H as [H|H]; discriminate.
    + right. now exists car, tx, ty.
Qed.

Lemma CheckMove_accesses_in_bounds_witness :
  CheckMove 0 1 board_155 0 3 0 initial_world <> Abort AssertCell /\
  CheckMove 0 1 board_155 0 3 0 initial_world <> Abort AssertSetCell /\
  (CheckMove 0 1 board_155 0 3 0 initial_world = Ret board_155 initial_world \/
   exists car tx ty,
     found ScanDown board_155 0 3 car tx ty /\
     CheckMove 0 1 board_155 0 3 0 initial_world
     = after_scan ScanDown board_155 0 3 0 car tx ty initial_world).
Proof.
  apply (CheckMove_accesses_in_bounds ScanDown board_155 0 3 0 initial_world).
  - reflexivity.
  - unfold on_board, BOARD_SIZE. lia.
  - reflexivity.
Defined.

(** ** C8: the path that is printed *)

Lemma write_add_output o w : write o w = Ret tt (add_output w [o]).
Proof. reflexivity. Qed.

Lemma add_output_app w out1 out2 :
  add_output (add_output w out1) out2 = add_output w (out1 ++ out2).
Proof. unfold add_output. cbn. now rewrite app_assoc. Qed.

Lemma add_output_nil w : add_output w [] = w.
Proof. destruct w. unfold add_output. cbn. now rewrite app_nil_r. Qed.

Lemma emit_snoc boards : forall n cur next,
  emit n (boards ++ [cur]) next
  = emit n boards (Some cur)
    ++ [SolutionStep (n + Z.of_nat (length boards)); Print "  " cur next; Text newline].
Proof.
  induction boards as [|b rest IH]; intros n cur next.
  - cbn. now rewrite Z.add_0_r.
  - cbn [app emit length]. rewrite IH.
    replace (n + 1 + Z.of_nat (length rest)) with (n + Z.of_nat (S (length rest))) by lia.
    destruct rest; reflexivity.
Qed.

(** With the parents before their children, the walk does not depend
    on the fuel, once there is enough of it. *)
Lemma walk_back_fuel l : parents_ok l -> forall f1 f2 i,
  i < Z.of_nat f1 -> i < Z.of_nat f2 -> walk_back f1 l i = walk_back f2 l i.
Proof.
  intros Hp. induction f1 as [|f1 IH]; intros f2 i H1 H2.
  - destruct f2; cbn; [reflexivity|].
    destruct (Z.ltb_spec i 0); [reflexivity|lia].
  - destruct f2 as [|f2]; cbn.
    + destruct (Z.ltb_spec i 0); [reflexivity|lia].
    + destruct (Z.ltb_spec i 0); [reflexivity|].
      destruct (l !! Z.to_nat i) as [e|] eqn:He; [|reflexivity].
      f_equal. apply Hp in He. apply IH; lia.
Qed.

Lemma chain_step l i e :
  parents_ok l -> 0 <= i -> l !! Z.to_nat i = Some e ->
  chain l i = chain l e.2 ++ [i].
Proof.
  intros Hp Hi He. unfold chain.
  replace (walk_back (S (Z.to_nat i)) l i) with (i :: walk_back (Z.to_nat i) l e.2).
  2:{ cbn [walk_back]. destruct (Z.ltb_spec i 0); [lia|]. now rewrite He. }
  cbn [rev]. f_equal. f_equal.
  pose proof (Hp _ _ He). apply walk_back_fuel; auto; lia.
Qed.

Lemma chain_root l i : i < 0 -> chain l i = [].
Proof.
  intros Hi. unfold chain. cbn. now destruct (Z.ltb_spec i 0); [|lia].
Qed.

(** [PrintSolutionRecursive] writes the chain of [i], and returns its
    length. *)
Lemma PrintSolutionRecursive_spec l : parents_ok l -> forall fuel i next w,
  state_list w = l ->
  -1 <= i < Z.of_nat (length l) -> i + 1 < Z.of_nat fuel ->
  PrintSolutionRecursive fuel i next w
  = Ret (Z.of_nat (length (chain l i)))
        (add_output w (emit 1 (map (board_at l) (chain l i)) next)).
Proof.
  intros Hp. induction fuel as [|fuel IH]; intros i next w Hl Hi Hf.
  - lia.
  - cbn [PrintSolutionRecursive].
    destruct (Z.ltb_spec i 0) as [Hneg|Hpos].
    { rewrite chain_root by auto. cbn. now rewrite add_output_nil. }
    destruct (lookup_lt_is_Some_2 l (Z.to_nat i) ltac:(lia)) as [e He].
    assert (Hst : state_at i w = Ret e w).
    { unfold state_at, get_state_list, bind. rewrite Hl.
      replace ((0 <=? i) && (i <? Z.of_nat (length l))) with true by (symmetry; lia).
      now rewrite He. }
    rewrite (bind_Ret _ _ _ _ _ Hst).
    pose proof (Hp _ _ He) as Hfrom.
    rewrite (bind_Ret _ _ _ _ _ (IH e.2 (Some e.1) w Hl ltac:(lia) ltac:(lia))).
    rewrite (chain_step l i e) by auto.
    unfold bind. rewrite !write_add_output. cbn [ret].
    rewrite !add_output_app. f_equal.
    + rewrite length_app. cbn. lia.
    + f_equal. rewrite map_app. cbn [map]. rewrite emit_snoc.
      rewrite length_map.
      assert (board_at l i = e.1) as -> by (unfold board_at; now rewrite He).
      cbn [app]. do 3 f_equal. lia.
Qed.

Lemma origin_lookup l i e :
  0 <= i -> l !! Z.to_nat i = Some e -> origin l i = e.2.
Proof. intros _ He. unfold origin. now rewrite He. Qed.

(** The chain of an entry starts at the root, ends at the entry, and
    each of its indices is where the next one comes from. *)
Lemma chain_links l : parents_ok l -> forall n i,
  (Z.to_nat i <= n)%nat -> 0 <= i < Z.of_nat (length l) ->
  (exists r rest, chain l i = r :: rest /\ origin l r = -1) /\
  last (chain l i) = Some i /\
  (forall k a b, chain l i !! k = Some a -> chain l i !! S k = Some b ->
     origin l b = a) /\
  Forall (fun j => 0 <= j <= i) (chain l i).
Proof.
  intros Hp. induction n as [|n IH]; intros i Hn Hi.
  - assert (i = 0) as -> by lia.
    destruct (lookup_lt_is_Some_2 l (Z.to_nat 0) ltac:(lia)) as [e He].
    pose proof (Hp _ _ He) as Hfrom.
    rewrite (chain_step l 0 e), chain_root by (auto; lia). cbn [app].
    split; [exists 0, []; split; [reflexivity|]|].
    { rewrite (origin_lookup l 0 e) by (auto; lia). lia. }
    split; [reflexivity|]. split; [intros [|k] a b Ha Hb; discriminate|].
    repeat constructor; lia.
  - destruct (lookup_lt_is_Some_2 l (Z.to_nat i) ltac:(lia)) as [e He].
    pose proof (Hp _ _ He) as Hfrom.
    rewrite (chain_step l i e) by (auto; lia).
    destruct (decide (e.2 = -1)) as [Hroot|Hnroot].
    + rewrite Hroot, chain_root by lia. cbn [app].
      split; [exists i, []; split; [reflexivity|]|].
      { now rewrite (origin_lookup l i e) by (auto; lia). }
      split; [reflexivity|]. split; [intros [|k] a b Ha Hb; discriminate|].
      repeat constructor; lia.
    + destruct (IH e.2 ltac:(lia) ltac:(lia)) as ((r & rest & Hc & Hr) & Hlast & Hlinks & Hall).
      split; [|split; [|split]].
      * exists r, (rest ++ [i]). split; [now rewrite Hc|exact Hr].
      * apply last_snoc.
      * intros k a b Ha Hb.
        destruct (decide (S k < length (chain l e.2))%nat) as [Hk|Hk].
        -- rewrite lookup_app_l in Ha, Hb by lia. eauto.
        -- assert (b = i) as ->.
           { apply lookup_lt_Some in Hb as Hlt. rewrite length_app in Hlt. cbn [length] in Hlt.
             rewrite lookup_app_r in Hb by lia.
             replace (S k - length (chain l e.2))%nat with 0%nat in Hb by lia.
             now injection Hb. }
           rewrite (origin_lookup l i e) by (auto; lia).
           apply lookup_lt_Some in Hb as Hlt. rewrite length_app in Hlt. cbn [length] in Hlt.
           rewrite lookup_app_l in Ha by lia.
           rewrite last_lookup in Hlast.
           replace (Init.Nat.pred (length (chain l e.2))) with k in Hlast by lia.
           congruence.
      * apply Forall_app. split.
        -- eapply Forall_impl; [exact Hall|]. cbn. intros; lia.
        -- repeat constructor; lia.
Qed.

(** [PrintSolutionAndQuit] writes the chain of the last entry, which
    starts with step 1, and leaves with status 0. *)
Lemma PrintSolutionAndQuit_spec {A} w :
  parents_ok (state_list w) -> state_list w <> [] ->
  let i := Z.of_nat (length (state_list w)) - 1 in
  @PrintSolutionAndQuit A w
  = Exit 0 (add_output w (solution_output (state_list w))) /\
  last (chain (state_list w) i) = Some i /\
  exists r rest,
    chain (state_list w) i = r :: rest /\
    solution_output (state_list w)
    = [SolutionStep 1;
       Print "  " (board_at (state_list w) r)
         (match rest with
          | b :: _ => Some (board_at (state_list w) b)
          | [] => None
          end);
       Text newline] ++ emit 2 (map (board_at (state_list w)) rest) None.
Proof.
  intros Hp Hne i.
  assert (Hi : 0 <= i < Z.of_nat (length (state_list w))).
  { subst i. destruct (state_list w); [contradiction|cbn [length]; lia]. }
  destruct (chain_links _ Hp (Z.to_nat i) i ltac:(lia) Hi)
    as ((r & rest & Hc & Hr) & Hlast & _ & _).
  split; [|split; [exact Hlast|]].
  - unfold PrintSolutionAndQuit, get_state_list, bind. fold i.
    rewrite (PrintSolutionRecursive_spec _ Hp _ i None w eq_refl) by lia.
    reflexivity.
  - exists r, rest. split; [exact Hc|]. unfold solution_output. fold i.
    rewrite Hc. cbn [map emit]. destruct rest; reflexivity.
Qed.

(** C8: given an index [i] of [state_list], [PrintSolutionRecursive]
    follows the indices of the previous states back to the root (the
    entry that comes from [-1]) and writes the boards of that chain
    from the root to [i], each one with the board after it in the
    chain (the last one with [next]), numbered from 1: step 1 is the
    root board drawn with the first move away from it.  It returns the
    number of boards.  [PrintSolutionAndQuit] does this for the last
    entry and leaves with status 0. *)
Theorem PrintSolutionRecursive_prints_chain w i next :
  parents_ok (state_list w) ->
  0 <= i < Z.of_nat (length (state_list w)) ->
  let l := state_list w in
  let c := chain l i in
  (forall fuel, i + 1 < Z.of_nat fuel ->
     PrintSolutionRecursive fuel i next w
     = Ret (Z.of_nat (length c))
           (add_output w (emit 1 (map (board_at l) c) next))) /\
  (exists r rest,
     c = r :: rest /\ origin l r = -1 /\
     emit 1 (map (board_at l) c) next
     = [SolutionStep 1;
        Print "  " (board_at l r)
          (match rest with b :: _ => Some (board_at l b) | [] => next end);
        Text newline] ++ emit 2 (map (board_at l) rest) next) /\
  last c = Some i /\
  (forall k a b, c !! k = Some a -> c !! S k = Some b -> origin l b = a) /\
  (i = Z.of_nat (length l) - 1 ->
   forall A, @PrintSolutionAndQuit A w
             = Exit 0 (add_output w (emit 1 (map (board_at l) c) None))).
Proof.
  intros Hp Hi l c. subst l c.
  destruct (chain_links _ Hp (Z.to_nat i) i ltac:(lia) Hi)
    as ((r & rest & Hc & Hr) & Hlast & Hlinks & _).
  split; [|split; [|split; [|split]]]; auto.
  - intros fuel Hf. apply PrintSolutionRecursive_spec; auto. lia.
  - exists r, rest. split; [exact Hc|]. split; [exact Hr|].
    rewrite Hc. cbn [map emit]. destruct rest; reflexivity.
  - intros Heq A. unfold PrintSolutionAndQuit, get_state_list, bind.
    rewrite <- Heq.
    rewrite (PrintSolutionRecursive_spec _ Hp _ _ None w eq_refl) by lia.
    reflexivity.
Qed.

Lemma world_chain_parents_ok : parents_ok (state_list world_chain).
Proof.
  intros j e He. destruct j as [|[|[|j]]]; cbn in He; try discriminate;
    injection He as <-; cbn; lia.
Qed.

Lemma PrintSolutionRecursive_prints_chain_witness :
  let l := state_list world_chain in
  let c := chain l 2 in
  (forall fuel, 2 + 1 < Z.of_nat fuel ->
     PrintSolutionRecursive fuel 2 None world_chain
     = Ret (Z.of_nat (length c))
           (add_output world_chain (emit 1 (map (board_at l) c) None))) /\
  (exists r rest,
     c = r :: rest /\ origin l r = -1 /\
     emit 1 (map (board_at l) c) None
     = [SolutionStep 1;
        Print "  " (board_at l r)
          (match rest with b :: _ => Some (board_at l b) | [] => None end);
        Text newline] ++ emit 2 (map (board_at l) rest) None) /\
  last c = Some 2 /\
  (forall k a b, c !! k = Some a -> c !! S k = Some b -> origin l b = a) /\
  (2 = Z.of_nat (length l) - 1 ->
   forall A, @PrintSolutionAndQuit A world_chain
             = Exit 0 (add_output world_chain (emit 1 (map (board_at l) c) None))).
Proof.
  apply (PrintSolutionRecursive_prints_chain world_chain 2 None).
  - exact world_chain_parents_ok.
  - cbn. lia.
Defined.

(** On [world_chain], the chain of the last entry and what is
    written for it. *)
Example chain_of_world_chain :
  chain (state_list world_chain) 2 = [0; 1; 2] /\
  emit 1 (map (board_at (state_list world_chain)) [0; 1; 2]) None
  = [SolutionStep 1;
     Print "  " board_exit_lane (Some board_exit_lane_vacated); Text newline;
     SolutionStep 2;
     Print "  " board_exit_lane_vacated (Some board_exit_lane_next); Text newline;
     SolutionStep 3;
     Print "  " board_exit_lane_next None; Text newline].
Proof. split; reflexivity. Qed.

(** ** C10: where the search detects the win *)

(** C10: [CheckMove] leaves the process only from the instance that
    scans to the left (the car moves to the right), at the last cell
    of the exit row, and when the car it has found is the goal car.
    The board it has handed to [CheckAddState] before is then in
    [states_in_list], and is the last entry of [state_list] when it
    was new; on it the goal car lies on cells of the board that end
    at the last column, at least two of them, and no other cell has
    changed but the one the car has left: the goal car is not erased. *)
Theorem win_only_at_exit d s x y idx_state w status w' :
  board_wf s -> on_board y x -> cell_at s y x = SPACE ->
  CheckMove (dir_dx d) (dir_dy d) s x y idx_state w = Exit status w' ->
  d = ScanLeft /\ x = BOARD_SIZE - 1 /\ y = BOARD_EXIT_Y /\ status = 0 /\
  exists tx,
    found ScanLeft s x y GOAL_CAR tx y /\
    let b := slide s y x GOAL_CAR y tx in
    b ∈ states_in_list w' /\
    (b ∉ states_in_list w -> state_list w' = state_list w ++ [(b, idx_state)]) /\
    0 <= tx /\ tx + 2 <= x /\
    (forall xx, tx < xx <= x -> cell_at b y xx = GOAL_CAR) /\
    cell_at b y tx = SPACE /\
    (forall y' x', on_board y' x' -> (y', x') <> (y, x) -> (y', x') <> (y, tx) ->
       cell_at b y' x' = cell_at s y' x').
Proof.
  intros Hwf Hb Hsp Hrun.
  destruct (CheckMove_cases d s x y idx_state Hwf Hb Hsp)
    as [[_ Hret]|(car & tx & ty & Hf & Heq)].
  { rewrite Hret in Hrun. discriminate. }
  rewrite Heq in Hrun. unfold after_scan in Hrun.
  assert (Hnoexit : forall b, (CheckAddState b idx_state ;;; ret s) w <> Exit status w').
  { intros b. unfold bind.
    pose proof (CheckAddState_result b idx_state w) as H.
    destruct (CheckAddState b idx_state w); try contradiction; discriminate. }
  destruct (at_exit d x y) eqn:Hexit; [|now apply Hnoexit in Hrun].
  destruct (Ascii.eqb car GOAL_CAR) eqn:Hgoal; [|now apply Hnoexit in Hrun].
  apply Ascii.eqb_eq in Hgoal. subst car.
  unfold at_exit in Hexit.
  assert (d = ScanLeft) as -> by (destruct d; cbn in Hexit; try discriminate; auto).
  assert (x = BOARD_SIZE - 1 /\ y = BOARD_EXIT_Y) as [Hx Hy] by (cbn in Hexit; lia).
  pose proof Hf as [_ (n & Hn & Htx & Hty & Hcells) Hbt _].
  cbn [dir_dx dir_dy] in *. rewrite Z.mul_0_r, Z.add_0_r in *. subst ty.
  unfold bind in Hrun.
  pose proof (CheckAddState_result (slide s y x GOAL_CAR y tx) idx_state w) as Hadd.
  destruct (CheckAddState _ _ w) as [[] w1| | |]; try contradiction; try discriminate.
  destruct Hadd as (Hin & _ & _ & Hnew).
  pose proof (@PrintSolutionAndQuit_result Board w1) as Hquit.
  rewrite Hrun in Hquit. destruct Hquit as (-> & Hl & Hs).
  repeat split; auto.
  exists tx. split; [exact Hf|]. cbn zeta.
  split; [now rewrite Hs|].
  split; [intros Hnin; rewrite Hl; now apply Hnew|].
  split; [apply Hbt|]. split; [lia|].
  split; [|split].
  - intros xx Hxx. rewrite cell_at_slide by (auto; unfold on_board in *; lia).
    repeat case_decide; split_pairs; try lia; try reflexivity.
    rewrite <- (Hcells (x - xx)) by lia. f_equal; lia.
  - rewrite cell_at_slide by auto. now rewrite decide_True.
  - intros y' x' Hb' H1 H2. rewrite cell_at_slide by auto.
    repeat case_decide; congruence.
Qed.

Lemma win_only_at_exit_witness :
  let w' := final_world (CheckMove (-1) 0 board_goal_free 5 2 0
                           (world_of board_goal_free)) in
    CheckMove (-1) 0 board_goal_free 5 2 0 (world_of board_goal_free) = Exit 0 w' /\
    (ScanLeft = ScanLeft /\ 5 = BOARD_SIZE - 1 /\ 2 = BOARD_EXIT_Y /\ 0 = 0 /\
     exists tx,
       found ScanLeft board_goal_free 5 2 GOAL_CAR tx 2 /\
       let b := slide board_goal_free 2 5 GOAL_CAR 2 tx in
       b ∈ states_in_list w' /\
       (b ∉ states_in_list (world_of board_goal_free) ->
        state_list w' = state_list (world_of board_goal_free) ++ [(b, 0)]) /\
       0 <= tx /\ tx + 2 <= 5 /\
       (forall xx, tx < xx <= 5 -> cell_at b 2 xx = GOAL_CAR) /\
       cell_at b 2 tx = SPACE /\
       (forall y' x', on_board y' x' -> (y', x') <> (2, 5) -> (y', x') <> (2, tx) ->
          cell_at b y' x' = cell_at board_goal_free y' x')).
Proof.
  cbv zeta. split; [vm_compute; reflexivity|].
  apply (win_only_at_exit ScanLeft board_goal_free 5 2 0 (world_of board_goal_free)).
  - reflexivity.
  - unfold on_board, BOARD_SIZE. lia.
  - reflexivity.
  - vm_compute. reflexivity.
Defined.

(** ** Reasoning on computations *)

Lemma post_bind {A B} (m : M A) (k : A -> M B) w
    (Q' : A -> World -> Prop) (Q : B -> World -> Prop) (E : World -> Prop) :
  post (m w) Q' E ->
  (forall a w', Q' a w' -> post (k a w') Q E) ->
  post (bind m k w) Q E.
Proof.
  unfold bind, post. intros H1 H2. destruct (m w); auto. now apply H2.
Qed.

Lemma post_mono {A} (r : result A) (Q Q' : A -> World -> Prop)
    (E E' : World -> Prop) :
  post r Q E ->
  (forall a w, Q a w -> Q' a w) -> (forall w, E w -> E' w) ->
  post r Q' E'.
Proof.
  unfold post. destruct r; auto. intros [? ?]; auto.
Qed.

Lemma post_for_each {A} (l : list Z) (body : Z -> A -> M A)
    (I : A -> World -> Prop) (E : World -> Prop) : forall a w,
  I a w ->
  (forall i a w, i ∈ l -> I a w -> post (body i a w) I E) ->
  post (for_each l body a w) I E.
Proof.
  induction l as [|i l IH]; intros a w Ha Hbody; cbn [for_each].
  - exact Ha.
  - eapply post_bind.
    + apply Hbody; [left|exact Ha].
    + intros a' w' Ha'. apply IH; auto. intros; apply Hbody; auto. now right.
Qed.

Lemma post_for_range {A} (lo hi : Z) (body : Z -> A -> M A)
    (I : A -> World -> Prop) (E : World -> Prop) a w :
  I a w ->
  (forall i a w, lo <= i < hi -> I a w -> post (body i a w) I E) ->
  post (for_range lo hi body a w) I E.
Proof.
  intros Ha Hbody. unfold for_range. apply post_for_each; auto.
  intros i a' w' Hi. apply Hbody. apply elem_of_seqZ in Hi. lia.
Qed.

(** ** The invariant of the globals *)

Lemma world_inv_initial : world_inv initial_world.
Proof.
  split; cbn.
  - intros b. split; intros H; [now apply elem_of_empty in H|inversion H].
  - constructor.
  - reflexivity.
  - intros j e H. discriminate.
  - intros b H. inversion H.
Qed.

(** Registering a 6x6 board that comes from an entry of the list keeps
    the invariant, and the assertion holds. *)
Lemma CheckAddState_inv state from w :
  world_inv w -> board_wf state ->
  -1 <= from < Z.of_nat (length (state_list w)) ->
  exists w',
    CheckAddState state from w = Ret tt w' /\
    world_inv w' /\ stdout w' = stdout w /\
    state ∈ states_in_list w' /\
    ((state ∈ states_in_list w /\ w' = w) \/
     ((state ∉ states_in_list w) /\
      state_list w' = state_list w ++ [(state, from)])).
Proof.
  intros Hinv Hwf Hfrom.
  destruct (CheckAddState_sizes state from w (inv_sizes _ Hinv))
    as (w' & Hrun & Hold & Hnew & Hsz).
  exists w'. split; [exact Hrun|].
  destruct (decide (state ∈ states_in_list w)) as [Hin|Hnin].
  - rewrite (Hold Hin). split; [exact Hinv|]. split; [reflexivity|].
    split; [exact Hin|]. now left.
  - destruct (Hnew Hnin) as (Hl & Hs & Ho).
    split; [|split; [exact Ho|split; [|right; auto]]].
    2:{ rewrite Hs. apply elem_of_union_l, elem_of_singleton. reflexivity. }
    split.
    + intros b. rewrite Hs, Hl, fmap_app, elem_of_union, elem_of_singleton, elem_of_app.
      cbn. rewrite list_elem_of_singleton, (inv_set _ Hinv). tauto.
    + rewrite Hl, fmap_app. cbn. apply NoDup_app. split; [apply Hinv|].
      split; [|apply NoDup_singleton].
      intros b Hb Hb'. apply list_elem_of_singleton in Hb'. subst b.
      apply Hnin. now apply (inv_set _ Hinv).
    + exact Hsz.
    + rewrite Hl. intros j e He.
      destruct (decide (j < length (state_list w))%nat) as [Hj|Hj].
      * rewrite lookup_app_l in He by lia. now apply (inv_parents _ Hinv).
      * apply lookup_lt_Some in He as Hlt. rewrite length_app in Hlt. cbn in Hlt.
        rewrite lookup_app_r in He by lia.
        replace (j - length (state_list w))%nat with 0%nat in He by lia.
        injection He as <-. cbn. lia.
    + intros b. rewrite Hl, fmap_app, elem_of_app. cbn.
      rewrite list_elem_of_singleton. intros [Hb| ->]; auto. now apply (inv_wf _ Hinv).
Qed.

(** ** The number of boards *)

Lemma all_ascii_complete c : c ∈ all_ascii.
Proof.
  unfold all_ascii. apply list_elem_of_fmap. exists (nat_of_ascii c).
  split; [now rewrite ascii_nat_embedding|].
  apply elem_of_seq. pose proof (nat_ascii_bounded c). lia.
Qed.

Lemma all_boards_complete n : forall b : Board, length b = n -> b ∈ all_boards n.
Proof.
  induction n as [|n IH]; intros [|c b] Hlen; try discriminate; cbn [all_boards].
  - left.
  - apply list_elem_of_bind. exists c. split; [|apply all_ascii_complete].
    apply list_elem_of_fmap. exists b. split; [reflexivity|].
    apply IH. now injection Hlen.
Qed.

(** [state_list] never holds more than [board_count] entries. *)
Lemma state_list_bounded w :
  world_inv w -> (length (state_list w) <= board_count)%nat.
Proof.
  intros Hinv. rewrite <- (length_fmap fst). unfold board_count.
  apply submseteq_length, NoDup_submseteq; [apply Hinv|].
  intros b Hb. apply all_boards_complete. now apply (inv_wf _ Hinv).
Qed.

(** ** The search keeps its invariant *)

Lemma running_add_output w o :
  running w -> progress o -> running (add_output w [o]).
Proof.
  intros (Hinv & Hq & Hne) Ho. split; [|split].
  - destruct Hinv. split; auto.
  - cbn. apply Forall_app. split; auto.
  - exact Hne.
Qed.

Lemma register_post state idx_state w (E : World -> Prop) :
  running w -> board_wf state ->
  -1 <= idx_state < Z.of_nat (length (state_list w)) ->
  post (CheckAddState state idx_state w)
    (fun _ w' => running w' /\
                 (length (state_list w) <= length (state_list w'))%nat) E.
Proof.
  intros (Hinv & Hq & Hne) Hwf Hidx.
  destruct (CheckAddState_inv state idx_state w Hinv Hwf Hidx)
    as (w' & -> & Hinv' & Ho & _ & [[_ ->]|[_ Hl]]); cbn.
  - split; [split; auto|lia].
  - split; [split; [auto|split]|].
    + now rewrite Ho.
    + rewrite Hl. now destruct (state_list w).
    + rewrite Hl, length_app. lia.
Qed.

Lemma PrintSolutionAndQuit_post {A} w (Q : A -> World -> Prop) :
  running w -> post (@PrintSolutionAndQuit A w) Q solved.
Proof.
  intros Hrun. pose proof Hrun as (Hinv & Hq & Hne).
  destruct (@PrintSolutionAndQuit_spec A w (inv_parents _ Hinv) Hne) as (Hquit & _).
  rewrite Hquit. cbn. split; [reflexivity|].
  exists w. split; [exact Hrun|reflexivity].
Qed.

Lemma after_scan_post d s x y idx_state car tx ty w :
  board_wf s -> on_board y x -> found d s x y car tx ty ->
  running w -> 0 <= idx_state < Z.of_nat (length (state_list w)) ->
  post (after_scan d s x y idx_state car tx ty w) (exploring idx_state s) solved.
Proof.
  intros Hwf Hb Hf Hrun Hidx. unfold after_scan.
  assert (Hkeep : forall b, board_wf b ->
            post ((CheckAddState b idx_state ;;; ret s) w)
                 (exploring idx_state s) solved).
  { intros b Hwfb. eapply post_bind.
    - apply (register_post b idx_state w solved); auto. lia.
    - intros _ w' [Hrun' Hlen]. cbn. split; [reflexivity|]. split; [exact Hrun'|lia]. }
  destruct (at_exit d x y); [destruct (Ascii.eqb car GOAL_CAR)|].
  - eapply post_bind.
    + apply (register_post _ idx_state w solved); auto using board_wf_slide. lia.
    + intros _ w' [Hrun' _]. now apply PrintSolutionAndQuit_post.
  - apply Hkeep. auto using board_wf_slide, board_wf_span.
  - apply Hkeep. auto using board_wf_slide.
Qed.

Lemma CheckMove_post d s x y idx_state w :
  board_wf s -> on_board y x -> cell_at s y x = SPACE ->
  running w -> 0 <= idx_state < Z.of_nat (length (state_list w)) ->
  post (CheckMove (dir_dx d) (dir_dy d) s x y idx_state w)
       (exploring idx_state s) solved.
Proof.
  intros Hwf Hb Hsp Hrun Hidx.
  destruct (CheckMove_cases d s x y idx_state Hwf Hb Hsp)
    as [[_ Hret]|(car & tx & ty & Hf & Heq)].
  - rewrite Hret. cbn. split; [reflexivity|split; [exact Hrun|exact Hidx]].
  - rewrite Heq. now apply after_scan_post.
Qed.

Lemma explore_cell_post idx_state y x s w :
  board_wf s -> on_board y x ->
  running w -> 0 <= idx_state < Z.of_nat (length (state_list w)) ->
  post (explore_cell idx_state y x s w) (exploring idx_state s) solved.
Proof.
  intros Hwf Hb Hrun Hidx. unfold explore_cell.
  rewrite (Cell_on_board _ _ _ Hb), bind_checked_Some.
  destruct (Ascii.eqb (cell_at s y x) SPACE) eqn:Hc; cbn [negb].
  2:{ cbn. split; [reflexivity|split; [exact Hrun|exact Hidx]]. }
  apply Ascii.eqb_eq in Hc.
  eapply post_bind; [apply (CheckMove_post ScanRight); auto|].
  intros s1 w1 (-> & Hrun1 & Hidx1).
  eapply post_bind; [apply (CheckMove_post ScanLeft); auto|].
  intros s2 w2 (-> & Hrun2 & Hidx2).
  eapply post_bind; [apply (CheckMove_post ScanDown); auto|].
  intros s3 w3 (-> & Hrun3 & Hidx3).
  apply (CheckMove_post ScanUp); auto.
Qed.

Lemma explore_post idx_state s w :
  board_wf s ->
  running w -> 0 <= idx_state < Z.of_nat (length (state_list w)) ->
  post (explore idx_state s w) (exploring idx_state s) solved.
Proof.
  intros Hwf Hrun Hidx. unfold explore.
  apply post_for_range; [split; auto|].
  intros y s1 w1 Hy (-> & Hrun1 & Hidx1).
  apply post_for_range; [split; auto|].
  intros x s2 w2 Hx (-> & Hrun2 & Hidx2).
  apply explore_cell_post; auto. unfold on_board. unfold BOARD_SIZE in *. lia.
Qed.

Lemma state_at_lookup i w e :
  0 <= i -> state_list w !! Z.to_nat i = Some e -> state_at i w = Ret e w.
Proof.
  intros Hi He. unfold state_at, get_state_list, bind.
  apply lookup_lt_Some in He as Hlt.
  replace (_ && _) with true by (symmetry; lia). now rewrite He.
Qed.

Lemma explore_state_post idx_state w :
  running w -> 0 <= idx_state < Z.of_nat (length (state_list w)) ->
  post (explore_state idx_state w)
       (fun _ w' => running w' /\
                    idx_state < Z.of_nat (length (state_list w'))) solved.
Proof.
  intros Hrun Hidx. unfold explore_state.
  destruct (lookup_lt_is_Some_2 (state_list w) (Z.to_nat idx_state) ltac:(lia))
    as [e He].
  rewrite (bind_Ret _ _ _ _ _ (state_at_lookup idx_state w e ltac:(lia) He)).
  assert (Hwf : board_wf e.1).
  { destruct Hrun as (Hinv & _). apply (inv_wf _ Hinv).
    apply list_elem_of_fmap. exists e. split; [reflexivity|].
    eapply list_elem_of_lookup_2; eauto. }
  unfold DEBUG_PROGRESS_OUTPUT.
  eapply post_bind with
    (Q' := fun _ w' => running w' /\
                       0 <= idx_state < Z.of_nat (length (state_list w'))).
  - destruct (_ =? 0); cbn; [|auto].
    split; [now apply running_add_output|exact Hidx].
  - intros _ w1 [Hrun1 Hidx1]. eapply post_bind.
    + now apply explore_post.
    + intros s' w2 (_ & Hrun2 & Hidx2). cbn. split; [auto|lia].
Qed.

(** With fuel for as many rounds as there are boards, the search ends:
    it returns with the list exhausted, or the process leaves with a
    solution. *)
Lemma search_post fuel : forall idx_state w,
  running w -> 0 <= idx_state <= Z.of_nat (length (state_list w)) ->
  Z.of_nat board_count + 1 - idx_state <= Z.of_nat fuel ->
  post (search fuel idx_state w) (fun _ w' => running w') solved.
Proof.
  induction fuel as [|fuel IH]; intros idx_state w Hrun Hidx Hfuel.
  - pose proof (state_list_bounded w (proj1 Hrun)). lia.
  - cbn [search]. unfold get_state_list, bind at 1.
    destruct (Z.ltb_spec idx_state (Z.of_nat (length (state_list w)))) as [Hlt|Hge].
    + eapply post_bind; [apply explore_state_post; auto; lia|].
      intros _ w' [Hrun' Hlt']. apply IH; auto; lia.
    + cbn. exact Hrun.
Qed.

Lemma main_post fuel initial_board :
  board_wf initial_board ->
  (board_count + 1 <= fuel)%nat ->
  post (main fuel initial_board initial_world)
       (fun v w' => v = 1 /\ exhausted w') solved.
Proof.
  intros Hwf Hfuel. unfold main.
  rewrite (bind_Ret _ _ _ _ _ (write_add_output _ _)).
  rewrite (bind_Ret _ _ _ _ _ (write_add_output _ _)).
  rewrite add_output_app.
  set (w0 := add_output initial_world _).
  assert (Hinv0 : world_inv w0).
  { pose proof world_inv_initial as H. destruct H. split; auto. }
  destruct (CheckAddState_inv initial_board (-1) w0 Hinv0 Hwf ltac:(cbn; lia))
    as (w1 & Hadd & Hinv1 & Ho & _ & [[Hin _]|[_ Hl]]).
  { apply (inv_set _ Hinv0) in Hin. inversion Hin. }
  rewrite (bind_Ret _ _ _ _ _ Hadd).
  unfold get_state_list, bind at 1. rewrite Hl. cbn [state_list w0 add_output app length].
  rewrite decide_True by reflexivity. unfold bind at 1. cbn [ret].
  assert (Hrun1 : running w1).
  { split; [exact Hinv1|]. split; [|rewrite Hl; discriminate].
    rewrite Ho. cbn. repeat constructor. cbn. unfold cannot_find. intros [=]. }
  eapply post_bind.
  - apply (search_post fuel 0 w1 Hrun1); [rewrite Hl; cbn; lia|lia].
  - intros u w2 Hrun2. cbn beta in Hrun2.
    rewrite (bind_Ret _ _ _ _ _ (write_add_output _ _)). cbn.
    split; [reflexivity|]. exists w2. split; [exact Hrun2|reflexivity].
Qed.

(** ** C6: how the process ends *)

Lemma emit_no_verdict boards : forall n next,
  Forall (fun o => o <> Text cannot_find) (emit n boards next).
Proof.
  induction boards as [|b rest IH]; intros n next; cbn [emit app].
  - constructor.
  - repeat (constructor; [discriminate|]). apply IH.
Qed.

Lemma progress_no_verdict out :
  Forall progress out ->
  Forall (fun o => o <> Text cannot_find /\ forall n, o <> SolutionStep n) out.
Proof.
  intros H. eapply Forall_impl; [exact H|].
  intros [t|n|n|n|indent cur next] Ho; cbn in Ho; split; try discriminate;
    try contradiction; congruence.
Qed.

(** A solution has been written, and the line [cannot_find] has not. *)
Lemma solved_output w' :
  solved w' ->
  SolutionStep 1 ∈ stdout w' /\ Text cannot_find ∉ stdout w'.
Proof.
  intros (w & (Hinv & Hq & Hne) & ->). cbn [stdout add_output].
  destruct (@PrintSolutionAndQuit_spec Z w (inv_parents _ Hinv) Hne)
    as (_ & _ & r & rest & _ & ->). split.
  - apply elem_of_app. right. left.
  - intros [H|H]%elem_of_app.
    + apply progress_no_verdict in Hq. rewrite Forall_forall in Hq.
      now apply Hq in H as [H _].
    + pose proof (emit_no_verdict (map (board_at (state_list w)) rest) 2 None) as Hr.
      rewrite Forall_forall in Hr.
      cbn [app] in H. repeat (apply elem_of_cons in H as [H|H]; [discriminate|]).
      now apply Hr in H.
Qed.

(** The line [cannot_find] is the last thing written, and no step of a
    solution has been. *)
Lemma exhausted_output w' :
  exhausted w' ->
  last (stdout w') = Some (Text cannot_find) /\
  forall n, SolutionStep n ∉ stdout w'.
Proof.
  intros (w & (Hinv & Hq & Hne) & ->). cbn [stdout add_output].
  split; [apply last_snoc|].
  intros n [H|H]%elem_of_app.
  - apply progress_no_verdict in Hq. rewrite Forall_forall in Hq.
    apply Hq in H as [_ H]. now apply (H n).
  - apply list_elem_of_singleton in H. discriminate.
Qed.

(** C6: for every 6x6 initial board the run of [main] ends, in one of
    two ways.  Either a solution has been found: the process leaves
    through [exit(0)], the steps of a solution are written, and the
    line "Cannot find solution!" is not.  Or the list of states is
    exhausted: [main] writes "Cannot find solution!" last, writes no
    step of a solution, and returns 1.  No assertion fails in either
    case, and the status of the process, 0 or 1, tells the two apart. *)
Theorem main_ends_with_status initial_board :
  board_wf initial_board ->
  exists fuel0, forall fuel, (fuel0 <= fuel)%nat ->
    let r := main fuel initial_board initial_world in
    (exists w', r = Exit 0 w' /\ process_status r = Some 0 /\
                SolutionStep 1 ∈ stdout w' /\ Text cannot_find ∉ stdout w') \/
    (exists w', r = Ret 1 w' /\ process_status r = Some 1 /\
                last (stdout w') = Some (Text cannot_find) /\
                forall n, SolutionStep n ∉ stdout w').
Proof.
  intros Hwf. exists (board_count + 1)%nat. intros fuel Hfuel r.
  pose proof (main_post fuel initial_board Hwf Hfuel) as Hpost. fold r in Hpost.
  destruct r as [v w'|status w'|f|]; cbn in Hpost; try contradiction.
  - destruct Hpost as [-> Hex]. right. exists w'.
    split; [reflexivity|]. split; [reflexivity|]. now apply exhausted_output.
  - destruct Hpost as [-> Hsol]. left. exists w'.
    split; [reflexivity|]. split; [reflexivity|]. now apply solved_output.
Qed.

Lemma main_ends_with_status_witness :
  exists fuel0, forall fuel, (fuel0 <= fuel)%nat ->
    let r := main fuel board_155 initial_world in
    (exists w', r = Exit 0 w' /\ process_status r = Some 0 /\
                SolutionStep 1 ∈ stdout w' /\ Text cannot_find ∉ stdout w') \/
    (exists w', r = Ret 1 w' /\ process_status r = Some 1 /\
                last (stdout w') = Some (Text cannot_find) /\
                forall n, SolutionStep n ∉ stdout w').
Proof. apply (main_ends_with_status board_155). reflexivity. Defined.

(** The two ways to end, on two boards. *)
Example main_solves_board_goal_free :
  process_status (main 3 board_goal_free initial_world) = Some 0.
Proof. vm_compute. reflexivity. Qed.

Example main_exhausts_board_full :
  process_status (main 3 board_full initial_world) = Some 1.
Proof. vm_compute. reflexivity. Qed.

(** ** C5: the search stops at the first win *)

Lemma explore_cells_app idx_state l1 l2 : forall s w,
  explore_cells idx_state (l1 ++ l2) s w
  = bind (explore_cells idx_state l1 s) (explore_cells idx_state l2) w.
Proof.
  induction l1 as [|c l1 IH]; intros s w; cbn [app explore_cells].
  - reflexivity.
  - rewrite bind_assoc. apply bind_ext. intros s' w'. apply IH.
Qed.

Lemma for_each_row idx_state y xs : forall s w,
  for_each xs (explore_cell idx_state y) s w
  = explore_cells idx_state (x ← xs; [(y, x)]) s w.
Proof.
  induction xs as [|x xs IH]; intros s w; [reflexivity|].
  cbn [for_each]. rewrite bind_cons. cbn [app explore_cells fst snd].
  apply bind_ext. intros s' w'. apply IH.
Qed.

Lemma for_each_rows idx_state ys xs : forall s w,
  for_each ys (fun y s => for_each xs (explore_cell idx_state y) s) s w
  = explore_cells idx_state (y ← ys; x ← xs; [(y, x)]) s w.
Proof.
  induction ys as [|y ys IH]; intros s w; [reflexivity|].
  cbn [for_each]. rewrite bind_cons, explore_cells_app.
  unfold bind. rewrite for_each_row.
  destruct (explore_cells _ _ s w); auto.
Qed.

(** The two loops of [main] visit [all_cells]. *)
Lemma explore_all_cells idx_state s w :
  explore idx_state s w = explore_cells idx_state all_cells s w.
Proof. unfold explore, for_range, all_cells. apply for_each_rows. Qed.

Lemma explore_cells_post idx_state cells : forall s w,
  board_wf s -> Forall (fun c => on_board c.1 c.2) cells ->
  running w -> 0 <= idx_state < Z.of_nat (length (state_list w)) ->
  post (explore_cells idx_state cells s w) (exploring idx_state s) solved.
Proof.
  induction cells as [|c cells IH]; intros s w Hwf Hcells Hrun Hidx;
    cbn [explore_cells].
  - split; [reflexivity|split; assumption].
  - inversion Hcells; subst. eapply post_bind.
    + apply explore_cell_post; eauto.
    + intros s' w' (-> & Hrun' & Hidx'). apply IH; auto.
Qed.

Lemma all_cells_on_board : Forall (fun c => on_board c.1 c.2) all_cells.
Proof.
  apply Forall_forall. intros [y x] Hc. unfold all_cells in Hc.
  apply list_elem_of_bind in Hc as (y' & Hc & Hy%elem_of_seqZ).
  apply list_elem_of_bind in Hc as (x' & Hc & Hx%elem_of_seqZ).
  apply list_elem_of_singleton in Hc. injection Hc as -> ->.
  unfold on_board. cbn. lia.
Qed.

(** C5: let the loops of [main] over the cells of entry [idx_state]
    have come, without leaving, to the last cell of the exit row, and
    let the goal car be what the scan to the left finds from there.
    Then the board with the goal car moved is handed to
    [CheckAddState], and the process leaves at once with status 0:
    the globals it leaves are those of that registration, and what it
    has written is what was written until then followed by one
    solution, the path to the last entry.  Neither the cells after
    this one, nor the entries after this one, nor the number of rounds
    left change the outcome: nothing else is evaluated.  When the
    board was new, it is the last entry, and the path written ends
    with it. *)
Theorem search_halts_at_win fuel idx_state w e pre rest w1 tx :
  running w -> 0 <= idx_state ->
  state_list w !! Z.to_nat idx_state = Some e ->
  all_cells = pre ++ (BOARD_EXIT_Y, BOARD_SIZE - 1) :: rest ->
  explore_cells idx_state pre e.1 (with_progress_line idx_state w) = Ret e.1 w1 ->
  cell_at e.1 BOARD_EXIT_Y (BOARD_SIZE - 1) = SPACE ->
  found ScanLeft e.1 (BOARD_SIZE - 1) BOARD_EXIT_Y GOAL_CAR tx BOARD_EXIT_Y ->
  let b := slide e.1 BOARD_EXIT_Y (BOARD_SIZE - 1) GOAL_CAR BOARD_EXIT_Y tx in
  exists w2,
    CheckAddState b idx_state w1 = Ret tt w2 /\
    search (S fuel) idx_state w
    = Exit 0 (add_output w2 (solution_output (state_list w2))) /\
    stdout w2 = stdout w1 /\
    ((b ∈ states_in_list w1) -> state_list w2 = state_list w1) /\
    ((b ∉ states_in_list w1) ->
       state_list w2 = state_list w1 ++ [(b, idx_state)] /\
       last (chain (state_list w2) (Z.of_nat (length (state_list w2)) - 1))
       = Some (Z.of_nat (length (state_list w1))) /\
       board_at (state_list w2) (Z.of_nat (length (state_list w1))) = b).
Proof.
  intros Hrun Hidx He Hsplit Hpre Hsp Hf b.
  set (s := e.1) in *.
  set (x := BOARD_SIZE - 1) in *. set (y := BOARD_EXIT_Y) in *.
  apply lookup_lt_Some in He as Hlt.
  assert (Hwf : board_wf s).
  { destruct Hrun as (Hinv & _). apply (inv_wf _ Hinv).
    apply list_elem_of_fmap. exists e. split; [reflexivity|].
    eapply list_elem_of_lookup_2; eauto. }
  assert (Hb : on_board y x) by (unfold on_board, x, y, BOARD_SIZE, BOARD_EXIT_Y; lia).
  (* the state when the loops start *)
  assert (Hrun0 : running (with_progress_line idx_state w) /\
                  0 <= idx_state
                  < Z.of_nat (length (state_list (with_progress_line idx_state w)))).
  { unfold with_progress_line. destruct (_ =? 0); cbn; split; try lia; auto.
    now apply running_add_output. }
  destruct Hrun0 as [Hrun0 Hidx0].
  (* the state when the scan reaches the last cell of the exit row *)
  assert (Hex : exploring idx_state s s w1).
  { pose proof all_cells_on_board as Hcells. rewrite Hsplit in Hcells.
    apply Forall_app in Hcells as [Hcells _].
    pose proof (explore_cells_post idx_state pre s _ Hwf Hcells Hrun0 Hidx0) as H.
    now rewrite Hpre in H. }
  destruct Hex as (_ & Hrun1 & Hidx1).
  destruct (CheckAddState_inv b idx_state w1 (proj1 Hrun1)
              ltac:(unfold b; auto using board_wf_slide) ltac:(lia))
    as (w2 & Hadd & Hinv2 & Ho2 & Hin2 & Hcases).
  assert (Hne2 : state_list w2 <> []).
  { destruct Hcases as [[_ ->]|[_ ->]]; [apply Hrun1|].
    now destruct (state_list w1). }
  destruct (@PrintSolutionAndQuit_spec Board w2 (inv_parents _ Hinv2) Hne2)
    as (Hquit & Hlast & _).
  exists w2. split; [exact Hadd|]. split; [|split; [exact Ho2|split]].
  - cbn [search]. unfold get_state_list, bind at 1.
    destruct (Z.ltb_spec idx_state (Z.of_nat (length (state_list w)))); [|lia].
    unfold bind at 1. unfold explore_state.
    rewrite (bind_Ret _ _ _ _ _ (state_at_lookup idx_state w e Hidx He)).
    fold s. unfold DEBUG_PROGRESS_OUTPUT.
    assert (Hhead : (if idx_state `rem` 100 =? 0
                     then write (Explored idx_state) else ret tt) w
                    = Ret tt (with_progress_line idx_state w)).
    { unfold with_progress_line. destruct (_ =? 0); reflexivity. }
    rewrite (bind_Ret _ _ _ _ _ Hhead).
    unfold bind at 1. rewrite explore_all_cells, Hsplit, explore_cells_app.
    rewrite (bind_Ret _ _ _ _ _ Hpre). cbn [explore_cells fst snd].
    unfold bind at 1. unfold explore_cell.
    rewrite (Cell_on_board _ _ _ Hb), bind_checked_Some. fold x y. rewrite Hsp.
    cbn [Ascii.eqb Bool.eqb SPACE negb].
    assert (Hright : CheckMove 1 0 s x y idx_state w1 = Ret s w1) by reflexivity.
    rewrite (bind_Ret _ _ _ _ _ Hright).
    assert (Hleft : CheckMove (-1) 0 s x y idx_state w1
                    = Exit 0 (add_output w2 (solution_output (state_list w2)))).
    { pose proof (CheckMove_found ScanLeft s x y idx_state GOAL_CAR tx y w1
                    Hwf Hb Hsp Hf) as Hcm.
      cbn [dir_dx dir_dy] in Hcm. rewrite Hcm.
      unfold after_scan. replace (at_exit ScanLeft x y) with true by reflexivity.
      cbn [Ascii.eqb Bool.eqb GOAL_CAR]. fold b.
      rewrite (bind_Ret _ _ _ _ _ Hadd). now rewrite Hquit. }
    unfold bind. now rewrite Hleft.
  - intros Hin. destruct Hcases as [[_ ->]|[Hnin _]]; [reflexivity|contradiction].
  - intros Hnin. destruct Hcases as [[Hin _]|[_ Hl]]; [contradiction|].
    split; [exact Hl|]. split.
    + rewrite Hlast. f_equal. rewrite Hl, length_app. cbn. lia.
    + unfold board_at. rewrite Hl, Nat2Z.id, lookup_app_r by lia.
      now rewrite Nat.sub_diag.
Qed.

Lemma running_world_of initial_board :
  board_wf initial_board -> running (world_of initial_board).
Proof.
  intros Hwf. split; [|split; [constructor|discriminate]]. split; cbn.
  - intros b. rewrite elem_of_singleton, list_elem_of_singleton. tauto.
  - apply NoDup_singleton.
  - unfold sizes_agree. cbn. now rewrite size_singleton.
  - intros [|j] e He; [|discriminate]. injection He as <-. cbn. lia.
  - intros b Hb%list_elem_of_singleton. now subst.
Qed.

Lemma found_in_board_goal_free : found ScanLeft board_goal_free 5 2 GOAL_CAR 2 2.
Proof.
  split.
  - discriminate.
  - exists 3. repeat split; try lia. intros k Hk.
    assert (k = 1 \/ k = 2 \/ k = 3) as [-> | [-> | ->]] by lia; reflexivity.
  - unfold on_board, BOARD_SIZE. lia.
  - intros _. discriminate.
Qed.

Lemma search_halts_at_win_witness :
  let w1 := final_world
              (explore_cells 0 (take 17 all_cells) board_goal_free
                 (with_progress_line 0 (world_of board_goal_free))) in
    explore_cells 0 (take 17 all_cells) board_goal_free
      (with_progress_line 0 (world_of board_goal_free))
    = Ret board_goal_free w1 /\
    let b := slide board_goal_free BOARD_EXIT_Y (BOARD_SIZE - 1) GOAL_CAR
               BOARD_EXIT_Y 2 in
    exists w2,
      CheckAddState b 0 w1 = Ret tt w2 /\
      search 1 0 (world_of board_goal_free)
      = Exit 0 (add_output w2 (solution_output (state_list w2))) /\
      stdout w2 = stdout w1 /\
      ((b ∈ states_in_list w1) -> state_list w2 = state_list w1) /\
      ((b ∉ states_in_list w1) ->
         state_list w2 = state_list w1 ++ [(b, 0)] /\
         last (chain (state_list w2) (Z.of_nat (length (state_list w2)) - 1))
         = Some (Z.of_nat (length (state_list w1))) /\
         board_at (state_list w2) (Z.of_nat (length (state_list w1))) = b).
Proof.
  cbv zeta. split; [vm_compute; reflexivity|].
  apply (search_halts_at_win 0 0 (world_of board_goal_free) (board_goal_free, -1)
           (take 17 all_cells) (drop 18 all_cells) _ 2).
  - apply running_world_of. reflexivity.
  - lia.
  - reflexivity.
  - reflexivity.
  - vm_compute. reflexivity.
  - reflexivity.
  - exact found_in_board_goal_free.
Defined.

(** On [board_goal_free] the search registers one move of the goal car
    to the left, then finds the winning move, and writes the two
    boards of the path. *)
Example search_on_board_goal_free :
  let r := search 1 0 (world_of board_goal_free) in
  r = Exit 0 (final_world r) /\
  length (state_list (final_world r)) = 3%nat /\
  chain (state_list (final_world r)) 2 = [0; 2] /\
  stdout (final_world r)
  = Explored 0
    :: emit 1 [board_goal_free; slide board_goal_free 2 5 GOAL_CAR 2 2] None.
Proof.
  cbv zeta. split; [vm_compute; reflexivity|].
  split; [vm_compute; reflexivity|]. split; vm_compute; reflexivity.
Qed.

(** ** C1: the solution that is written, when the winning board is not new *)

(** C1 fails on [board_goal_at_exit].  The only move from it takes the
    goal car one cell to the left; from there the goal car moves back
    into the last column of the exit row, which the search takes for
    the win.  The board of that win is the initial board: it is
    already in [states_in_list], [CheckAddState] adds nothing (the
    comment in the source says the call should always succeed), and
    [PrintSolutionAndQuit] writes the path to the last entry of
    [state_list], which is the board with the goal car moved away
    from the exit.  The process leaves with status 0 and a "solution"
    of one move, whose last board has an empty cell at the exit: the
    goal car is not freed by it. *)
Theorem solver_writes_path_to_wrong_board :
  let r := main 3 board_goal_at_exit initial_world in
  let w' := final_world r in
    r = Exit 0 w' /\
    state_list w' = [(board_goal_at_exit, -1); (board_goal_moved_back, 0)] /\
    stdout w'
    = [Text ("Initial board state:" ++ newline);
       Print "  " board_goal_at_exit None;
       Explored 0]
      ++ emit 1 [board_goal_at_exit; board_goal_moved_back] None /\
    cell_at board_goal_moved_back BOARD_EXIT_Y (BOARD_SIZE - 1) = SPACE /\
    found ScanLeft board_goal_moved_back (BOARD_SIZE - 1) BOARD_EXIT_Y
      GOAL_CAR 3 BOARD_EXIT_Y /\
    slide board_goal_moved_back BOARD_EXIT_Y (BOARD_SIZE - 1) GOAL_CAR BOARD_EXIT_Y 3
    = board_goal_at_exit /\
    board_goal_at_exit ∈ states_in_list w'.
Proof.
  cbv zeta. split; [vm_compute; reflexivity|].
  split; [vm_compute; reflexivity|]. split; [vm_compute; reflexivity|].
  split; [reflexivity|].
  split; [|split; [vm_compute; reflexivity|]].
  - split.
    + discriminate.
    + exists 2. split; [lia|]. split; [reflexivity|]. split; [reflexivity|].
      intros k Hk.
      assert (k = 1 \/ k = 2) as [-> | ->] by lia; reflexivity.
    + unfold on_board, BOARD_SIZE, BOARD_EXIT_Y. lia.
    + intros _. discriminate.
  - match goal with
    | |- ?b ∈ ?X => apply (bool_decide_eq_true_1 (b ∈ X))
    end.
    vm_compute. reflexivity.
Qed.

(** The same happens with the goal car alone on the board, next to
    the exit with nothing in its way: the path that is written has
    three boards, and ends with the goal car two cells away from the
    last column. *)
Example solver_on_board_goal_alone :
  let r := main 3 board_goal_alone initial_world in
  let w' := final_world r in
    r = Exit 0 w' /\
    map (board_at (state_list w'))
        (chain (state_list w') (Z.of_nat (length (state_list w')) - 1))
    = [board_goal_alone;
       slide board_goal_alone 2 3 GOAL_CAR 2 5;
       board_goal_alone_away].
Proof.
  cbv zeta. split; vm_compute; reflexivity.
Qed.

(** ** The search is breadth-first *)

Lemma walk_back_app l l' : parents_ok l -> forall fuel j,
  j < Z.of_nat (length l) ->
  walk_back fuel (l ++ l') j = walk_back fuel l j.
Proof.
  intros Hp. induction fuel as [|fuel IH]; intros j Hj; [reflexivity|].
  cbn [walk_back]. destruct (Z.ltb_spec j 0); [reflexivity|].
  rewrite lookup_app_l by lia.
  destruct (l !! Z.to_nat j) as [e|] eqn:He; [|reflexivity].
  f_equal. apply IH. apply Hp in He. lia.
Qed.

(** The chain of an entry does not change when the list grows. *)
Lemma chain_app l l' j :
  parents_ok l -> j < Z.of_nat (length l) -> chain (l ++ l') j = chain l j.
Proof. intros Hp Hj. unfold chain. f_equal. now apply walk_back_app. Qed.

Lemma level_app l l' j :
  parents_ok l -> j < Z.of_nat (length l) -> level (l ++ l') j = level l j.
Proof. intros Hp Hj. unfold level. now rewrite chain_app. Qed.

Lemma board_at_app l l' j :
  0 <= j < Z.of_nat (length l) -> board_at (l ++ l') j = board_at l j.
Proof. intros Hj. unfold board_at. now rewrite lookup_app_l by lia. Qed.

Lemma parents_ok_snoc l b from :
  parents_ok l -> -1 <= from < Z.of_nat (length l) -> parents_ok (l ++ [(b, from)]).
Proof.
  intros Hp Hfrom j e He.
  destruct (decide (j < length l)%nat) as [Hj|Hj].
  - rewrite lookup_app_l in He by lia. now apply Hp.
  - apply lookup_lt_Some in He as Hlt. rewrite length_app in Hlt. cbn [length] in Hlt.
    rewrite lookup_app_r in He by lia.
    replace (j - length l)%nat with 0%nat in He by lia.
    injection He as <-. cbn. lia.
Qed.

(** The chain of a new entry is the chain of the entry it comes from,
    and the new entry. *)
Lemma level_snoc l b from :
  parents_ok l -> 0 <= from < Z.of_nat (length l) ->
  level (l ++ [(b, from)]) (Z.of_nat (length l)) = S (level l from).
Proof.
  intros Hp Hfrom. unfold level.
  rewrite (chain_step (l ++ [(b, from)]) (Z.of_nat (length l)) (b, from)).
  - rewrite length_app. cbn [snd length]. rewrite chain_app by (auto; lia). lia.
  - apply parents_ok_snoc; auto. lia.
  - lia.
  - rewrite Nat2Z.id, lookup_app_r by lia. now rewrite Nat.sub_diag.
Qed.

Lemma board_at_snoc l b from :
  board_at (l ++ [(b, from)]) (Z.of_nat (length l)) = b.
Proof.
  unfold board_at. rewrite Nat2Z.id, lookup_app_r by lia. now rewrite Nat.sub_diag.
Qed.

Lemma listed_app l l' b c : parents_ok l -> listed l b c -> listed (l ++ l') b c.
Proof.
  intros Hp (j & Hj & Hb & Hl). exists j. rewrite length_app.
  split; [lia|]. split; [now rewrite board_at_app|]. now rewrite level_app by (auto; lia).
Qed.

Lemma listed_le l b c c' : (c <= c')%nat -> listed l b c -> listed l b c'.
Proof. intros Hc (j & Hj & Hb & Hl). exists j. repeat split; auto; lia. Qed.

(** A board of the set is an entry of the list. *)
Lemma visited_entry w b :
  world_inv w -> b ∈ states_in_list w ->
  exists j, 0 <= j < Z.of_nat (length (state_list w)) /\
            board_at (state_list w) j = b.
Proof.
  intros Hinv Hb. apply (inv_set _ Hinv) in Hb.
  apply list_elem_of_fmap in Hb as (e & -> & He).
  apply list_elem_of_lookup in He as (j & He).
  exists (Z.of_nat j). apply lookup_lt_Some in He as Hlt.
  split; [lia|]. unfold board_at. now rewrite Nat2Z.id, He.
Qed.

Lemma post_Ret {A} (r : result A) Q E a w' : post r Q E -> r = Ret a w' -> Q a w'.
Proof. now intros H ->. Qed.

Lemma post_Exit {A} (r : result A) Q E status w' :
  post r Q E -> r = Exit status w' -> status = 0 /\ E w'.
Proof. now intros H ->. Qed.

Lemma bind_Ret_inv {A B} (m : M A) (k : A -> M B) w b w' :
  bind m k w = Ret b w' -> exists a w1, m w = Ret a w1 /\ k a w1 = Ret b w'.
Proof. unfold bind. destruct (m w); try discriminate. eauto. Qed.

Lemma bind_Exit_inv {A B} (m : M A) (k : A -> M B) w status w' :
  bind m k w = Exit status w' ->
  m w = Exit status w' \/ exists a w1, m w = Ret a w1 /\ k a w1 = Exit status w'.
Proof.
  unfold bind. destruct (m w) as [a w1| | |]; try discriminate.
  - intros H. right. exists a, w1. split; [reflexivity|exact H].
  - intros [= -> ->]. now left.
Qed.

(** The cells between two cells of the board, on a line of the scan,
    are on the board. *)
Lemma line_on_board d x y n k :
  0 <= k <= n -> on_board y x ->
  on_board (y + n * dir_dy d) (x + n * dir_dx d) ->
  on_board (y + k * dir_dy d) (x + k * dir_dx d).
Proof. unfold on_board. destruct d; cbn; lia. Qed.

Lemma offered_wf d s x y b :
  board_wf s -> offered_at d s x y b -> board_wf b.
Proof.
  intros Hwf (car & tx & ty & _ & [[_ ->]|(_ & _ & ->)]);
    auto using board_wf_slide, board_wf_span.
Qed.

(** A goal car that a scan finds lies along the exit row. *)
Lemma found_goal_in_row d s x y tx ty :
  on_board y x -> goal_in_lane s -> found d s x y GOAL_CAR tx ty ->
  dir_dy d = 0 /\ y = BOARD_EXIT_Y.
Proof.
  intros Hb [Hrow _] [_ (n & Hn & -> & -> & Hcells) Hbt _].
  pose proof (Hrow _ _ (line_on_board d x y n 1 ltac:(lia) Hb Hbt)
                (Hcells 1 ltac:(lia))) as H1.
  pose proof (Hrow _ _ (line_on_board d x y n 2 ltac:(lia) Hb Hbt)
                (Hcells 2 ltac:(lia))) as H2.
  lia.
Qed.

(** The moves of the search keep the goal car in the exit row and out
    of its last cell. *)
Lemma offered_goal_in_lane d s x y b :
  board_wf s -> on_board y x -> cell_at s y x = SPACE ->
  goal_in_lane s -> offered_at d s x y b -> goal_in_lane b.
Proof.
  intros Hwf Hb Hsp Hlane (car & tx & ty & Hf & Hcase).
  pose proof (found_on_board _ _ _ _ _ _ _ Hf) as Hbt.
  assert (Hb5 : on_board BOARD_EXIT_Y (BOARD_SIZE - 1))
    by (unfold on_board, BOARD_SIZE, BOARD_EXIT_Y; lia).
  assert (Hgoal : car = GOAL_CAR -> dir_dy d = 0 /\ y = BOARD_EXIT_Y).
  { intros ->. eapply found_goal_in_row; eauto. }
  destruct Hlane as [Hrow Hlast].
  destruct Hcase as [[Hexit ->]|(Hexit & Hcar & ->)].
  - split.
    + intros y' x' Hb'. rewrite cell_at_slide by auto.
      repeat case_decide; try discriminate.
      * intros Hc. split_pairs. destruct (Hgoal Hc). lia.
      * now apply Hrow.
    + rewrite cell_at_slide by auto.
      repeat case_decide; try discriminate; auto.
      intros Hc. destruct (Hgoal Hc) as [Hdy Hy]. split_pairs.
      destruct Hf as [_ (n & Hn & -> & -> & _) _ _].
      unfold at_exit in Hexit. unfold on_board in Hbt.
      destruct d; cbn [dir_dx dir_dy] in *; lia.
  - unfold at_exit in Hexit.
    assert (d = ScanLeft) as -> by (destruct d; cbn in Hexit; try discriminate; auto).
    assert (x = BOARD_SIZE - 1 /\ y = BOARD_EXIT_Y) as [-> ->] by (cbn in Hexit; lia).
    assert (Hlo : 0 <= tx + 1) by (unfold on_board in Hbt; lia).
    pose proof Hf as [_ (n & Hn & Htx & _) _ _]. cbn [dir_dx] in Htx.
    split.
    + intros y' x' Hb'.
      rewrite cell_at_span, cell_at_slide
        by (auto using board_wf_slide; unfold BOARD_SIZE, BOARD_EXIT_Y; lia).
      repeat case_decide; try discriminate.
      * intros Hc. split_pairs. lia.
      * now apply Hrow.
    + rewrite cell_at_span
        by (auto using board_wf_slide; unfold BOARD_SIZE, BOARD_EXIT_Y; lia).
      rewrite decide_True; [discriminate|].
      split; [reflexivity|]. unfold on_board in Hbt. lia.
Qed.

(** A board on which the goal car has taken the winning move has the
    goal car in the last cell of the exit row. *)
Lemma winning_board_not_in_lane s x y tx ty :
  board_wf s -> on_board y x -> cell_at s y x = SPACE ->
  wins_at ScanLeft s x y -> found ScanLeft s x y GOAL_CAR tx ty ->
  ~ goal_in_lane (slide s y x GOAL_CAR ty tx).
Proof.
  intros Hwf Hb Hsp [Hexit _] Hf [_ Hlast]. apply Hlast.
  unfold at_exit in Hexit.
  assert (x = BOARD_SIZE - 1 /\ y = BOARD_EXIT_Y) as [-> ->] by (cbn in Hexit; lia).
  pose proof (found_on_board _ _ _ _ _ _ _ Hf) as Hbt.
  destruct (found_far_end _ _ _ _ _ _ _ Hb Hsp Hf) as [Hne _].
  rewrite cell_at_slide by auto.
  rewrite decide_False by exact Hne. now rewrite decide_True.
Qed.

(** Registering a move from the entry that is being explored keeps the
    search breadth-first, and the board is then in the list, one level
    above that entry at most. *)
Lemma register_bfs init idx w b w' :
  running w -> bfs_inv init idx w ->
  0 <= idx < Z.of_nat (length (state_list w)) ->
  board_wf b -> goal_in_lane b -> move (board_at (state_list w) idx) b ->
  CheckAddState b idx w = Ret tt w' ->
  bfs_inv init idx w' /\
  (exists l', state_list w' = state_list w ++ l') /\
  listed (state_list w') b (S (level (state_list w') idx)).
Proof.
  intros (Hinv & _ & _) Hbfs Hidx Hwf Hlane Hmove Hrun.
  pose proof (inv_parents _ Hinv) as Hp.
  destruct (CheckAddState_inv b idx w Hinv Hwf ltac:(lia))
    as (w2 & Hrun2 & Hinv2 & _ & _ & Hcases).
  rewrite Hrun in Hrun2. injection Hrun2 as <-.
  destruct Hcases as [[Hin ->]|[Hnin Hl]].
  - split; [exact Hbfs|]. split; [exists []; now rewrite app_nil_r|].
    destruct (visited_entry w b Hinv Hin) as (j & Hj & Hb).
    exists j. split; [exact Hj|]. split; [exact Hb|].
    apply (bfs_next _ _ _ Hbfs); lia.
  - set (l := state_list w) in *.
    assert (Hlev : level (l ++ [(b, idx)]) idx = level l idx)
      by (apply level_app; auto; lia).
    split; [|split; [now exists [(b, idx)]|]].
    + split; rewrite Hl.
      * rewrite lookup_app_l by lia. apply Hbfs.
      * intros j e He Hj.
        destruct (decide (j < length l)%nat) as [Hlt|Hge].
        -- rewrite lookup_app_l in He by lia.
           destruct (bfs_moves _ _ _ Hbfs j e He Hj) as [H0 Hm].
           pose proof (Hp _ _ He). split; [exact H0|].
           rewrite board_at_app by lia. exact Hm.
        -- apply lookup_lt_Some in He as Hlt. rewrite length_app in Hlt.
           cbn [length] in Hlt. rewrite lookup_app_r in He by lia.
           replace (j - length l)%nat with 0%nat in He by lia.
           injection He as <-. cbn [fst snd]. split; [lia|].
           rewrite board_at_app by lia. exact Hmove.
      * intros j1 j2 Hj12 Hj2. rewrite length_app in Hj2. cbn [length] in Hj2.
        destruct (decide (j2 < Z.of_nat (length l))) as [Hlt|Hge].
        -- rewrite !level_app by (auto; lia). apply (bfs_sorted _ _ _ Hbfs); fold l; lia.
        -- assert (j2 = Z.of_nat (length l)) as -> by lia.
           rewrite (level_snoc l b idx) by (auto; lia).
           destruct (decide (j1 = Z.of_nat (length l))) as [->|Hne].
           ++ rewrite (level_snoc l b idx) by (auto; lia). lia.
           ++ rewrite level_app by (auto; lia). apply (bfs_next _ _ _ Hbfs); fold l; lia.
      * intros j Hj _. rewrite length_app in Hj. cbn [length] in Hj. rewrite Hlev.
        destruct (decide (j < Z.of_nat (length l))) as [Hlt|Hge].
        -- rewrite level_app by (auto; lia). apply (bfs_next _ _ _ Hbfs); fold l; lia.
        -- assert (j = Z.of_nat (length l)) as -> by lia.
           rewrite (level_snoc l b idx) by (auto; lia). lia.
      * intros j Hj. rewrite board_at_app, level_app by (auto; lia).
        destruct (bfs_done _ _ _ Hbfs j Hj) as [Hnw Hall]. split; [exact Hnw|].
        intros b' Hb'. apply listed_app; auto.
      * intros b'. rewrite fmap_app, elem_of_app. cbn.
        rewrite list_elem_of_singleton. intros [Hb'| ->]; auto.
        now apply (bfs_lane _ _ _ Hbfs).
    + rewrite Hl, Hlev. exists (Z.of_nat (length l)).
      rewrite length_app. cbn [length]. split; [lia|].
      split; [apply board_at_snoc|]. rewrite (level_snoc l b idx) by (auto; lia). lia.
Qed.

(** What has been found for a cell stays true when the list grows. *)
Lemma scanned_app idx s cells w w' l' :
  world_inv w -> 0 <= idx < Z.of_nat (length (state_list w)) ->
  state_list w' = state_list w ++ l' ->
  scanned idx s cells w -> scanned idx s cells w'.
Proof.
  intros Hinv Hidx Hl Hsc c d Hc Hsp.
  destruct (Hsc c d Hc Hsp) as [Hnw Hall]. split; [exact Hnw|].
  intros b Hb. rewrite Hl, level_app by (try apply Hinv; lia).
  apply listed_app; [apply Hinv|auto].
Qed.


Lemma holds_bind {A B} (m : M A) (k : A -> M B) w
    (Q' : A -> World -> Prop) (Q : B -> World -> Prop) (E : World -> Prop) :
  holds (m w) Q' E ->
  (forall a w', m w = Ret a w' -> Q' a w' -> holds (k a w') Q E) ->
  holds (bind m k w) Q E.
Proof.
  unfold bind, holds. intros H1 H2. destruct (m w) as [a w1| | |]; auto.
  now apply (H2 a w1).
Qed.

Lemma holds_mono {A} (r : result A) (Q Q' : A -> World -> Prop)
    (E : World -> Prop) :
  holds r Q E -> (forall a w', Q a w' -> Q' a w') -> holds r Q' E.
Proof. unfold holds. destruct r; auto. Qed.

(** What [CheckMove] leaves: when it returns, the search is still
    breadth-first, the scan did not win, and what it offers is in the
    list; when the process leaves, it is after a win. *)
Lemma CheckMove_bfs init d s x y idx w :
  board_wf s -> on_board y x -> cell_at s y x = SPACE -> goal_in_lane s ->
  running w -> bfs_inv init idx w ->
  0 <= idx < Z.of_nat (length (state_list w)) ->
  board_at (state_list w) idx = s ->
  holds (CheckMove (dir_dx d) (dir_dy d) s x y idx w)
    (fun _ w' =>
       bfs_inv init idx w' /\
       (exists l', state_list w' = state_list w ++ l') /\
       ~ wins_at d s x y /\
       forall b, offered_at d s x y b ->
                 listed (state_list w') b (S (level (state_list w') idx)))
    (won init).
Proof.
  intros Hwf Hb Hsp Hlane Hrun Hbfs Hidx Hs.
  destruct (CheckMove_cases d s x y idx Hwf Hb Hsp)
    as [[Hno Hret]|(car & tx & ty & Hf & Heq)].
  { rewrite Hret. cbn. split; [exact Hbfs|].
    split; [exists []; now rewrite app_nil_r|]. split.
    - intros (_ & tx & ty & Hf). now apply Hno in Hf.
    - intros b (car & tx & ty & Hf & _). now apply Hno in Hf. }
  rewrite Heq. unfold after_scan.
  assert (Hkeep : forall b, offered_at d s x y b ->
            holds ((CheckAddState b idx ;;; ret s) w)
              (fun _ w' =>
                 bfs_inv init idx w' /\
                 (exists l', state_list w' = state_list w ++ l') /\
                 ~ wins_at d s x y /\
                 forall b, offered_at d s x y b ->
                           listed (state_list w') b (S (level (state_list w') idx)))
              (won init)).
  { intros b Hoff. unfold bind.
    destruct (CheckAddState b idx w) as [[] w'| | |] eqn:Hadd; cbn; auto.
    2:{ pose proof (CheckAddState_result b idx w) as H. now rewrite Hadd in H. }
    destruct (register_bfs init idx w b w' Hrun Hbfs Hidx) as (Hbfs' & Hext & Hlist); auto.
    - eapply offered_wf; eauto.
    - eapply offered_goal_in_lane; eauto.
    - rewrite Hs. now exists d, x, y.
    - split; [exact Hbfs'|]. split; [exact Hext|]. split.
      + intros (Hexit & tx' & ty' & Hf').
        destruct (found_unique _ _ _ _ _ _ _ _ _ _ Hb Hf Hf') as (Hcar & _ & _).
        destruct Hoff as (car2 & tx2 & ty2 & Hf2 & [[He2 _]|(_ & Hc2 & _)]).
        * congruence.
        * destruct (found_unique _ _ _ _ _ _ _ _ _ _ Hb Hf Hf2) as (Hcar2 & _ & _).
          congruence.
      + intros b' Hoff'.
        assert (b' = b) as ->; [|exact Hlist].
        destruct Hoff as (c1 & tx1 & ty1 & Hf1 & Hcase1).
        destruct Hoff' as (c2 & tx2 & ty2 & Hf2 & Hcase2).
        destruct (found_unique _ _ _ _ _ _ _ _ _ _ Hb Hf1 Hf2) as (-> & -> & ->).
        destruct Hcase1 as [[He1 ->]|(He1 & _ & ->)];
          destruct Hcase2 as [[He2 ->]|(He2 & _ & ->)]; congruence. }
  destruct (at_exit d x y) eqn:Hexit; [destruct (Ascii.eqb car GOAL_CAR) eqn:Hgoal|].
  - apply Ascii.eqb_eq in Hgoal. subst car.
    assert (Hexit' := Hexit). unfold at_exit in Hexit'.
    assert (d = ScanLeft) as -> by (destruct d; cbn in Hexit'; try discriminate; auto).
    assert (x = BOARD_SIZE - 1 /\ y = BOARD_EXIT_Y) as [Hx Hy] by (cbn in Hexit'; lia).
    assert (Hwin : wins_at ScanLeft s x y) by (split; eauto).
    set (b := slide s y x GOAL_CAR ty tx).
    unfold bind.
    destruct (CheckAddState b idx w) as [[] w1| | |] eqn:Hadd; cbn [holds]; auto.
    2:{ pose proof (CheckAddState_result b idx w) as H. now rewrite Hadd in H. }
    pose proof (@PrintSolutionAndQuit_result Board w1) as Hquit.
    destruct (@PrintSolutionAndQuit Board w1) as [? ?|status w'|?|]; cbn [holds];
      auto; try contradiction.
    destruct Hquit as (_ & Hl & _).
    pose proof Hrun as (Hinv & _ & _).
    destruct (CheckAddState_inv b idx w Hinv ltac:(unfold b; auto using board_wf_slide)
                ltac:(lia)) as (w2 & Hadd2 & _ & _ & _ & Hcases).
    rewrite Hadd in Hadd2. injection Hadd2 as <-.
    destruct Hcases as [[Hin _]|[_ Hl1]].
    { exfalso. apply (winning_board_not_in_lane s x y tx ty Hwf Hb Hsp Hwin Hf).
      apply (bfs_lane _ _ _ Hbfs). now apply (inv_set _ Hinv). }
    unfold won. exists idx, w, b. rewrite Hs.
    split; [exact Hrun|]. split; [exact Hbfs|]. split; [exact Hidx|].
    split; [now exists ScanLeft, x, y|].
    split; [exists tx, ty; subst x y; split; [exact Hf|reflexivity]|].
    now rewrite Hl.
  - apply Hkeep. exists car, tx, ty. split; [exact Hf|]. right.
    apply Ascii.eqb_neq in Hgoal. auto.
  - apply Hkeep. exists car, tx, ty. split; [exact Hf|]. left. auto.
Qed.

Lemma dir_done_app idx s x y d w w' l' :
  world_inv w -> 0 <= idx < Z.of_nat (length (state_list w)) ->
  state_list w' = state_list w ++ l' ->
  dir_done idx s x y d w -> dir_done idx s x y d w'.
Proof.
  intros Hinv Hidx Hl [Hnw Hall]. split; [exact Hnw|].
  intros b Hb. rewrite Hl, level_app by (try apply Hinv; lia).
  apply listed_app; [apply Hinv|auto].
Qed.

Lemma CheckMove_bfs_step init d s x y idx w :
  board_wf s -> on_board y x -> cell_at s y x = SPACE -> goal_in_lane s ->
  running w -> bfs_inv init idx w ->
  0 <= idx < Z.of_nat (length (state_list w)) ->
  board_at (state_list w) idx = s ->
  holds (CheckMove (dir_dx d) (dir_dy d) s x y idx w)
    (fun s' w' =>
       s' = s /\ running w' /\ bfs_inv init idx w' /\
       0 <= idx < Z.of_nat (length (state_list w')) /\
       board_at (state_list w') idx = s /\
       (exists l', state_list w' = state_list w ++ l') /\
       dir_done idx s x y d w')
    (won init).
Proof.
  intros Hwf Hb Hsp Hlane Hrun Hbfs Hidx Hs.
  pose proof (CheckMove_bfs init d s x y idx w Hwf Hb Hsp Hlane Hrun Hbfs Hidx Hs) as H.
  pose proof (CheckMove_post d s x y idx w Hwf Hb Hsp Hrun Hidx) as Hp.
  destruct (CheckMove _ _ s x y idx w) as [s' w'| | |]; cbn [holds post] in *; auto.
  destruct Hp as (-> & Hrun' & Hidx'). destruct H as (Hbfs' & [l' Hl] & Hnw & Hall).
  repeat (split; [solve [auto]|]). split; [|split; [eauto|split; auto]].
  rewrite Hl, board_at_app by lia. exact Hs.
Qed.

Lemma explore_cell_bfs init idx y x s w :
  board_wf s -> on_board y x -> goal_in_lane s ->
  running w -> bfs_inv init idx w ->
  0 <= idx < Z.of_nat (length (state_list w)) ->
  board_at (state_list w) idx = s ->
  holds (explore_cell idx y x s w)
    (fun s' w' =>
       s' = s /\ running w' /\ bfs_inv init idx w' /\
       0 <= idx < Z.of_nat (length (state_list w')) /\
       board_at (state_list w') idx = s /\
       (exists l', state_list w' = state_list w ++ l') /\
       scanned idx s [(y, x)] w')
    (won init).
Proof.
  intros Hwf Hb Hlane Hrun Hbfs Hidx Hs. unfold explore_cell.
  rewrite (Cell_on_board _ _ _ Hb), bind_checked_Some.
  destruct (Ascii.eqb (cell_at s y x) SPACE) eqn:Hc; cbn [negb].
  2:{ cbn. repeat (split; [solve [auto]|]). split; [exists []; now rewrite app_nil_r|].
      intros c d Hin%list_elem_of_singleton Hsp. subst c. cbn in Hsp.
      apply Ascii.eqb_neq in Hc. contradiction. }
  apply Ascii.eqb_eq in Hc.
  eapply holds_bind; [apply (CheckMove_bfs_step init ScanRight); eauto|].
  intros s1 w1 _ (-> & Hrun1 & Hbfs1 & Hidx1 & Hs1 & [l1 Hl1] & Hd1).
  eapply holds_bind; [apply (CheckMove_bfs_step init ScanLeft); eauto|].
  intros s2 w2 _ (-> & Hrun2 & Hbfs2 & Hidx2 & Hs2 & [l2 Hl2] & Hd2).
  eapply holds_bind; [apply (CheckMove_bfs_step init ScanDown); eauto|].
  intros s3 w3 _ (-> & Hrun3 & Hbfs3 & Hidx3 & Hs3 & [l3 Hl3] & Hd3).
  eapply holds_mono; [apply (CheckMove_bfs_step init ScanUp); eauto|].
  intros s4 w4 (-> & Hrun4 & Hbfs4 & Hidx4 & Hs4 & [l4 Hl4] & Hd4).
  repeat (split; [solve [auto]|]). split.
  { exists (l1 ++ l2 ++ l3 ++ l4). rewrite Hl4, Hl3, Hl2, Hl1.
    now rewrite <- !app_assoc. }
  intros c d Hin%list_elem_of_singleton _. subst c. cbn [fst snd].
  assert (H3 : dir_done idx s x y ScanDown w4)
    by (eapply dir_done_app; [apply Hrun3|exact Hidx3|exact Hl4|exact Hd3]).
  assert (H2 : dir_done idx s x y ScanLeft w4).
  { eapply dir_done_app; [apply Hrun3|exact Hidx3|exact Hl4|].
    eapply dir_done_app; [apply Hrun2|exact Hidx2|exact Hl3|exact Hd2]. }
  assert (H1 : dir_done idx s x y ScanRight w4).
  { eapply dir_done_app; [apply Hrun3|exact Hidx3|exact Hl4|].
    eapply dir_done_app; [apply Hrun2|exact Hidx2|exact Hl3|].
    eapply dir_done_app; [apply Hrun1|exact Hidx1|exact Hl2|exact Hd1]. }
  destruct d; assumption.
Qed.

Lemma scanned_cons idx s c cells w :
  scanned idx s [c] w -> scanned idx s cells w -> scanned idx s (c :: cells) w.
Proof.
  intros H1 H2 c' d [->|Hin]%elem_of_cons Hsp.
  - apply H1; [left|exact Hsp].
  - now apply H2.
Qed.

Lemma explore_cells_bfs init idx cells : forall s w,
  board_wf s -> Forall (fun c => on_board c.1 c.2) cells -> goal_in_lane s ->
  running w -> bfs_inv init idx w ->
  0 <= idx < Z.of_nat (length (state_list w)) ->
  board_at (state_list w) idx = s ->
  holds (explore_cells idx cells s w)
    (fun s' w' =>
       s' = s /\ running w' /\ bfs_inv init idx w' /\
       0 <= idx < Z.of_nat (length (state_list w')) /\
       board_at (state_list w') idx = s /\
       (exists l', state_list w' = state_list w ++ l') /\
       scanned idx s cells w')
    (won init).
Proof.
  induction cells as [|c cells IH]; intros s w Hwf Hcells Hlane Hrun Hbfs Hidx Hs;
    cbn [explore_cells].
  - cbn. repeat (split; [solve [auto]|]). split; [exists []; now rewrite app_nil_r|].
    intros c d Hin. inversion Hin.
  - apply Forall_cons in Hcells as [Hc Hrest].
    eapply holds_bind; [apply (explore_cell_bfs init); eauto|].
    intros s1 w1 _ (-> & Hrun1 & Hbfs1 & Hidx1 & Hs1 & [l1 Hl1] & Hsc1).
    eapply holds_mono; [apply IH; eauto|].
    intros s2 w2 (-> & Hrun2 & Hbfs2 & Hidx2 & Hs2 & [l2 Hl2] & Hsc2).
    repeat (split; [solve [auto]|]). split.
    { exists (l1 ++ l2). now rewrite Hl2, Hl1, <- app_assoc. }
    destruct c as [y x]. apply scanned_cons; [|exact Hsc2].
    eapply scanned_app; [apply Hrun1|exact Hidx1|exact Hl2|exact Hsc1].
Qed.

Lemma bfs_inv_state_list init idx w w' :
  state_list w' = state_list w -> bfs_inv init idx w -> bfs_inv init idx w'.
Proof. intros Hl [H1 H2 H3 H4 H5 H6]. split; rewrite Hl; auto. Qed.

Lemma on_board_all_cells y x : on_board y x -> (y, x) ∈ all_cells.
Proof.
  intros [Hx Hy]. unfold all_cells.
  apply list_elem_of_bind. exists y. split; [|apply elem_of_seqZ; lia].
  apply list_elem_of_bind. exists x. split; [left|apply elem_of_seqZ; lia].
Qed.

(** When all the cells of entry [idx] are scanned, the entry is done
    with, and the search goes on breadth-first with the next one. *)
Lemma bfs_inv_next init idx w :
  0 <= idx < Z.of_nat (length (state_list w)) ->
  bfs_inv init idx w ->
  scanned idx (board_at (state_list w) idx) all_cells w ->
  bfs_inv init (idx + 1) w.
Proof.
  intros Hidx Hbfs Hsc. destruct Hbfs as [H1 H2 H3 H4 H5 H6]. split; auto.
  - intros j Hj Hlt. etransitivity; [apply H4; lia|].
    apply le_n_S. apply H3; lia.
  - intros j Hj. destruct (decide (j = idx)) as [->|Hne]; [|apply H5; lia].
    split.
    + intros (d & x & y & Hb & Hsp & Hw).
      now destruct (Hsc (y, x) d (on_board_all_cells _ _ Hb) Hsp).
    + intros b (d & x & y & Hb & Hsp & Hoff).
      destruct (Hsc (y, x) d (on_board_all_cells _ _ Hb) Hsp) as [_ Hall]. auto.
Qed.

Lemma explore_state_bfs init idx w :
  running w -> bfs_inv init idx w ->
  0 <= idx < Z.of_nat (length (state_list w)) ->
  holds (explore_state idx w)
    (fun _ w' => running w' /\ bfs_inv init (idx + 1) w' /\
                 idx < Z.of_nat (length (state_list w')))
    (won init).
Proof.
  intros Hrun Hbfs Hidx. unfold explore_state.
  destruct (lookup_lt_is_Some_2 (state_list w) (Z.to_nat idx) ltac:(lia)) as [e He].
  rewrite (bind_Ret _ _ _ _ _ (state_at_lookup idx w e ltac:(lia) He)).
  assert (Hat : board_at (state_list w) idx = e.1)
    by (unfold board_at; now rewrite He).
  assert (Hin : e.1 ∈ (state_list w).*1).
  { apply list_elem_of_fmap. exists e. split; [reflexivity|].
    eapply list_elem_of_lookup_2; eauto. }
  assert (Hwf : board_wf e.1) by (apply (inv_wf _ (proj1 Hrun)); auto).
  assert (Hlane : goal_in_lane e.1) by (apply (bfs_lane _ _ _ Hbfs); auto).
  unfold DEBUG_PROGRESS_OUTPUT.
  assert (Hhead : (if idx `rem` 100 =? 0 then write (Explored idx) else ret tt) w
                  = Ret tt (with_progress_line idx w)).
  { unfold with_progress_line. destruct (_ =? 0); reflexivity. }
  rewrite (bind_Ret _ _ _ _ _ Hhead).
  assert (Hl0 : state_list (with_progress_line idx w) = state_list w).
  { unfold with_progress_line. now destruct (_ =? 0). }
  assert (Hrun0 : running (with_progress_line idx w)).
  { unfold with_progress_line. destruct (_ =? 0); auto.
    now apply running_add_output. }
  eapply holds_bind.
  - rewrite explore_all_cells.
    apply (explore_cells_bfs init idx all_cells e.1 (with_progress_line idx w));
      auto using all_cells_on_board.
    + now apply (bfs_inv_state_list init idx w).
    + now rewrite Hl0.
    + now rewrite Hl0.
  - intros s' w' _ (-> & Hrun' & Hbfs' & Hidx' & Hs' & _ & Hsc). cbn.
    split; [exact Hrun'|]. split; [|lia].
    apply bfs_inv_next; auto. now rewrite Hs'.
Qed.

Lemma search_bfs init fuel : forall idx w,
  running w -> bfs_inv init idx w ->
  0 <= idx <= Z.of_nat (length (state_list w)) ->
  holds (search fuel idx w)
    (fun _ w' => running w' /\
                 bfs_inv init (Z.of_nat (length (state_list w'))) w')
    (won init).
Proof.
  induction fuel as [|fuel IH]; intros idx w Hrun Hbfs Hidx; [exact I|].
  cbn [search]. unfold get_state_list, bind at 1.
  destruct (Z.ltb_spec idx (Z.of_nat (length (state_list w)))) as [Hlt|Hge].
  - eapply holds_bind; [apply (explore_state_bfs init); auto; lia|].
    intros _ w' _ (Hrun' & Hbfs' & Hlt'). apply IH; auto. lia.
  - cbn. split; [exact Hrun|]. now replace (Z.of_nat _) with idx by lia.
Qed.

Lemma chain_of_root l e :
  parents_ok l -> l !! 0%nat = Some e -> chain l 0 = [0].
Proof.
  intros Hp He. pose proof (Hp _ _ He).
  rewrite (chain_step l 0 e), chain_root by (auto; lia). reflexivity.
Qed.

(** [main] runs a breadth-first search: when it returns, every entry
    of the list is done with; when the process leaves, it is after a
    win. *)
Lemma main_bfs init fuel :
  board_wf init -> goal_in_lane init ->
  holds (main fuel init initial_world)
    (fun _ w' => bfs_inv init (Z.of_nat (length (state_list w'))) w' /\
                 world_inv w' /\ state_list w' <> [])
    (won init).
Proof.
  intros Hwf Hlane. unfold main.
  rewrite (bind_Ret _ _ _ _ _ (write_add_output _ _)).
  rewrite (bind_Ret _ _ _ _ _ (write_add_output _ _)).
  rewrite add_output_app.
  set (w0 := add_output initial_world _).
  assert (Hinv0 : world_inv w0).
  { pose proof world_inv_initial as H. destruct H. split; auto. }
  destruct (CheckAddState_inv init (-1) w0 Hinv0 Hwf ltac:(cbn; lia))
    as (w1 & Hadd & Hinv1 & Ho & _ & [[Hin _]|[_ Hl]]).
  { apply (inv_set _ Hinv0) in Hin. inversion Hin. }
  rewrite (bind_Ret _ _ _ _ _ Hadd).
  unfold get_state_list, bind at 1. rewrite Hl. cbn [state_list w0 add_output app length].
  rewrite decide_True by reflexivity. unfold bind at 1. cbn [ret].
  cbn [state_list w0 add_output app] in Hl.
  assert (Hrun1 : running w1).
  { split; [exact Hinv1|]. split; [|rewrite Hl; discriminate].
    rewrite Ho. cbn. repeat constructor. cbn. unfold cannot_find. intros [=]. }
  assert (Hbfs1 : bfs_inv init 0 w1).
  { split; rewrite Hl.
    - reflexivity.
    - intros [|j] e He Hj; [lia|discriminate].
    - intros j1 j2 Hj12 Hj2. cbn in Hj2. assert (j1 = j2) as -> by lia. lia.
    - intros j Hj _. cbn in Hj. assert (j = 0) as -> by lia. lia.
    - intros j Hj. lia.
    - intros b Hb%list_elem_of_singleton. now subst. }
  eapply holds_bind.
  - apply (search_bfs init fuel 0 w1 Hrun1 Hbfs1). rewrite Hl. cbn. lia.
  - intros u w2 _ (Hrun2 & Hbfs2). rewrite (bind_Ret _ _ _ _ _ (write_add_output _ _)).
    cbn. split; [now apply (bfs_inv_state_list init _ w2)|].
    destruct Hrun2 as (Hinv2 & _ & Hne2).
    split; [|exact Hne2]. destruct Hinv2. split; auto.
Qed.

(** ** The path that is written is a shortest one *)

(** Every entry is as many moves away from the initial board as its
    level says. *)
Lemma entry_reach init idx w : bfs_inv init idx w -> world_inv w ->
  forall n j, (j <= n)%nat -> (j < length (state_list w))%nat ->
  exists k, level (state_list w) (Z.of_nat j) = S k /\
            reach init k (board_at (state_list w) (Z.of_nat j)) /\
            path_of_moves (map (board_at (state_list w))
                               (chain (state_list w) (Z.of_nat j))) /\
            last (chain (state_list w) (Z.of_nat j)) = Some (Z.of_nat j) /\
            head (map (board_at (state_list w))
                      (chain (state_list w) (Z.of_nat j))) = Some init /\
            Forall (fun i => 0 <= i <= Z.of_nat j) (chain (state_list w) (Z.of_nat j)).
Proof.
  intros Hbfs Hinv. pose proof (inv_parents _ Hinv) as Hp.
  induction n as [|n IH]; intros j Hn Hj.
  - assert (j = 0%nat) as -> by lia. exists 0%nat.
    pose proof (bfs_root _ _ _ Hbfs) as Hroot.
    unfold level. change (Z.of_nat 0) with 0. rewrite (chain_of_root _ _ Hp Hroot).
    assert (Hb : board_at (state_list w) 0 = init)
      by (unfold board_at; change (Z.to_nat 0) with 0%nat; now rewrite Hroot).
    split; [reflexivity|]. cbn [map]. rewrite Hb.
    split; [constructor|]. split; [constructor|]. split; [reflexivity|].
    split; [reflexivity|]. repeat constructor; lia.
  - destruct (decide (j <= n)%nat) as [Hle|Hgt]; [now apply IH|].
    assert (j = S n) as -> by lia.
    destruct (lookup_lt_is_Some_2 (state_list w) (S n) Hj) as [e He].
    destruct (bfs_moves _ _ _ Hbfs (S n) e He ltac:(lia)) as [H0 Hmove].
    pose proof (Hp _ _ He) as Hfrom.
    destruct (IH (Z.to_nat e.2) ltac:(lia) ltac:(lia))
      as (k & Hk & Hreach & Hpath & Hlast & Hhead & Hall).
    rewrite Z2Nat.id in Hk, Hreach, Hpath, Hlast, Hhead, Hall by lia.
    assert (Hb : board_at (state_list w) (Z.of_nat (S n)) = e.1)
      by (unfold board_at; now rewrite Nat2Z.id, He).
    assert (Hc : chain (state_list w) (Z.of_nat (S n))
                 = chain (state_list w) e.2 ++ [Z.of_nat (S n)]).
    { apply chain_step; auto; [lia|now rewrite Nat2Z.id]. }
    exists (S k). unfold level in *. rewrite Hc, length_app, Hk, Hb, map_app.
    cbn [length map]. rewrite Hb.
    split; [lia|]. split; [econstructor; eauto|].
    split; [|split; [apply last_snoc|split]].
    + eapply path_snoc; [exact Hpath| |exact Hmove].
      rewrite fmap_last, Hlast. reflexivity.
    + destruct (map _ (chain (state_list w) e.2)); [discriminate|exact Hhead].
    + apply Forall_app. split; [|repeat constructor; lia].
      eapply Forall_impl; [exact Hall|]. cbn. intros; lia.
Qed.

(** The heart of the breadth-first search: a board [n] moves away from
    the initial board is in the list, on a chain of at most [n + 1]
    boards, unless an entry that is not done with has a chain of at
    most [n] boards. *)
Lemma reach_listed init idx w : bfs_inv init idx w -> world_inv w ->
  state_list w <> [] ->
  forall n s, reach init n s ->
    listed (state_list w) s (S n) \/
    exists j, idx <= j < Z.of_nat (length (state_list w)) /\
              (level (state_list w) j <= n)%nat.
Proof.
  intros Hbfs Hinv Hne n s Hreach. pose proof (inv_parents _ Hinv) as Hp.
  induction Hreach as [|n s b Hreach IH Hmove].
  - left. exists 0. pose proof (bfs_root _ _ _ Hbfs) as Hroot.
    split; [destruct (state_list w); [contradiction|cbn [length]; lia]|].
    split; [unfold board_at; change (Z.to_nat 0) with 0%nat; now rewrite Hroot|].
    unfold level. now rewrite (chain_of_root _ _ Hp Hroot).
  - destruct IH as [(j & Hj & Hb & Hl)|(j & Hj & Hl)].
    + destruct (decide (j < idx)) as [Hlt|Hge].
      * left. destruct (bfs_done _ _ _ Hbfs j ltac:(lia)) as [_ Hall].
        rewrite Hb in Hall. eapply listed_le; [|apply Hall; exact Hmove]. lia.
      * right. exists j. split; [lia|]. lia.
    + right. exists j. split; [lia|]. lia.
Qed.

Lemma chain_snoc l b from :
  parents_ok l -> 0 <= from < Z.of_nat (length l) ->
  chain (l ++ [(b, from)]) (Z.of_nat (length l))
  = chain l from ++ [Z.of_nat (length l)].
Proof.
  intros Hp Hfrom.
  rewrite (chain_step (l ++ [(b, from)]) (Z.of_nat (length l)) (b, from)).
  - cbn [snd]. now rewrite chain_app by (auto; lia).
  - apply parents_ok_snoc; auto. lia.
  - lia.
  - rewrite Nat2Z.id, lookup_app_r by lia. now rewrite Nat.sub_diag.
Qed.

(** X18: for every 6x6 initial board with the goal car in the exit row
    and not in its last cell, the run of [main] ends, and:

    - when the process leaves, it has written a solution: a list of
      boards that starts with the initial board, each board one move
      of the search from the one before, up to a board from which the
      goal car takes the winning move, and then the board of the win;
      no board from which the goal car can take the winning move is
      fewer moves away from the initial board;
    - when [main] returns 1, the goal car can take the winning move
      from no board that the moves of the search lead to.

    The moves are those the search makes: a car slides one cell, or a
    car that is not the goal car leaves through the exit. *)
Theorem search_finds_shortest_solution init :
  board_wf init -> goal_in_lane init ->
  exists fuel0, forall fuel, (fuel0 <= fuel)%nat ->
    match main fuel init initial_world with
    | Exit status w' =>
        status = 0 /\
        exists out path s b,
          stdout w' = out ++ emit 1 (path ++ [b]) None /\
          head path = Some init /\ last path = Some s /\
          path_of_moves path /\ reach init (length path - 1) s /\
          wins s /\
          (exists tx ty,
             found ScanLeft s (BOARD_SIZE - 1) BOARD_EXIT_Y GOAL_CAR tx ty /\
             b = slide s BOARD_EXIT_Y (BOARD_SIZE - 1) GOAL_CAR ty tx) /\
          forall n s', reach init n s' -> wins s' -> (length path <= S n)%nat
    | Ret v w' =>
        v = 1 /\ forall n s', reach init n s' -> ~ wins s'
    | Abort _ => False
    | Stuck => False
    end.
Proof.
  intros Hwf Hlane. exists (board_count + 1)%nat. intros fuel Hfuel.
  pose proof (main_post fuel init Hwf Hfuel) as Hpost.
  pose proof (main_bfs init fuel Hwf Hlane) as Hholds.
  destruct (main fuel init initial_world) as [v w'|status w'|f|];
    cbn [post holds] in *; try contradiction.
  - destruct Hpost as [-> _]. split; [reflexivity|].
    destruct Hholds as (Hbfs & Hinv & Hne). intros n s' Hreach Hwins.
    destruct (reach_listed init _ w' Hbfs Hinv Hne n s' Hreach)
      as [(j & Hj & Hb & _)|(j & Hj & _)]; [|lia].
    destruct (bfs_done _ _ _ Hbfs j Hj) as [Hnw _]. now rewrite Hb in Hnw.
  - destruct Hpost as [-> (w2 & Hrun2 & ->)]. split; [reflexivity|].
    destruct Hholds as (idx & w & b & Hrun & Hbfs & Hidx & Hwins & Hb & Hl).
    cbn [state_list add_output] in Hl.
    pose proof Hrun as (Hinv & _ & Hne).
    pose proof (inv_parents _ Hinv) as Hp.
    destruct (entry_reach init idx w Hbfs Hinv (Z.to_nat idx) (Z.to_nat idx)
                ltac:(lia) ltac:(lia))
      as (k & Hk & Hreach & Hpath & Hlast & Hhead & Hall).
    rewrite Z2Nat.id in Hk, Hreach, Hpath, Hlast, Hhead, Hall by lia.
    exists (stdout w2), (map (board_at (state_list w)) (chain (state_list w) idx)),
      (board_at (state_list w) idx), b.
    split; [|split; [exact Hhead|split; [|split; [exact Hpath|split; [|split;
             [exact Hwins|split; [exact Hb|]]]]]]].
    + cbn [stdout add_output]. f_equal. unfold solution_output. rewrite Hl.
      rewrite length_app. cbn [length].
      replace (Z.of_nat (length (state_list w) + 1) - 1)
        with (Z.of_nat (length (state_list w))) by lia.
      rewrite chain_snoc by auto. rewrite map_app. cbn [map].
      rewrite board_at_snoc. f_equal. f_equal.
      apply map_ext_Forall. eapply Forall_impl; [exact Hall|].
      cbn. intros i Hi. apply board_at_app. lia.
    + rewrite fmap_last, Hlast. reflexivity.
    + rewrite length_map. unfold level in Hk. rewrite Hk.
      now replace (S k - 1)%nat with k by lia.
    + intros n s' Hreach' Hwins'. rewrite length_map. fold (level (state_list w) idx).
      destruct (reach_listed init idx w Hbfs Hinv Hne n s' Hreach')
        as [(j & Hj & Hbj & Hlj)|(j & Hj & Hlj)].
      * destruct (decide (j < idx)) as [Hlt|Hge].
        -- destruct (bfs_done _ _ _ Hbfs j ltac:(lia)) as [Hnw _].
           now rewrite Hbj in Hnw.
        -- etransitivity; [apply (bfs_sorted _ _ _ Hbfs idx j); lia|].
           exact Hlj.
      * etransitivity; [apply (bfs_sorted _ _ _ Hbfs idx j); lia|].
        lia.
Qed.

Lemma goal_in_lane_test_spec b : goal_in_lane_test b = true -> goal_in_lane b.
Proof.
  unfold goal_in_lane_test. intros [Hall Hlast]%andb_prop. split.
  - intros y x Hb Hc. rewrite forallb_forall in Hall.
    specialize (Hall (y, x)). cbn [fst snd] in Hall.
    apply Ascii.eqb_eq in Hc. rewrite Hc in Hall. cbn [implb] in Hall.
    apply Z.eqb_eq, Hall, list_elem_of_In, on_board_all_cells, Hb.
  - intros Hc. apply Ascii.eqb_eq in Hc. now rewrite Hc in Hlast.
Qed.

(** The theorem applies to the board of the source. *)
Example board_155_goal_in_lane : board_wf board_155 /\ goal_in_lane board_155.
Proof. split; [reflexivity|]. apply goal_in_lane_test_spec. reflexivity. Qed.

(** On [board_exit_lane] the path that is written has five moves: the
    goal car moves one cell, the car [B] leaves the board, the goal
    car moves three more cells, and the last of them is the winning
    move. *)
Example search_on_board_exit_lane :
  let r := main 20 board_exit_lane initial_world in
  let w' := final_world r in
    r = Exit 0 w' /\
    map (board_at (state_list w'))
        (chain (state_list w') (Z.of_nat (length (state_list w')) - 1))
    = [board_exit_lane;
       list_ascii_of_string
         ("      " ++ "      " ++ " XXBB " ++ "      " ++ "      " ++ "      ");
       board_exit_lane_next;
       list_ascii_of_string
         ("      " ++ "      " ++ "  XX  " ++ "      " ++ "      " ++ "      ");
       list_ascii_of_string
         ("      " ++ "      " ++ "   XX " ++ "      " ++ "      " ++ "      ");
       list_ascii_of_string
         ("      " ++ "      " ++ "    XX" ++ "      " ++ "      " ++ "      ")].
Proof.
  cbv zeta. split; vm_compute; reflexivity.
Qed.

(** ** The order of the boards *)

Lemma nat_of_ascii_inj x y : nat_of_ascii x = nat_of_ascii y -> x = y.
Proof.
  intros H. rewrite <- (ascii_nat_embedding x), <- (ascii_nat_embedding y).
  now rewrite H.
Qed.

Lemma memcmp_refl a : forall n, memcmp a a n = 0.
Proof.
  induction a as [|x a IH]; intros [|n]; cbn; auto.
  now rewrite Ascii.eqb_refl.
Qed.

Lemma memcmp_opp a : forall b n, memcmp b a n = - memcmp a b n.
Proof.
  induction a as [|x a IH]; intros [|y b] [|n]; cbn; auto.
  rewrite (Ascii.eqb_sym y x). destruct (Ascii.eqb x y); [apply IH|lia].
Qed.

Lemma memcmp_zero a : forall b n,
  length a = n -> length b = n -> memcmp a b n = 0 -> a = b.
Proof.
  induction a as [|x a IH]; intros [|y b] [|n] Ha Hb; try discriminate; cbn.
  - reflexivity.
  - destruct (Ascii.eqb_spec x y) as [->|Hne].
    + intros H. f_equal. apply (IH b n); auto.
    + intros H. exfalso. apply Hne, nat_of_ascii_inj. lia.
Qed.

Lemma memcmp_trans a : forall b c n,
  length a = n -> length b = n -> length c = n ->
  memcmp a b n < 0 -> memcmp b c n < 0 -> memcmp a c n < 0.
Proof.
  induction a as [|x a IH]; intros [|y b] [|z c] [|n] Ha Hb Hc;
    try discriminate; cbn.
  destruct (Ascii.eqb_spec x y) as [->|Hxy];
    destruct (Ascii.eqb_spec y z) as [->|Hyz].
  - apply IH; auto.
  - auto.
  - rewrite (proj2 (Ascii.eqb_neq _ _) Hxy). auto.
  - destruct (Ascii.eqb_spec x z) as [->|Hxz]; lia.
Qed.

Lemma Board_lt_irrefl a : Board_lt a a = false.
Proof. unfold Board_lt. rewrite memcmp_refl. reflexivity. Qed.

Lemma Board_equiv_eq a b :
  board_wf a -> board_wf b -> Board_equiv a b = true <-> a = b.
Proof.
  intros Ha Hb. unfold Board_equiv, Board_lt. split.
  - intros H. apply (memcmp_zero a b _ Ha Hb).
    rewrite (memcmp_opp a b) in H. lia.
  - intros ->. rewrite memcmp_refl. reflexivity.
Qed.

(** X1: on 6x6 boards [operator<] is a strict total order: no board
    is less than itself, of two boards at most one is less than the
    other, the relation is transitive, and of two different boards one
    is less than the other. *)
Theorem Board_lt_strict_total_order (a b c : Board) :
  board_wf a -> board_wf b -> board_wf c ->
  Board_lt a a = false /\
  (Board_lt a b = true -> Board_lt b a = false) /\
  (Board_lt a b = true -> Board_lt b c = true -> Board_lt a c = true) /\
  (a <> b -> Board_lt a b = true \/ Board_lt b a = true).
Proof.
  intros Ha Hb Hc. split; [apply Board_lt_irrefl|]. unfold Board_lt.
  split; [|split].
  - rewrite (memcmp_opp a b). lia.
  - intros H1 H2. apply Z.ltb_lt. apply Z.ltb_lt in H1, H2.
    now apply (memcmp_trans a b c _ Ha Hb Hc).
  - intros Hne. rewrite (memcmp_opp a b).
    destruct (Z.lt_trichotomy (memcmp a b (Z.to_nat (BOARD_SIZE * BOARD_SIZE))) 0)
      as [Hlt|[Heq|Hgt]]; [left; lia| |right; lia].
    exfalso. apply Hne. now apply (memcmp_zero a b _ Ha Hb).
Qed.

Lemma Board_lt_strict_total_order_witness :
  Board_lt board_exit_lane board_exit_lane = false /\
  (Board_lt board_exit_lane board_155 = true ->
   Board_lt board_155 board_exit_lane = false) /\
  (Board_lt board_exit_lane board_155 = true ->
   Board_lt board_155 board_full = true ->
   Board_lt board_exit_lane board_full = true) /\
  (board_exit_lane <> board_155 ->
   Board_lt board_exit_lane board_155 = true \/
   Board_lt board_155 board_exit_lane = true).
Proof.
  apply (Board_lt_strict_total_order board_exit_lane board_155 board_full);
    reflexivity.
Defined.

(** X2: [std::set<Board>] takes two 6x6 boards for the same element,
    neither being less than the other, exactly when their 36 cells
    agree; so [states_in_list.insert( state ).second] is false exactly
    when this very board has been inserted before. *)
Theorem Board_equiv_iff_same_cells (a b : Board) :
  board_wf a -> board_wf b ->
  Board_equiv a b = true <->
  forall y x, on_board y x -> cell_at a y x = cell_at b y x.
Proof.
  intros Ha Hb. rewrite (Board_equiv_eq a b Ha Hb). split.
  - now intros ->.
  - now apply board_ext.
Qed.

Lemma Board_equiv_iff_same_cells_witness :
  Board_equiv board_exit_lane board_exit_lane_slid = true <->
  forall y x, on_board y x ->
    cell_at board_exit_lane y x = cell_at board_exit_lane_slid y x.
Proof.
  apply (Board_equiv_iff_same_cells board_exit_lane board_exit_lane_slid);
    reflexivity.
Defined.

(** ** The loops of [Print] *)

Lemma print_bind_Printed {A} (m : printed A) : print_bind m Printed = m.
Proof. now destruct m. Qed.

Lemma cell_of_on_board s y x :
  on_board y x -> cell_of s y x = Printed (cell_at s y x).
Proof. intros H. unfold cell_of. now rewrite Cell_on_board. Qed.

Lemma append_nil_r (t : string) : (t ++ EmptyString)%string = t.
Proof.
  induction t as [|a t IH]; [reflexivity|].
  change (String a (t ++ EmptyString)%string = String a t). now rewrite IH.
Qed.

Lemma append_assoc (t1 t2 t3 : string) :
  (t1 ++ (t2 ++ t3))%string = ((t1 ++ t2) ++ t3)%string.
Proof.
  induction t1 as [|a t1 IH]; [reflexivity|].
  change (String a (t1 ++ (t2 ++ t3))%string = String a ((t1 ++ t2) ++ t3)%string).
  now rewrite IH.
Qed.

Lemma string_of_list_ascii_append (l1 l2 : list ascii) :
  string_of_list_ascii (l1 ++ l2)
  = (string_of_list_ascii l1 ++ string_of_list_ascii l2)%string.
Proof.
  induction l1 as [|a l1 IH]; [reflexivity|].
  change (String a (string_of_list_ascii (l1 ++ l2))
          = String a (string_of_list_ascii l1 ++ string_of_list_ascii l2)%string).
  now rewrite IH.
Qed.

Lemma row_between_app s y lo mid hi :
  lo <= mid <= hi ->
  row_between s y lo hi = (row_between s y lo mid ++ row_between s y mid hi)%string.
Proof.
  intros H. unfold row_between.
  replace (hi - lo) with ((mid - lo) + (hi - mid)) by lia.
  rewrite seqZ_app by lia. rewrite fmap_app, string_of_list_ascii_append.
  now replace (lo + (mid - lo)) with mid by lia.
Qed.

Lemma row_between_nil s y lo : row_between s y lo lo = EmptyString.
Proof. unfold row_between. now rewrite Z.sub_diag. Qed.

Lemma row_between_cons s y lo hi :
  lo < hi ->
  row_between s y lo hi = String (cell_at s y lo) (row_between s y (lo + 1) hi).
Proof.
  intros H. unfold row_between. rewrite seqZ_cons by lia.
  replace (Z.succ lo) with (lo + 1) by lia.
  replace (Z.pred (hi - lo)) with (hi - (lo + 1)) by lia. reflexivity.
Qed.

Lemma row_between_snoc s y lo hi :
  lo <= hi ->
  row_between s y lo (hi + 1)
  = (row_between s y lo hi ++ String (cell_at s y hi) EmptyString)%string.
Proof.
  intros H. unfold row_between.
  replace (hi + 1 - lo) with ((hi - lo) + 1) by lia.
  rewrite seqZ_app by lia. rewrite fmap_app.
  replace (lo + (hi - lo)) with hi by lia.
  change (seqZ hi 1) with [hi]. now rewrite string_of_list_ascii_append.
Qed.

Lemma repeat_char_succ c n :
  0 <= n -> repeat_char c (n + 1) = String c (repeat_char c n).
Proof.
  intros H. unfold repeat_char.
  replace (Z.to_nat (n + 1)) with (S (Z.to_nat n)) by lia. reflexivity.
Qed.

Lemma repeat_char_none c n : n <= 0 -> repeat_char c n = EmptyString.
Proof.
  intros H. unfold repeat_char.
  replace (Z.to_nat n) with 0%nat by lia. reflexivity.
Qed.

(** The test of [bCarLeftBoard]: every cell to the right is empty in
    the next board, and empty or a cell of the car in this one. *)
Lemma car_left_board_spec cur next y c (cols : list Z) :
  (forall xx, xx ∈ cols -> on_board y xx) ->
  car_left_board cur next y c cols
  = Printed (forallb (fun xx =>
               Ascii.eqb (cell_at next y xx) SPACE &&
               (Ascii.eqb (cell_at cur y xx) SPACE ||
                Ascii.eqb (cell_at cur y xx) c)) cols).
Proof.
  induction cols as [|xx cols IH]; intros Hc; [reflexivity|].
  assert (Hrest : forall xx', xx' ∈ cols -> on_board y xx')
    by (intros; apply Hc; now right).
  cbn [car_left_board forallb].
  rewrite !cell_of_on_board by (apply Hc; left). cbn [print_bind].
  destruct (Ascii.eqb (cell_at next y xx) SPACE); cbn; [|reflexivity].
  destruct (Ascii.eqb (cell_at cur y xx) SPACE); cbn; [now apply IH|].
  destruct (Ascii.eqb (cell_at cur y xx) c); cbn; [now apply IH|reflexivity].
Qed.

(** The first loop of the special mode writes the cells of the car
    and stops after them. *)
Lemma car_cells_run cur y c (k : nat) : forall fuel x,
  0 <= y < BOARD_SIZE -> 0 <= x -> x + Z.of_nat k <= BOARD_SIZE ->
  (k < fuel)%nat ->
  (forall i, x <= i < x + Z.of_nat k -> cell_at cur y i = c) ->
  (x + Z.of_nat k < BOARD_SIZE -> cell_at cur y (x + Z.of_nat k) <> c) ->
  car_cells fuel cur y c x
  = Printed (row_between cur y x (x + Z.of_nat k), x + Z.of_nat k).
Proof.
  induction k as [|k IH]; intros [|fuel] x Hy Hx Hk Hfuel Hrun Hend; try lia;
    cbn [car_cells].
  - change (Z.of_nat 0) with 0 in *. rewrite Z.add_0_r in *.
    rewrite row_between_nil.
    destruct (Z.ltb_spec x BOARD_SIZE) as [Hlt|Hge]; [|reflexivity].
    rewrite cell_of_on_board by (unfold on_board; lia). cbn [print_bind].
    destruct (Ascii.eqb_spec c (cell_at cur y x)) as [Heq|Hne]; [|reflexivity].
    exfalso. now apply Hend.
  - destruct (Z.ltb_spec x BOARD_SIZE) as [Hlt|Hge]; [|lia].
    rewrite cell_of_on_board by (unfold on_board; lia). cbn [print_bind].
    rewrite (Hrun x) by lia. rewrite Ascii.eqb_refl.
    rewrite (IH fuel (x + 1)); try lia.
    + cbn [print_bind fst snd]. rewrite (row_between_cons cur y x) by lia.
      rewrite (Hrun x) by lia.
      replace (x + 1 + Z.of_nat k) with (x + Z.of_nat (S k)) by lia. reflexivity.
    + intros i Hi. apply Hrun. lia.
    + replace (x + 1 + Z.of_nat k) with (x + Z.of_nat (S k)) by lia. exact Hend.
Qed.

(** The first loop of the special mode ends, at a column that is not
    before the one it starts from. *)
Lemma car_cells_total cur y c fuel : forall x,
  0 <= y < BOARD_SIZE -> 0 <= x <= BOARD_SIZE ->
  BOARD_SIZE - x < Z.of_nat fuel ->
  exists r, car_cells fuel cur y c x = Printed r /\ x <= r.2 <= BOARD_SIZE.
Proof.
  induction fuel as [|fuel IH]; intros x Hy Hx Hfuel; [lia|].
  cbn [car_cells].
  destruct (Z.ltb_spec x BOARD_SIZE) as [Hlt|Hge].
  2:{ eexists. split; [reflexivity|cbn; lia]. }
  rewrite cell_of_on_board by (unfold on_board; lia). cbn [print_bind].
  destruct (Ascii.eqb c (cell_at cur y x)).
  2:{ eexists. split; [reflexivity|cbn; lia]. }
  destruct (IH (x + 1)) as (r & -> & Hr); try lia.
  eexists. split; [reflexivity|cbn; lia].
Qed.

(** The second loop of the special mode writes arrows up to the
    column after the last one. *)
Lemma leave_arrows_spec fuel : forall x,
  x <= BOARD_SIZE + 1 -> BOARD_SIZE + 1 - x < Z.of_nat fuel ->
  leave_arrows fuel x = Printed (repeat_char ">"%char (BOARD_SIZE + 1 - x)).
Proof.
  induction fuel as [|fuel IH]; intros x Hx Hfuel; [lia|].
  - cbn [leave_arrows].
    destruct (Z.ltb_spec x (BOARD_SIZE + 1)) as [Hlt|Hge].
    + rewrite IH by lia. cbn [print_bind].
      replace (BOARD_SIZE + 1 - x) with (BOARD_SIZE + 1 - (x + 1) + 1) by lia.
      rewrite repeat_char_succ by lia. reflexivity.
    + rewrite repeat_char_none by lia. reflexivity.
Qed.

(** A cell that is the same in the two boards is written as it is. *)
Lemma print_cell_same cur next y x :
  on_board y x -> cell_at cur y x = cell_at next y x ->
  print_cell cur next y x = Printed (Char (cell_at cur y x)).
Proof.
  intros Hb Heq. unfold print_cell.
  rewrite !cell_of_on_board by auto. cbn [print_bind].
  rewrite <- Heq, Ascii.eqb_refl. reflexivity.
Qed.

(** A cell of a car that the next board has in the same place, or
    that is not in the special mode, is written as it is. *)
Lemma print_cell_car cur next y x :
  on_board y x -> cell_at cur y x <> SPACE ->
  (cell_at next y x = SPACE -> y = BOARD_EXIT_Y -> x < BOARD_SIZE - 1 ->
   exists xx, x < xx < BOARD_SIZE /\
     (cell_at next y xx <> SPACE \/
      (cell_at cur y xx <> SPACE /\ cell_at cur y xx <> cell_at cur y x))) ->
  print_cell cur next y x = Printed (Char (cell_at cur y x)).
Proof.
  intros Hb Hc Hright. unfold print_cell.
  rewrite !cell_of_on_board by auto. cbn [print_bind].
  destruct (Ascii.eqb (cell_at cur y x) (cell_at next y x)); [reflexivity|].
  cbn [negb]. rewrite (proj2 (Ascii.eqb_neq _ _) Hc).
  destruct (Ascii.eqb_spec (cell_at next y x) SPACE) as [Hn|Hn]; [|reflexivity].
  destruct (Z.eqb_spec y BOARD_EXIT_Y) as [Hy|Hy]; [|reflexivity].
  destruct (Z.ltb_spec x (BOARD_SIZE - 1)) as [Hx|Hx]; [|reflexivity].
  cbn [andb].
  rewrite car_left_board_spec.
  2:{ intros xx Hxx%elem_of_seqZ. unfold on_board in *. lia. }
  destruct (Hright Hn Hy Hx) as (xx & Hxx & Hbad).
  replace (forallb _ _) with false; [reflexivity|].
  symmetry. apply not_true_is_false. intros Hall.
  rewrite forallb_forall in Hall.
  specialize (Hall xx). rewrite <- list_elem_of_In, elem_of_seqZ in Hall.
  specialize (Hall ltac:(lia)).
  apply andb_prop in Hall as [H1 H2]. apply Ascii.eqb_eq in H1.
  apply orb_prop in H2. rewrite !Ascii.eqb_eq in H2.
  destruct Hbad as [?|[? ?]]; [congruence|]. destruct H2; congruence.
Qed.

(** One round of the loop over [x]: it writes something, or it is in
    an empty cell where the next board has a car that no cell next to
    it holds, and the assertion fails. *)
Lemma print_cell_cases cur next y x :
  on_board y x ->
  (exists o, print_cell cur next y x = Printed o) \/
  (print_cell cur next y x = PrintAbort AssertNoMove /\
   cell_at cur y x = SPACE /\ cell_at next y x <> SPACE /\
   CellSafe cur y (x - 1) <> cell_at next y x /\
   CellSafe cur y (x + 1) <> cell_at next y x /\
   CellSafe cur (y - 1) x <> cell_at next y x /\
   CellSafe cur (y + 1) x <> cell_at next y x).
Proof.
  intros Hb. unfold print_cell.
  rewrite !cell_of_on_board by auto. cbn [print_bind].
  destruct (Ascii.eqb_spec (cell_at cur y x) (cell_at next y x)) as [Heq|Hne];
    cbn [negb]; [left; eauto|].
  destruct (Ascii.eqb_spec (cell_at cur y x) SPACE) as [Hsp|Hcar].
  - unfold arrow.
    destruct (Ascii.eqb_spec (CellSafe cur y (x - 1)) (cell_at next y x));
      [left; cbn; eauto|].
    destruct (Ascii.eqb_spec (CellSafe cur y (x + 1)) (cell_at next y x));
      [left; cbn; eauto|].
    destruct (Ascii.eqb_spec (CellSafe cur (y - 1) x) (cell_at next y x));
      [left; cbn; eauto|].
    destruct (Ascii.eqb_spec (CellSafe cur (y + 1) x) (cell_at next y x));
      [left; cbn; eauto|].
    right. cbn. repeat split; auto. congruence.
  - left. destruct (_ && _ && _) eqn:Hmode; [|eauto].
    apply andb_prop in Hmode as [[_ Hy]%andb_prop Hx].
    rewrite car_left_board_spec.
    2:{ intros xx Hxx%elem_of_seqZ. unfold on_board in *. lia. }
    cbn [print_bind]. destruct (forallb _ _); [|eauto].
    destruct (car_cells_total cur y (cell_at cur y x) print_fuel x)
      as (r & -> & Hr); try (unfold on_board, print_fuel, BOARD_SIZE in *; lia).
    cbn [print_bind]. rewrite leave_arrows_spec.
    + cbn. eauto.
    + lia.
    + unfold on_board, print_fuel, BOARD_SIZE in *. lia.
Qed.

Lemma print_row_end fuel cur next y x :
  BOARD_SIZE <= x -> print_row (S fuel) cur next y x = Printed EmptyString.
Proof.
  intros H. cbn [print_row]. destruct (Z.ltb_spec x BOARD_SIZE); [lia|reflexivity].
Qed.

(** The loop over [x] ends; the only assertion that can fail in it is
    the one about the move. *)
Lemma print_row_total cur next y fuel : forall x,
  0 <= y < BOARD_SIZE -> 0 <= x <= BOARD_SIZE ->
  BOARD_SIZE - x < Z.of_nat fuel ->
  match print_row fuel cur next y x with
  | Printed _ => True
  | PrintAbort f => f = AssertNoMove
  | PrintStuck => False
  end.
Proof.
  induction fuel as [|fuel IH]; intros x Hy Hx Hfuel; [lia|].
  cbn [print_row].
  destruct (Z.ltb_spec x BOARD_SIZE) as [Hlt|Hge]; [|exact I].
  destruct (print_cell_cases cur next y x) as [[o ->]|(-> & _)];
    [unfold on_board; lia| |reflexivity].
  cbn [print_bind]. destruct o as [c|t]; [|exact I].
  specialize (IH (x + 1) Hy ltac:(lia) ltac:(lia)).
  destruct (print_row fuel cur next y (x + 1)); cbn; auto.
Qed.

(** With an arrow to draw wherever one is needed, the loop over [x]
    writes the row. *)
Lemma print_row_ok cur next y fuel : forall x,
  has_arrows cur next ->
  0 <= y < BOARD_SIZE -> 0 <= x <= BOARD_SIZE ->
  BOARD_SIZE - x < Z.of_nat fuel ->
  exists t, print_row fuel cur next y x = Printed t.
Proof.
  induction fuel as [|fuel IH]; intros x Harr Hy Hx Hfuel; [lia|].
  cbn [print_row].
  destruct (Z.ltb_spec x BOARD_SIZE) as [Hlt|Hge]; [|eauto].
  assert (Hb : on_board y x) by (unfold on_board; lia).
  destruct (print_cell_cases cur next y x Hb)
    as [[o ->]|(_ & Hsp & Hn & H1 & H2 & H3 & H4)].
  - cbn [print_bind]. destruct o as [c|t]; [|eauto].
    destruct (IH (x + 1) Harr Hy ltac:(lia) ltac:(lia)) as [t ->].
    cbn. eauto.
  - destruct (Harr y x Hb Hsp Hn) as [?|[?|[?|?]]]; contradiction.
Qed.

(** The loop over [x] writes the cells that are the same in the two
    boards as they are. *)
Lemma print_row_prefix cur next y (n : nat) : forall fuel x,
  0 <= y < BOARD_SIZE -> 0 <= x -> x + Z.of_nat n <= BOARD_SIZE ->
  (forall i, x <= i < x + Z.of_nat n -> cell_at cur y i = cell_at next y i) ->
  print_row (n + fuel) cur next y x
  = (t <~ print_row fuel cur next y (x + Z.of_nat n) ;;
     Printed (row_between cur y x (x + Z.of_nat n) ++ t)%string).
Proof.
  induction n as [|n IH]; intros fuel x Hy Hx Hn Hsame.
  - change (Z.of_nat 0) with 0. rewrite Z.add_0_r, row_between_nil.
    cbn [Nat.add]. now destruct (print_row fuel cur next y x).
  - cbn [Nat.add print_row].
    destruct (Z.ltb_spec x BOARD_SIZE) as [Hlt|Hge]; [|lia].
    rewrite print_cell_same by (try apply Hsame; unfold on_board; lia).
    cbn [print_bind]. rewrite (IH fuel (x + 1)) by (try lia; intros; apply Hsame; lia).
    replace (x + 1 + Z.of_nat n) with (x + Z.of_nat (S n)) by lia.
    rewrite (row_between_cons cur y x) by lia.
    now destruct (print_row fuel cur next y (x + Z.of_nat (S n))).
Qed.

(** A row that is the same in the two boards is written as it is. *)
Lemma print_row_same cur next y :
  0 <= y < BOARD_SIZE ->
  (forall x, 0 <= x < BOARD_SIZE -> cell_at cur y x = cell_at next y x) ->
  print_row print_fuel cur next y 0 = Printed (row_from cur y 0).
Proof.
  intros Hy Hsame.
  change print_fuel with (6 + 2)%nat.
  rewrite (print_row_prefix cur next y 6 2 0 Hy); try (unfold BOARD_SIZE; lia).
  - rewrite print_row_end by (unfold BOARD_SIZE; lia). cbn [print_bind].
    now rewrite append_nil_r.
  - intros i Hi. apply Hsame. unfold BOARD_SIZE. lia.
Qed.

(** The special mode: in the exit row, from the first cell where a
    car has gone, with nothing left to its right in the next board,
    the row is written up to the end of the car, and arrows are
    written from there up to the column after the last one. *)
Lemma print_row_leave cur next x e :
  0 <= x < e -> e <= BOARD_SIZE -> x < BOARD_SIZE - 1 ->
  (forall i, 0 <= i < x ->
     cell_at cur BOARD_EXIT_Y i = cell_at next BOARD_EXIT_Y i) ->
  cell_at cur BOARD_EXIT_Y x <> SPACE ->
  (forall i, x <= i < e -> cell_at cur BOARD_EXIT_Y i = cell_at cur BOARD_EXIT_Y x) ->
  (e < BOARD_SIZE -> cell_at cur BOARD_EXIT_Y e <> cell_at cur BOARD_EXIT_Y x) ->
  (forall i, x <= i < BOARD_SIZE -> cell_at next BOARD_EXIT_Y i = SPACE) ->
  (forall i, e <= i < BOARD_SIZE -> cell_at cur BOARD_EXIT_Y i = SPACE) ->
  print_row print_fuel cur next BOARD_EXIT_Y 0
  = Printed (row_between cur BOARD_EXIT_Y 0 e
             ++ repeat_char ">"%char (BOARD_SIZE + 1 - e))%string.
Proof.
  intros Hx He Hx5 Hpre Hcar Hrun Hend Hnext Hcur.
  assert (Hy : 0 <= BOARD_EXIT_Y < BOARD_SIZE) by (unfold BOARD_EXIT_Y, BOARD_SIZE; lia).
  assert (Hfuel : exists f, print_fuel = (Z.to_nat x + S f)%nat).
  { exists (Z.to_nat (BOARD_SIZE + 1 - x)). unfold print_fuel, BOARD_SIZE in *. lia. }
  destruct Hfuel as [f ->].
  rewrite (print_row_prefix cur next BOARD_EXIT_Y (Z.to_nat x) (S f) 0 Hy);
    try lia.
  2:{ intros i Hi. apply Hpre. lia. }
  rewrite Z.add_0_l, Z2Nat.id by lia.
  cbn [print_row]. destruct (Z.ltb_spec x BOARD_SIZE) as [_|Hge]; [|lia].
  unfold print_cell.
  rewrite !cell_of_on_board by (unfold on_board; lia). cbn [print_bind].
  rewrite (Hnext x) by lia.
  rewrite (proj2 (Ascii.eqb_neq _ _) Hcar). cbn [negb].
  rewrite Ascii.eqb_refl, Z.eqb_refl. cbn [andb].
  replace (x <? BOARD_SIZE - 1) with true by (symmetry; lia).
  rewrite car_left_board_spec.
  2:{ intros xx Hxx%elem_of_seqZ. unfold on_board. lia. }
  replace (forallb _ _) with true.
  2:{ symmetry. apply forallb_forall. intros xx Hxx.
      rewrite <- list_elem_of_In, elem_of_seqZ in Hxx.
      rewrite (Hnext xx) by lia. rewrite Ascii.eqb_refl. cbn [andb].
      destruct (decide (xx < e)) as [Hlt|Hge].
      - rewrite (Hrun xx) by lia. rewrite Ascii.eqb_refl. apply orb_true_r.
      - rewrite (Hcur xx) by lia. reflexivity. }
  cbn [print_bind].
  rewrite (car_cells_run cur BOARD_EXIT_Y _ (Z.to_nat (e - x)) print_fuel x Hy);
    try (unfold print_fuel, BOARD_SIZE in *; lia).
  2:{ intros i Hi. apply Hrun. lia. }
  2:{ rewrite Z2Nat.id by lia. replace (x + (e - x)) with e by lia. exact Hend. }
  rewrite Z2Nat.id by lia. replace (x + (e - x)) with e by lia.
  cbn [print_bind fst snd]. rewrite leave_arrows_spec.
  2:{ lia. }
  2:{ unfold print_fuel, BOARD_SIZE in *. lia. }
  cbn [print_bind].
  f_equal. rewrite (row_between_app cur BOARD_EXIT_Y 0 x e) by lia.
  now rewrite append_assoc.
Qed.

(** The loop over [y] puts the rows together. *)
Lemma print_rows_rows indent cur next (f : Z -> string) (rows : list Z) :
  (forall y, y ∈ rows -> print_row print_fuel cur next y 0 = Printed (f y)) ->
  print_rows indent cur next rows
  = Printed (foldr (fun y t => (indent ++ f y ++ newline ++ t)%string)
                   EmptyString rows).
Proof.
  induction rows as [|y rows IH]; intros Hrows; [reflexivity|].
  cbn [print_rows foldr]. rewrite (Hrows y) by left. cbn [print_bind].
  rewrite IH by (intros; apply Hrows; now right). reflexivity.
Qed.

Lemma print_rows_ok indent cur next (rows : list Z) :
  (forall y, y ∈ rows -> exists t, print_row print_fuel cur next y 0 = Printed t) ->
  exists t, print_rows indent cur next rows = Printed t.
Proof.
  induction rows as [|y rows IH]; intros Hrows; [cbn; eauto|].
  cbn [print_rows]. destruct (Hrows y) as [t ->]; [left|]. cbn [print_bind].
  destruct IH as [t' ->]; [intros; apply Hrows; now right|]. cbn. eauto.
Qed.

Lemma print_rows_total indent cur next (rows : list Z) :
  (forall y, y ∈ rows -> 0 <= y < BOARD_SIZE) ->
  match print_rows indent cur next rows with
  | Printed _ => True
  | PrintAbort f => f = AssertNoMove
  | PrintStuck => False
  end.
Proof.
  induction rows as [|y rows IH]; intros Hrows; [exact I|].
  cbn [print_rows].
  pose proof (print_row_total cur next y print_fuel 0 (Hrows y ltac:(left))
                ltac:(unfold BOARD_SIZE; lia)
                ltac:(unfold print_fuel, BOARD_SIZE; lia)) as Hrow.
  destruct (print_row print_fuel cur next y 0); cbn [print_bind]; auto.
  specialize (IH ltac:(intros; apply Hrows; now right)).
  destruct (print_rows indent cur next rows); cbn; auto.
Qed.

(** ** What [Print] writes *)

(** X3: without a next board, [Print] writes the board as it is: for
    each of the six rows the indent, the six cells of the row and the
    end of the line; no assertion fails. *)
Theorem Board_Print_plain (indent : string) (s : Board) :
  Board_Print indent s None = Printed (plain_text indent s).
Proof.
  unfold Board_Print, plain_text. apply print_rows_rows.
  intros y Hy%elem_of_seqZ. apply print_row_same; [lia|reflexivity].
Qed.

(** X4: whatever the two boards are, [Print] ends, and the assertion
    of [Cell] does not fail in it: every cell it reads is on the
    board.  The one assertion that can fail is [assert( false )], for
    a next board that is not one move away. *)
Theorem Board_Print_reads_on_board (indent : string) (cur : Board)
    (next : option Board) :
  Board_Print indent cur next <> PrintStuck /\
  Board_Print indent cur next <> PrintAbort AssertPrintCell.
Proof.
  unfold Board_Print.
  pose proof (print_rows_total indent cur
                (match next with Some b => b | None => cur end)
                (seqZ 0 BOARD_SIZE)) as H.
  specialize (H ltac:(intros y Hy%elem_of_seqZ; lia)). cbv zeta.
  destruct (print_rows _ _ _ _); [split; discriminate| |contradiction].
  subst f. split; discriminate.
Qed.

(** ** The moves of the search, as [Print] draws them *)

(** For a car that has moved one cell, [Print] finds the arrow. *)
Lemma has_arrows_slide d s x y car tx ty :
  board_wf s -> on_board y x -> cell_at s y x = SPACE ->
  found d s x y car tx ty ->
  has_arrows s (slide s y x car ty tx).
Proof.
  intros Hwf Hb Hsp Hf y' x' Hb' Hsp' Hn.
  pose proof (found_on_board _ _ _ _ _ _ _ Hf) as Hbt.
  rewrite cell_at_slide in Hn |- * by auto.
  destruct (decide ((ty, tx) = (y', x'))) as [?|_]; [contradiction|].
  destruct (decide ((y, x) = (y', x'))) as [[= <- <-]|_]; [|contradiction].
  destruct Hf as [_ (n & Hn2 & -> & -> & Hcells) _ _].
  pose proof (Hcells 1 ltac:(lia)) as H1.
  pose proof (line_on_board d x y n 1 ltac:(lia) Hb Hbt) as Hb1.
  rewrite <- (CellSafe_on_board s _ _ Hb1) in H1.
  destruct d; cbn [dir_dx dir_dy] in H1;
    rewrite ?Z.mul_1_l, ?Z.mul_0_r, ?Z.add_0_r in H1.
  - right. left. exact H1.
  - left. exact H1.
  - right. right. right. exact H1.
  - right. right. left. exact H1.
Qed.

(** For a car that has left the board, [Print] needs no arrow. *)
Lemma has_arrows_vacate s x y car tx ty :
  board_wf s -> on_board y x -> cell_at s y x = SPACE ->
  found ScanLeft s x y car tx ty ->
  has_arrows s (span y (tx + 1) x SPACE (slide s y x car ty tx)).
Proof.
  intros Hwf Hb Hsp Hf y' x' Hb' Hsp' Hn.
  pose proof (found_on_board _ _ _ _ _ _ _ Hf) as Hbt.
  exfalso. apply Hn.
  destruct Hf as [_ (n & Hn2 & Htx & Hty & Hcells) _ _].
  cbn [dir_dx dir_dy] in Htx, Hty.
  rewrite cell_at_span, cell_at_slide
    by (auto using board_wf_slide; unfold on_board in *; lia).
  repeat case_decide; auto.
  exfalso. split_pairs.
  match goal with H : ~ (_ /\ _) |- _ => apply H end. lia.
Qed.

(** X5: [Print] can draw every move of the search.  When the scan
    from the empty cell [(y, x)] of a 6x6 board has found a car, and
    the next board is the one with the car moved one cell, or, at the
    exit, the one with the car taken off the board, [Print] writes the
    board with the move and [assert( false )] does not fail. *)
Theorem Board_Print_draws_move (indent : string) (d : direction) (s : Board)
    (x y : Z) (car : ascii) (tx ty : Z) (b : Board) :
  board_wf s -> on_board y x -> cell_at s y x = SPACE ->
  found d s x y car tx ty ->
  b = slide s y x car ty tx \/
  (at_exit d x y = true /\ b = span y (tx + 1) x SPACE (slide s y x car ty tx)) ->
  exists t, Board_Print indent s (Some b) = Printed t.
Proof.
  intros Hwf Hb Hsp Hf Hnext.
  assert (Harr : has_arrows s b).
  { destruct Hnext as [->|[Hexit ->]].
    - now apply (has_arrows_slide d).
    - assert (d = ScanLeft) as -> by (destruct d; cbn in Hexit; congruence).
      now apply has_arrows_vacate. }
  unfold Board_Print. apply print_rows_ok. intros y' Hy'%elem_of_seqZ.
  apply print_row_ok; auto; unfold print_fuel, BOARD_SIZE in *; lia.
Qed.

Lemma Board_Print_draws_move_witness :
  exists t, Board_Print "  " board_155 (Some (slide board_155 3 0 "G" 5 0))
            = Printed t.
Proof.
  apply (Board_Print_draws_move "  " ScanDown board_155 0 3 "G" 0 5).
  - reflexivity.
  - unfold on_board, BOARD_SIZE. lia.
  - reflexivity.
  - exact found_in_board_155.
  - left. reflexivity.
Defined.

(** X6: how [Print] draws a car that leaves the board.  When the scan
    to the left from the last cell of the exit row has found a car,
    and the next board is the one with the car taken off, every row
    but the exit row is written as it is, and the exit row is written
    as its first five cells, the car still in them, and two arrows:
    that line is one character longer than the others. *)
Theorem Board_Print_car_leaves (indent : string) (s : Board) (car : ascii)
    (tx ty : Z) :
  board_wf s -> cell_at s BOARD_EXIT_Y (BOARD_SIZE - 1) = SPACE ->
  found ScanLeft s (BOARD_SIZE - 1) BOARD_EXIT_Y car tx ty ->
  Board_Print indent s
    (Some (span BOARD_EXIT_Y (tx + 1) (BOARD_SIZE - 1) SPACE
             (slide s BOARD_EXIT_Y (BOARD_SIZE - 1) car ty tx)))
  = Printed (leave_text indent s).
Proof.
  intros Hwf Hsp Hf.
  pose proof (found_on_board _ _ _ _ _ _ _ Hf) as Hbt.
  pose proof (found_car _ _ _ _ _ _ _ Hf) as Hcar.
  destruct Hf as [_ (n & Hn2 & Htx & Hty & Hcells) _ _].
  cbn [dir_dx dir_dy] in Htx, Hty, Hcells.
  assert (Hb : on_board BOARD_EXIT_Y (BOARD_SIZE - 1))
    by (unfold on_board, BOARD_EXIT_Y, BOARD_SIZE; lia).
  assert (Hrow : forall i, tx <= i < BOARD_SIZE - 1 -> cell_at s BOARD_EXIT_Y i = car).
  { intros i Hi. rewrite <- (Hcells (BOARD_SIZE - 1 - i)) by lia. f_equal; lia. }
  assert (Hnext : forall y' x', on_board y' x' ->
            cell_at (span BOARD_EXIT_Y (tx + 1) (BOARD_SIZE - 1) SPACE
                       (slide s BOARD_EXIT_Y (BOARD_SIZE - 1) car ty tx)) y' x'
            = if decide (y' = BOARD_EXIT_Y /\ tx <= x') then SPACE
              else cell_at s y' x').
  { intros y' x' Hb'.
    rewrite cell_at_span, cell_at_slide
      by (auto using board_wf_slide; unfold on_board, BOARD_EXIT_Y in *; lia).
    unfold on_board in Hb'.
    repeat case_decide; auto; try split_pairs; try (exfalso; intuition lia).
    all: try (symmetry; intuition congruence). }
  unfold Board_Print, leave_text. apply print_rows_rows.
  intros y' Hy'%elem_of_seqZ.
  destruct (Z.eqb_spec y' BOARD_EXIT_Y) as [->|Hne].
  - rewrite (print_row_leave s _ tx (BOARD_SIZE - 1)).
    + reflexivity.
    + unfold on_board in Hbt. lia.
    + lia.
    + lia.
    + intros i Hi. rewrite Hnext by (unfold on_board, BOARD_EXIT_Y, BOARD_SIZE in *; lia).
      rewrite decide_False by lia. reflexivity.
    + rewrite Hrow by lia. exact Hcar.
    + intros i Hi. rewrite !Hrow by lia. reflexivity.
    + intros _. rewrite Hsp, Hrow by lia. auto.
    + intros i Hi. rewrite Hnext by (unfold on_board, BOARD_EXIT_Y, BOARD_SIZE in *; lia).
      rewrite decide_True by lia. reflexivity.
    + intros i Hi. replace i with (BOARD_SIZE - 1) by lia. exact Hsp.
  - apply print_row_same; [lia|].
    intros x' Hx'. rewrite Hnext by (unfold on_board; lia).
    rewrite decide_False by lia. reflexivity.
Qed.

Lemma Board_Print_car_leaves_witness :
  Board_Print "  " board_exit_lane
    (Some (span BOARD_EXIT_Y (3 + 1) (BOARD_SIZE - 1) SPACE
             (slide board_exit_lane BOARD_EXIT_Y (BOARD_SIZE - 1) "B" 2 3)))
  = Printed (leave_text "  " board_exit_lane).
Proof.
  apply (Board_Print_car_leaves "  " board_exit_lane "B" 3 2).
  - reflexivity.
  - reflexivity.
  - exact found_in_board_exit_lane.
Defined.

(** X7: the special mode of [Print] does not tell a car that leaves
    the board from a car that moves up or down out of the exit row.
    When the scan up or down from the empty cell [(y, x)] has found a
    car whose far end lies in the exit row, left of the last column,
    with nothing but empty cells to its right, the next board being
    the one with the car moved one cell, the exit row is written as
    its cells up to the car, and then arrows up to the column after
    the last one, as for a car that leaves the board. *)
Theorem Board_Print_exit_row_of_crossing_car (d : direction) (s : Board)
    (x y : Z) (car : ascii) (tx ty : Z) :
  board_wf s -> on_board y x -> cell_at s y x = SPACE ->
  found d s x y car tx ty ->
  dir_dx d = 0 -> ty = BOARD_EXIT_Y -> x < BOARD_SIZE - 1 ->
  (forall i, x < i < BOARD_SIZE -> cell_at s BOARD_EXIT_Y i = SPACE) ->
  print_row print_fuel s (slide s y x car ty tx) BOARD_EXIT_Y 0
  = Printed (row_between s BOARD_EXIT_Y 0 (x + 1)
             ++ repeat_char ">"%char (BOARD_SIZE - x))%string.
Proof.
  intros Hwf Hb Hsp Hf Hdx Hty Hx Hright.
  pose proof (found_on_board _ _ _ _ _ _ _ Hf) as Hbt.
  pose proof (found_car _ _ _ _ _ _ _ Hf) as Hcar.
  destruct (found_far_end _ _ _ _ _ _ _ Hb Hsp Hf) as [Hne Hfar].
  destruct Hf as [_ (n & Hn2 & Htx & Hty' & Hcells) _ _].
  rewrite Hdx, Z.mul_0_r, Z.add_0_r in Htx. subst tx ty.
  rewrite Hty in *.
  assert (Hy : y <> BOARD_EXIT_Y) by (destruct d; cbn in *; lia).
  assert (Hnext : forall x', 0 <= x' < BOARD_SIZE ->
            cell_at (slide s y x car BOARD_EXIT_Y x) BOARD_EXIT_Y x'
            = if decide (x' = x) then SPACE else cell_at s BOARD_EXIT_Y x').
  { intros x' Hx'.
    rewrite cell_at_slide by (auto; unfold on_board, BOARD_EXIT_Y, BOARD_SIZE in *; lia).
    repeat case_decide; auto; try split_pairs; try congruence; exfalso; lia. }
  replace (BOARD_SIZE - x) with (BOARD_SIZE + 1 - (x + 1)) by lia.
  unfold on_board in Hb.
  apply (print_row_leave s _ x (x + 1)); try lia.
  - intros i Hi. rewrite Hnext by lia. rewrite decide_False by lia. reflexivity.
  - now rewrite Hfar.
  - intros i Hi. now replace i with x by lia.
  - intros Hlt. rewrite Hright, Hfar by lia. auto.
  - intros i Hi. rewrite Hnext by lia.
    destruct (decide (i = x)); [reflexivity|]. apply Hright. lia.
  - intros i Hi. apply Hright. lia.
Qed.

Lemma found_in_board_car_down : found ScanUp board_car_down 2 4 "A" 2 2.
Proof.
  split.
  - discriminate.
  - exists 2. repeat split; try lia. intros k Hk.
    assert (k = 1 \/ k = 2) as [-> | ->] by lia; reflexivity.
  - unfold on_board, BOARD_SIZE. lia.
  - intros _. discriminate.
Qed.

Lemma Board_Print_exit_row_of_crossing_car_witness :
  print_row print_fuel board_car_down (slide board_car_down 4 2 "A" 2 2)
    BOARD_EXIT_Y 0
  = Printed (row_between board_car_down BOARD_EXIT_Y 0 (2 + 1)
             ++ repeat_char ">"%char (BOARD_SIZE - 2))%string.
Proof.
  apply (Board_Print_exit_row_of_crossing_car ScanUp board_car_down 2 4 "A" 2 2).
  - reflexivity.
  - unfold on_board, BOARD_SIZE. lia.
  - reflexivity.
  - exact found_in_board_car_down.
  - reflexivity.
  - reflexivity.
  - unfold BOARD_SIZE. lia.
  - intros i Hi. unfold BOARD_SIZE in Hi.
    assert (i = 3 \/ i = 4 \/ i = 5) as [-> | [-> | ->]] by lia; reflexivity.
Defined.

(** ** What [main] writes *)

Lemma search_output_succ init idx :
  0 <= idx ->
  search_output init (idx + 1)
  = search_output init idx
    ++ (if idx `rem` 100 =? 0 then [Explored idx] else []).
Proof.
  intros Hidx. unfold search_output.
  rewrite seqZ_app by lia. rewrite filter_app, fmap_app, !app_assoc.
  f_equal. rewrite Z.add_0_l. change (seqZ idx 1) with [idx].
  destruct (Z.eqb_spec (idx `rem` 100) 0) as [Heq|Hne].
  - rewrite filter_cons_True by exact Heq. reflexivity.
  - rewrite filter_cons_False by exact Hne. reflexivity.
Qed.

Lemma register_out state idx_state w (E : World -> Prop) :
  running w -> board_wf state ->
  -1 <= idx_state < Z.of_nat (length (state_list w)) ->
  post (CheckAddState state idx_state w)
    (fun _ w' => running w' /\
                 (length (state_list w) <= length (state_list w'))%nat /\
                 stdout w' = stdout w) E.
Proof.
  intros (Hinv & Hq & Hne) Hwf Hidx.
  destruct (CheckAddState_inv state idx_state w Hinv Hwf Hidx)
    as (w' & -> & Hinv' & Ho & _ & [[_ ->]|[_ Hl]]); cbn.
  - split; [split; auto|]. split; [lia|reflexivity].
  - split; [split; [auto|split]|split].
    + now rewrite Ho.
    + rewrite Hl. now destruct (state_list w).
    + rewrite Hl, length_app. lia.
    + exact Ho.
Qed.

Lemma PrintSolutionAndQuit_out {A} w (Q : A -> World -> Prop) :
  running w -> post (@PrintSolutionAndQuit A w) Q (solved_after (stdout w)).
Proof.
  intros Hrun. pose proof Hrun as (Hinv & Hq & Hne).
  destruct (@PrintSolutionAndQuit_spec A w (inv_parents _ Hinv) Hne) as (Hquit & _).
  rewrite Hquit. cbn. split; [reflexivity|].
  exists w. split; [exact Hrun|]. split; reflexivity.
Qed.

Lemma after_scan_out out d s x y idx_state car tx ty w :
  board_wf s -> on_board y x -> found d s x y car tx ty ->
  running w -> 0 <= idx_state < Z.of_nat (length (state_list w)) ->
  stdout w = out ->
  post (after_scan d s x y idx_state car tx ty w)
       (exploring_quietly out idx_state s) (solved_after out).
Proof.
  intros Hwf Hb Hf Hrun Hidx Hout. unfold after_scan.
  assert (Hkeep : forall b, board_wf b ->
            post ((CheckAddState b idx_state ;;; ret s) w)
                 (exploring_quietly out idx_state s) (solved_after out)).
  { intros b Hwfb. eapply post_bind.
    - apply (register_out b idx_state w (solved_after out)); auto. lia.
    - intros _ w' (Hrun' & Hlen & Hout'). cbn.
      split; [|congruence]. split; [reflexivity|]. split; [exact Hrun'|lia]. }
  destruct (at_exit d x y); [destruct (Ascii.eqb car GOAL_CAR)|].
  - eapply post_bind.
    + apply (register_out _ idx_state w (solved_after out));
        auto using board_wf_slide. lia.
    + intros _ w' (Hrun' & _ & Hout'). rewrite <- Hout, <- Hout'.
      now apply PrintSolutionAndQuit_out.
  - apply Hkeep. auto using board_wf_slide, board_wf_span.
  - apply Hkeep. auto using board_wf_slide.
Qed.

Lemma CheckMove_out out d s x y idx_state w :
  board_wf s -> on_board y x -> cell_at s y x = SPACE ->
  running w -> 0 <= idx_state < Z.of_nat (length (state_list w)) ->
  stdout w = out ->
  post (CheckMove (dir_dx d) (dir_dy d) s x y idx_state w)
       (exploring_quietly out idx_state s) (solved_after out).
Proof.
  intros Hwf Hb Hsp Hrun Hidx Hout.
  destruct (CheckMove_cases d s x y idx_state Hwf Hb Hsp)
    as [[_ Hret]|(car & tx & ty & Hf & Heq)].
  - rewrite Hret. cbn. split; [|exact Hout].
    split; [reflexivity|split; [exact Hrun|exact Hidx]].
  - rewrite Heq. now apply after_scan_out.
Qed.

Lemma explore_cell_out out idx_state y x s w :
  board_wf s -> on_board y x ->
  running w -> 0 <= idx_state < Z.of_nat (length (state_list w)) ->
  stdout w = out ->
  post (explore_cell idx_state y x s w)
       (exploring_quietly out idx_state s) (solved_after out).
Proof.
  intros Hwf Hb Hrun Hidx Hout. unfold explore_cell.
  rewrite (Cell_on_board _ _ _ Hb), bind_checked_Some.
  destruct (Ascii.eqb (cell_at s y x) SPACE) eqn:Hc; cbn [negb].
  2:{ cbn. split; [|exact Hout].
      split; [reflexivity|split; [exact Hrun|exact Hidx]]. }
  apply Ascii.eqb_eq in Hc.
  eapply post_bind; [apply (CheckMove_out out ScanRight); auto|].
  intros s1 w1 ((-> & Hrun1 & Hidx1) & Hout1).
  eapply post_bind; [apply (CheckMove_out out ScanLeft); auto|].
  intros s2 w2 ((-> & Hrun2 & Hidx2) & Hout2).
  eapply post_bind; [apply (CheckMove_out out ScanDown); auto|].
  intros s3 w3 ((-> & Hrun3 & Hidx3) & Hout3).
  apply (CheckMove_out out ScanUp); auto.
Qed.

Lemma explore_out out idx_state s w :
  board_wf s ->
  running w -> 0 <= idx_state < Z.of_nat (length (state_list w)) ->
  stdout w = out ->
  post (explore idx_state s w)
       (exploring_quietly out idx_state s) (solved_after out).
Proof.
  intros Hwf Hrun Hidx Hout. unfold explore.
  apply post_for_range; [split; [split; auto|exact Hout]|].
  intros y s1 w1 Hy ((-> & Hrun1 & Hidx1) & Hout1).
  apply post_for_range; [split; [split; auto|exact Hout1]|].
  intros x s2 w2 Hx ((-> & Hrun2 & Hidx2) & Hout2).
  apply explore_cell_out; auto. unfold on_board. unfold BOARD_SIZE in *. lia.
Qed.

Lemma explore_state_out init idx_state w :
  running w -> 0 <= idx_state < Z.of_nat (length (state_list w)) ->
  stdout w = search_output init idx_state ->
  post (explore_state idx_state w)
       (fun _ w' => running w' /\
                    idx_state < Z.of_nat (length (state_list w')) /\
                    stdout w' = search_output init (idx_state + 1))
       (solved_after (search_output init (idx_state + 1))).
Proof.
  intros Hrun Hidx Hout. unfold explore_state.
  destruct (lookup_lt_is_Some_2 (state_list w) (Z.to_nat idx_state) ltac:(lia))
    as [e He].
  rewrite (bind_Ret _ _ _ _ _ (state_at_lookup idx_state w e ltac:(lia) He)).
  assert (Hwf : board_wf e.1).
  { destruct Hrun as (Hinv & _). apply (inv_wf _ Hinv).
    apply list_elem_of_fmap. exists e. split; [reflexivity|].
    eapply list_elem_of_lookup_2; eauto. }
  unfold DEBUG_PROGRESS_OUTPUT.
  eapply post_bind with
    (Q' := fun _ w' => running w' /\
                       0 <= idx_state < Z.of_nat (length (state_list w')) /\
                       stdout w' = search_output init (idx_state + 1)).
  - rewrite search_output_succ by lia.
    destruct (_ =? 0); cbn.
    + split; [now apply running_add_output|]. split; [exact Hidx|].
      now rewrite Hout.
    + split; [exact Hrun|]. split; [exact Hidx|]. now rewrite Hout, app_nil_r.
  - intros _ w1 (Hrun1 & Hidx1 & Hout1). eapply post_bind.
    + now apply (explore_out (search_output init (idx_state + 1))).
    + intros s' w2 ((_ & Hrun2 & Hidx2) & Hout2). cbn.
      split; [auto|]. split; [lia|exact Hout2].
Qed.

Lemma search_out init fuel : forall idx_state w,
  running w -> 0 <= idx_state <= Z.of_nat (length (state_list w)) ->
  Z.of_nat board_count + 1 - idx_state <= Z.of_nat fuel ->
  stdout w = search_output init idx_state ->
  post (search fuel idx_state w)
       (fun _ w' => running w' /\
                    stdout w' = search_output init (Z.of_nat (length (state_list w'))))
       (fun w' => exists k, idx_state <= k /\
                            solved_after (search_output init (k + 1)) w').
Proof.
  induction fuel as [|fuel IH]; intros idx_state w Hrun Hidx Hfuel Hout.
  - pose proof (state_list_bounded w (proj1 Hrun)). lia.
  - cbn [search]. unfold get_state_list, bind at 1.
    destruct (Z.ltb_spec idx_state (Z.of_nat (length (state_list w)))) as [Hlt|Hge].
    + eapply post_bind.
      * eapply post_mono; [apply (explore_state_out init); auto; lia| |].
        -- intros a w' H. exact H.
        -- intros w' H. exists idx_state. split; [lia|exact H].
      * intros _ w' (Hrun' & Hlt' & Hout').
        eapply post_mono; [apply IH; auto; lia| |].
        -- intros a w2 H. exact H.
        -- intros w2 (k & Hk & H). exists k. split; [lia|exact H].
    + cbn. split; [exact Hrun|].
      now replace (Z.of_nat (length (state_list w))) with idx_state by lia.
Qed.

Lemma main_out fuel init :
  board_wf init ->
  (board_count + 1 <= fuel)%nat ->
  post (main fuel init initial_world)
       (fun v w' =>
          stdout w' = search_output init (Z.of_nat (length (state_list w')))
                      ++ [Text cannot_find])
       (fun w' => exists k, 0 <= k /\
                            solved_after (search_output init (k + 1)) w').
Proof.
  intros Hwf Hfuel. unfold main.
  rewrite (bind_Ret _ _ _ _ _ (write_add_output _ _)).
  rewrite (bind_Ret _ _ _ _ _ (write_add_output _ _)).
  rewrite add_output_app.
  set (w0 := add_output initial_world _).
  assert (Hinv0 : world_inv w0).
  { pose proof world_inv_initial as H. destruct H. split; auto. }
  destruct (CheckAddState_inv init (-1) w0 Hinv0 Hwf ltac:(cbn; lia))
    as (w1 & Hadd & Hinv1 & Ho & _ & [[Hin _]|[_ Hl]]).
  { apply (inv_set _ Hinv0) in Hin. inversion Hin. }
  rewrite (bind_Ret _ _ _ _ _ Hadd).
  unfold get_state_list, bind at 1. rewrite Hl. cbn [state_list w0 add_output app length].
  rewrite decide_True by reflexivity. unfold bind at 1. cbn [ret].
  assert (Hrun1 : running w1).
  { split; [exact Hinv1|]. split; [|rewrite Hl; discriminate].
    rewrite Ho. cbn. repeat constructor. cbn. unfold cannot_find. intros [=]. }
  eapply post_bind.
  - apply (search_out init fuel 0 w1 Hrun1); [rewrite Hl; cbn; lia|lia|].
    rewrite Ho. reflexivity.
  - intros u w2 [Hrun2 Hout2].
    rewrite (bind_Ret _ _ _ _ _ (write_add_output _ _)). cbn.
    now rewrite Hout2.
Qed.

(** X8: what a run of [main] writes, for every 6x6 initial board.
    First the heading and the initial board; then, while the search
    explores the entries of [state_list] one after the other, the line
    "...explored N board states" before every entry whose index N is a
    multiple of 100, and nothing else; and last either the solution,
    when the process leaves, or the line "Cannot find solution!",
    when [main] returns, and then every entry has been explored. *)
Theorem main_writes_progress_then_verdict (init : Board) :
  board_wf init ->
  exists fuel0, forall fuel, (fuel0 <= fuel)%nat ->
    match main fuel init initial_world with
    | Ret _ w' =>
        stdout w' = search_output init (Z.of_nat (length (state_list w')))
                    ++ [Text cannot_find]
    | Exit _ w' =>
        exists k, 0 <= k /\
          stdout w' = search_output init (k + 1)
                      ++ solution_output (state_list w')
    | Abort _ => False
    | Stuck => False
    end.
Proof.
  intros Hwf. exists (board_count + 1)%nat. intros fuel Hfuel.
  pose proof (main_out fuel init Hwf Hfuel) as Hpost.
  destruct (main fuel init initial_world) as [v w'|status w'|f|];
    cbn [post] in Hpost; try contradiction.
  - exact Hpost.
  - destruct Hpost as [_ (k & Hk & w & _ & Hout & ->)].
    exists k. split; [exact Hk|]. cbn. now rewrite Hout.
Qed.

Lemma main_writes_progress_then_verdict_witness :
  exists fuel0, forall fuel, (fuel0 <= fuel)%nat ->
    match main fuel board_155 initial_world with
    | Ret _ w' =>
        stdout w' = search_output board_155 (Z.of_nat (length (state_list w')))
                    ++ [Text cannot_find]
    | Exit _ w' =>
        exists k, 0 <= k /\
          stdout w' = search_output board_155 (k + 1)
                      ++ solution_output (state_list w')
    | Abort _ => False
    | Stuck => False
    end.
Proof. apply (main_writes_progress_then_verdict board_155). reflexivity. Defined.

(** ** The output can be written *)

Lemma print_rows_has_arrows indent cur next :
  has_arrows cur next ->
  exists t, print_rows indent cur next (seqZ 0 BOARD_SIZE) = Printed t.
Proof.
  intros Harr. apply print_rows_ok. intros y' Hy'%elem_of_seqZ.
  apply print_row_ok; auto; unfold print_fuel, BOARD_SIZE in *; lia.
Qed.

Lemma has_arrows_same s : has_arrows s s.
Proof. intros y x _ Hsp Hn. contradiction. Qed.

Lemma renders_plain indent s : renders (Print indent s None) = true.
Proof.
  unfold renders, Board_Print.
  now destruct (print_rows_has_arrows indent s s (has_arrows_same s)) as [t ->].
Qed.

Lemma renders_move indent s b :
  board_wf s -> move s b -> renders (Print indent s (Some b)) = true.
Proof.
  intros Hwf (d & x & y & Hb & Hsp & car & tx & ty & Hf & Hcases).
  assert (Harr : has_arrows s b).
  { destruct Hcases as [[_ ->]|(Hexit & _ & ->)].
    - now apply (has_arrows_slide d).
    - assert (d = ScanLeft) as -> by (destruct d; cbn in Hexit; congruence).
      now apply has_arrows_vacate. }
  unfold renders, Board_Print.
  now destruct (print_rows_has_arrows indent s b Harr) as [t ->].
Qed.

Lemma renders_win indent s tx ty :
  board_wf s -> wins s ->
  found ScanLeft s (BOARD_SIZE - 1) BOARD_EXIT_Y GOAL_CAR tx ty ->
  renders (Print indent s
             (Some (slide s BOARD_EXIT_Y (BOARD_SIZE - 1) GOAL_CAR ty tx))) = true.
Proof.
  intros Hwf (d & x & y & Hb & Hsp & Hexit & _) Hf.
  unfold at_exit in Hexit.
  assert (x = BOARD_SIZE - 1 /\ y = BOARD_EXIT_Y) as [-> ->] by lia.
  pose proof (has_arrows_slide ScanLeft s _ _ _ _ _ Hwf Hb Hsp Hf) as Harr.
  unfold renders, Board_Print.
  now destruct (print_rows_has_arrows indent s _ Harr) as [t ->].
Qed.

Lemma renders_search_output init idx :
  Forall (fun o => renders o = true) (search_output init idx).
Proof.
  unfold search_output. apply Forall_app. split.
  - repeat constructor. apply renders_plain.
  - apply Forall_fmap. apply Forall_forall. intros; reflexivity.
Qed.

(** The boards of a path of moves are 6x6 boards when the first is. *)
Lemma path_of_moves_wf p :
  path_of_moves p -> (forall b, head p = Some b -> board_wf b) ->
  Forall board_wf p.
Proof.
  induction 1 as [b|p s b Hp IH Hlast Hmove]; intros Hhead.
  - repeat constructor. now apply Hhead.
  - assert (Hall : Forall board_wf p).
    { apply IH. intros b' Hb'. apply Hhead. destruct p; [discriminate|exact Hb']. }
    apply Forall_app. split; [exact Hall|]. repeat constructor.
    destruct Hmove as (d & x & y & _ & _ & Hoff).
    apply (offered_wf d s x y); [|exact Hoff].
    rewrite Forall_forall in Hall. apply Hall.
    apply last_Some in Hlast as [p' ->]. apply elem_of_app. right. left.
Qed.

(** [Print] can draw the boards of a path of moves, each with the one
    after it. *)
Lemma renders_emit p :
  path_of_moves p -> Forall board_wf p ->
  forall n s next, last p = Some s ->
    renders (Print "  " s next) = true ->
    Forall (fun o => renders o = true) (emit n p next).
Proof.
  induction 1 as [b|p s0 b Hp IH Hlast Hmove]; intros Hwf n s next Hs Hnext.
  - injection Hs as ->. cbn. repeat constructor. exact Hnext.
  - rewrite last_snoc in Hs. injection Hs as ->.
    apply Forall_app in Hwf as [Hwfp _].
    rewrite emit_snoc. apply Forall_app. split.
    + apply (IH Hwfp n s0 (Some s) Hlast). apply renders_move; [|exact Hmove].
      rewrite Forall_forall in Hwfp. apply Hwfp.
      apply last_Some in Hlast as [p' ->]. apply elem_of_app. right. left.
    + repeat constructor. exact Hnext.
Qed.

(** After a win, the solution that is written is a path of moves from
    the initial board, and then the board of the win. *)
Lemma won_solution init w' :
  won init w' ->
  exists path s b tx ty,
    solution_output (state_list w') = emit 1 (path ++ [b]) None /\
    head path = Some init /\ last path = Some s /\ path_of_moves path /\
    wins s /\
    found ScanLeft s (BOARD_SIZE - 1) BOARD_EXIT_Y GOAL_CAR tx ty /\
    b = slide s BOARD_EXIT_Y (BOARD_SIZE - 1) GOAL_CAR ty tx.
Proof.
  intros (idx & w & b & Hrun & Hbfs & Hidx & Hwins & (tx & ty & Hf & Hb) & Hl).
  pose proof Hrun as (Hinv & _ & Hne).
  pose proof (inv_parents _ Hinv) as Hp.
  destruct (entry_reach init idx w Hbfs Hinv (Z.to_nat idx) (Z.to_nat idx)
              ltac:(lia) ltac:(lia))
    as (k & Hk & Hreach & Hpath & Hlast & Hhead & Hall).
  rewrite Z2Nat.id in Hk, Hreach, Hpath, Hlast, Hhead, Hall by lia.
  exists (map (board_at (state_list w)) (chain (state_list w) idx)),
    (board_at (state_list w) idx), b, tx, ty.
  split; [|split; [exact Hhead|split; [|split; [exact Hpath|split;
           [exact Hwins|split; [exact Hf|exact Hb]]]]]].
  - unfold solution_output. rewrite Hl.
    rewrite length_app. cbn [length].
    replace (Z.of_nat (length (state_list w) + 1) - 1)
      with (Z.of_nat (length (state_list w))) by lia.
    rewrite chain_snoc by auto. rewrite map_app. cbn [map].
    rewrite board_at_snoc. f_equal. f_equal.
    apply map_ext_Forall. eapply Forall_impl; [exact Hall|].
    cbn. intros i Hi. apply board_at_app. lia.
  - rewrite fmap_last, Hlast. reflexivity.
Qed.

(** X9: [Print] can write every board of a run.  For every 6x6
    initial board with the goal car in the exit row and not in its
    last cell, the run of [main] ends, and for every board in its
    output, the initial board and the boards of the solution with the
    moves between them, [Print] writes it: no assertion fails in
    [Print], [assert( false )] included. *)
Theorem main_output_can_be_printed (init : Board) :
  board_wf init -> goal_in_lane init ->
  exists fuel0, forall fuel, (fuel0 <= fuel)%nat ->
    match main fuel init initial_world with
    | Ret _ w' => Forall (fun o => renders o = true) (stdout w')
    | Exit _ w' => Forall (fun o => renders o = true) (stdout w')
    | Abort _ => False
    | Stuck => False
    end.
Proof.
  intros Hwf Hlane. exists (board_count + 1)%nat. intros fuel Hfuel.
  pose proof (main_out fuel init Hwf Hfuel) as Hpost.
  pose proof (main_bfs init fuel Hwf Hlane) as Hholds.
  destruct (main fuel init initial_world) as [v w'|status w'|f|];
    cbn [post holds] in *; try contradiction.
  - rewrite Hpost. apply Forall_app. split; [apply renders_search_output|].
    repeat constructor.
  - destruct Hpost as [_ (k & Hk & w & _ & Hout & Hw')].
    assert (Hstd : stdout w' = search_output init (k + 1)
                               ++ solution_output (state_list w'))
      by (rewrite Hw'; cbn; now rewrite Hout).
    rewrite Hstd. apply Forall_app. split; [apply renders_search_output|].
    destruct (won_solution init w' Hholds)
      as (path & s & b & tx & ty & -> & Hhead & Hlast & Hpath & Hwins & Hf & ->).
    assert (Hwfp : Forall board_wf path).
    { apply path_of_moves_wf; [exact Hpath|].
      intros b' Hb'. rewrite Hhead in Hb'. now injection Hb' as <-. }
    assert (Hwfs : board_wf s).
    { rewrite Forall_forall in Hwfp. apply Hwfp.
      apply last_Some in Hlast as [p' ->]. apply elem_of_app. right. left. }
    rewrite emit_snoc. apply Forall_app. split.
    + apply (renders_emit path Hpath Hwfp 1 s _ Hlast).
      now apply renders_win.
    + repeat constructor. apply renders_plain.
Qed.

Lemma main_output_can_be_printed_witness :
  exists fuel0, forall fuel, (fuel0 <= fuel)%nat ->
    match main fuel board_155 initial_world with
    | Ret _ w' => Forall (fun o => renders o = true) (stdout w')
    | Exit _ w' => Forall (fun o => renders o = true) (stdout w')
    | Abort _ => False
    | Stuck => False
    end.
Proof.
  apply (main_output_can_be_printed board_155); apply board_155_goal_in_lane.
Defined.

(** ** [CheckMove] is logically constant *)

(** X10: [CheckMove] is logically constant, as its comment says.  On
    a 6x6 board, called for an empty cell, whenever it returns it has
    put the board it was given back as it was, cell by cell; it has
    written nothing; and it has left the two globals as they were, or
    has registered one new board, as coming from [idx_state], at the
    end of [state_list]. *)
Theorem CheckMove_restores_board (d : direction) (s : Board)
    (x y idx_state : Z) (w : World) (s' : Board) (w' : World) :
  board_wf s -> on_board y x -> cell_at s y x = SPACE ->
  CheckMove (dir_dx d) (dir_dy d) s x y idx_state w = Ret s' w' ->
  s' = s /\ stdout w' = stdout w /\
  (w' = w \/
   exists b, (b ∉ states_in_list w) /\
     state_list w' = state_list w ++ [(b, idx_state)] /\
     states_in_list w' = {[ b ]} ∪ states_in_list w).
Proof.
  intros Hwf Hb Hsp Hrun.
  destruct (CheckMove_cases d s x y idx_state Hwf Hb Hsp)
    as [[_ Hret]|(car & tx & ty & Hf & Heq)].
  - rewrite Hret in Hrun. injection Hrun as <- <-. auto.
  - rewrite Heq in Hrun. unfold after_scan in Hrun.
    assert (Hkeep : forall b,
              (CheckAddState b idx_state ;;; ret s) w = Ret s' w' ->
              s' = s /\ stdout w' = stdout w /\
              (w' = w \/
               exists b, (b ∉ states_in_list w) /\
                 state_list w' = state_list w ++ [(b, idx_state)] /\
                 states_in_list w' = {[ b ]} ∪ states_in_list w)).
    { intros b Hb'. apply bind_Ret_inv in Hb' as ([] & w1 & Hadd & Hret).
      injection Hret as <- <-.
      pose proof (CheckAddState_result b idx_state w) as Hres.
      rewrite Hadd in Hres. destruct Hres as (_ & Ho & Hold & Hnew).
      split; [reflexivity|]. split; [exact Ho|].
      destruct (decide (b ∈ states_in_list w)) as [Hin|Hnin].
      - left. now apply Hold.
      - right. exists b. split; [exact Hnin|]. now apply Hnew. }
    destruct (at_exit d x y); [destruct (Ascii.eqb car GOAL_CAR)|]; eauto.
    apply bind_Ret_inv in Hrun as ([] & w1 & _ & Hquit).
    pose proof (@PrintSolutionAndQuit_result Board w1) as Hres.
    rewrite Hquit in Hres. contradiction.
Qed.

Lemma CheckMove_restores_board_witness :
  let r := CheckMove 0 1 board_155 0 3 0 initial_world in
  let w' := final_world r in
  board_155 = board_155 /\ stdout w' = stdout initial_world /\
  (w' = initial_world \/
   exists b, (b ∉ states_in_list initial_world) /\
     state_list w' = state_list initial_world ++ [(b, 0)] /\
     states_in_list w' = {[ b ]} ∪ states_in_list initial_world).
Proof.
  cbv zeta.
  apply (CheckMove_restores_board ScanDown board_155 0 3 0 initial_world).
  - reflexivity.
  - unfold on_board, BOARD_SIZE. lia.
  - reflexivity.
  - vm_compute. reflexivity.
Defined.

(** ** The boards the search reaches *)

(** X11: the goal car stays in its lane.  Every board that the moves
    of the search lead to, from a 6x6 initial board with the goal car
    in the exit row and not in its last cell, is a 6x6 board with the
    goal car in the exit row and not in its last cell: the goal car
    comes to the last cell by the winning move only. *)
Theorem reach_keeps_goal_in_lane (init : Board) (n : nat) (b : Board) :
  board_wf init -> goal_in_lane init -> reach init n b ->
  board_wf b /\ goal_in_lane b.
Proof.
  intros Hwf Hlane. induction 1 as [|n s b Hreach [IHwf IHlane] Hmove]; [auto|].
  destruct Hmove as (d & x & y & Hb & Hsp & Hoff). split.
  - now apply (offered_wf d s x y).
  - now apply (offered_goal_in_lane d s x y).
Qed.

(** X12: when the search gives up, it has seen everything.  For every
    6x6 initial board with the goal car in the exit row and not in its
    last cell, the run of [main] ends, and when [main] returns,
    [state_list] holds exactly the boards that the moves of the search
    lead to from the initial board, each of them once. *)
Theorem exhausted_list_is_what_can_be_reached (init : Board) :
  board_wf init -> goal_in_lane init ->
  exists fuel0, forall fuel, (fuel0 <= fuel)%nat ->
    match main fuel init initial_world with
    | Ret _ w' =>
        NoDup (state_list w').*1 /\
        forall b, b ∈ (state_list w').*1 <-> exists n, reach init n b
    | Exit _ _ => True
    | Abort _ => False
    | Stuck => False
    end.
Proof.
  intros Hwf Hlane. exists (board_count + 1)%nat. intros fuel Hfuel.
  pose proof (main_post fuel init Hwf Hfuel) as Hpost.
  pose proof (main_bfs init fuel Hwf Hlane) as Hholds.
  destruct (main fuel init initial_world) as [v w'|status w'|f|];
    cbn [post holds] in *; try contradiction; [|exact I].
  destruct Hholds as (Hbfs & Hinv & Hne).
  split; [apply Hinv|]. intros b. split.
  - intros Hb. apply list_elem_of_fmap in Hb as (e & -> & He).
    apply list_elem_of_lookup in He as (j & He).
    apply lookup_lt_Some in He as Hlt.
    destruct (entry_reach init _ w' Hbfs Hinv j j ltac:(lia) Hlt)
      as (k & _ & Hreach & _).
    exists k. unfold board_at in Hreach. now rewrite Nat2Z.id, He in Hreach.
  - intros [n Hreach].
    destruct (reach_listed init _ w' Hbfs Hinv Hne n b Hreach)
      as [(j & Hj & Hb & _)|(j & Hj & _)]; [|lia].
    unfold board_at in Hb.
    destruct (state_list w' !! Z.to_nat j) as [e|] eqn:He.
    + subst b. apply list_elem_of_fmap. exists e. split; [reflexivity|].
      eapply list_elem_of_lookup_2; eauto.
    + apply lookup_ge_None in He. lia.
Qed.

Lemma exhausted_list_is_what_can_be_reached_witness :
  exists fuel0, forall fuel, (fuel0 <= fuel)%nat ->
    match main fuel board_full initial_world with
    | Ret _ w' =>
        NoDup (state_list w').*1 /\
        forall b, b ∈ (state_list w').*1 <-> exists n, reach board_full n b
    | Exit _ _ => True
    | Abort _ => False
    | Stuck => False
    end.
Proof.
  apply (exhausted_list_is_what_can_be_reached board_full).
  - reflexivity.
  - apply goal_in_lane_test_spec. reflexivity.
Defined.

(** X13: the two globals stay consistent.  For every 6x6 initial
    board, when the run of [main] ends, by a return or through
    [exit], [states_in_list] holds exactly the boards of [state_list];
    no board is twice in [state_list]; the two sizes agree; every
    entry but the first, which has -1, comes from an entry before it;
    and every board in the list is a 6x6 board. *)
Theorem main_keeps_globals_consistent (init : Board) :
  board_wf init ->
  exists fuel0, forall fuel, (fuel0 <= fuel)%nat ->
    match main fuel init initial_world with
    | Ret _ w' => world_inv w'
    | Exit _ w' => world_inv w'
    | Abort _ => False
    | Stuck => False
    end.
Proof.
  intros Hwf. exists (board_count + 1)%nat. intros fuel Hfuel.
  pose proof (main_post fuel init Hwf Hfuel) as Hpost.
  destruct (main fuel init initial_world) as [v w'|status w'|f|];
    cbn [post] in Hpost; try contradiction.
  - destruct Hpost as [_ (w & (Hinv & _) & ->)]. destruct Hinv. split; auto.
  - destruct Hpost as [_ (w & (Hinv & _) & ->)]. destruct Hinv. split; auto.
Qed.

Lemma main_keeps_globals_consistent_witness :
  exists fuel0, forall fuel, (fuel0 <= fuel)%nat ->
    match main fuel board_155 initial_world with
    | Ret _ w' => world_inv w'
    | Exit _ w' => world_inv w'
    | Abort _ => False
    | Stuck => False
    end.
Proof. apply (main_keeps_globals_consistent board_155). reflexivity. Defined.

(** ** The cells of the cars *)

Lemma lookup_cell s y x :
  board_wf s -> on_board y x -> s !! offset y x = Some (cell_at s y x).
Proof.
  intros Hwf Hb. apply board_wf_length in Hwf.
  destruct (lookup_lt_is_Some_2 s (offset y x)) as [a Ha].
  { rewrite Hwf. now apply offset_lt. }
  unfold cell_at. now rewrite nth_lookup, Ha.
Qed.

Lemma cells_with_middle c (l1 l2 : list ascii) a :
  cells_with c (l1 ++ a :: l2)
  = (cells_with c l1 + (if decide (a = c) then 1 else 0) + cells_with c l2)%nat.
Proof.
  unfold cells_with. rewrite filter_app, filter_cons, length_app.
  destruct (decide (a = c)); cbn [length]; lia.
Qed.

(** Writing a cell changes the number of cells of a car by the cell
    that is lost and the cell that is won. *)
Lemma cells_with_insert c s y x a :
  board_wf s -> on_board y x ->
  (cells_with c (<[offset y x := a]> s)
   + (if decide (cell_at s y x = c) then 1 else 0)
   = cells_with c s + (if decide (a = c) then 1 else 0))%nat.
Proof.
  intros Hwf Hb. pose proof (lookup_cell s y x Hwf Hb) as Hl.
  rewrite insert_take_drop by (eapply lookup_lt_Some; eauto).
  rewrite cells_with_middle.
  assert (Hs : cells_with c s
               = cells_with c (take (offset y x) s
                               ++ cell_at s y x :: drop (S (offset y x)) s))
    by now rewrite take_drop_middle.
  rewrite Hs, cells_with_middle. lia.
Qed.

Lemma cells_with_foldl_space c y (l : list Z) : forall s,
  board_wf s -> c <> SPACE ->
  (forall xx, xx ∈ l -> on_board y xx /\ cell_at s y xx <> c) ->
  cells_with c (foldl (fun s xx => <[offset y xx := SPACE]> s) s l)
  = cells_with c s.
Proof.
  induction l as [|xx l IH]; intros s Hwf Hc Hl; [reflexivity|].
  cbn [foldl]. destruct (Hl xx ltac:(left)) as [Hb Hxx].
  rewrite IH; auto using board_wf_insert.
  - pose proof (cells_with_insert c s y xx SPACE Hwf Hb) as H.
    rewrite decide_False in H by exact Hxx.
    rewrite decide_False in H by congruence. lia.
  - intros xx' Hxx'. destruct (Hl xx' ltac:(now right)) as [Hb' Hc'].
    split; [exact Hb'|]. rewrite cell_at_insert by auto.
    destruct (decide _); [congruence|exact Hc'].
Qed.

Lemma cells_with_slide c d s x y car tx ty :
  board_wf s -> on_board y x -> cell_at s y x = SPACE ->
  found d s x y car tx ty ->
  cells_with c (slide s y x car ty tx) = cells_with c s.
Proof.
  intros Hwf Hb Hsp Hf.
  pose proof (found_on_board _ _ _ _ _ _ _ Hf) as Hbt.
  destruct (found_far_end _ _ _ _ _ _ _ Hb Hsp Hf) as [Hne Hfar].
  unfold slide.
  pose proof (cells_with_insert c s y x car Hwf Hb) as H1.
  pose proof (cells_with_insert c (<[offset y x := car]> s) ty tx SPACE
                (board_wf_insert _ _ _ Hwf) Hbt) as H2.
  rewrite cell_at_insert_ne in H2 by (auto; congruence).
  rewrite Hsp in H1. rewrite Hfar in H2.
  destruct (decide (SPACE = c)); destruct (decide (car = c)); lia.
Qed.

(** X14: a move keeps every car as long as it was.  When the scan
    from the empty cell [(y, x)] of a 6x6 board has found a car, the
    board with the car moved one cell holds every character in as
    many cells as the board before: the cells are the same, two of
    them exchanged. *)
Theorem slide_keeps_every_car (c : ascii) (d : direction) (s : Board)
    (x y : Z) (car : ascii) (tx ty : Z) :
  board_wf s -> on_board y x -> cell_at s y x = SPACE ->
  found d s x y car tx ty ->
  cells_with c (slide s y x car ty tx) = cells_with c s.
Proof.
  intros Hwf Hb Hsp Hf.
  pose proof (found_on_board _ _ _ _ _ _ _ Hf) as Hbt.
  destruct (found_far_end _ _ _ _ _ _ _ Hb Hsp Hf) as [Hne Hfar].
  unfold slide.
  pose proof (cells_with_insert c s y x car Hwf Hb) as H1.
  pose proof (cells_with_insert c (<[offset y x := car]> s) ty tx SPACE
                (board_wf_insert _ _ _ Hwf) Hbt) as H2.
  rewrite cell_at_insert_ne in H2 by (auto; congruence).
  rewrite Hsp in H1. rewrite Hfar in H2.
  destruct (decide (SPACE = c)); destruct (decide (car = c)); lia.
Qed.

Lemma slide_keeps_every_car_witness :
  cells_with "G" (slide board_155 3 0 "G" 5 0) = cells_with "G" board_155.
Proof.
  apply (slide_keeps_every_car "G" ScanDown board_155 0 3 "G" 0 5).
  - reflexivity.
  - unfold on_board, BOARD_SIZE. lia.
  - reflexivity.
  - exact found_in_board_155.
Defined.

Lemma reach_wf init n b : board_wf init -> reach init n b -> board_wf b.
Proof.
  intros Hwf. induction 1 as [|n s b Hreach IH Hmove]; [auto|].
  destruct Hmove as (d & x & y & _ & _ & Hoff). now apply (offered_wf d s x y).
Qed.

(** X15: the search never touches the length of the goal car.  Every
    board that the moves of the search lead to from a 6x6 initial
    board holds the goal car in as many cells as the initial board:
    no move shortens it, and it is never the car that is taken off
    the board. *)
Theorem reach_keeps_goal_car (init : Board) (n : nat) (b : Board) :
  board_wf init -> reach init n b ->
  cells_with GOAL_CAR b = cells_with GOAL_CAR init.
Proof.
  intros Hwf. induction 1 as [|n s b Hreach IH Hmove]; [reflexivity|].
  pose proof (reach_wf init n s Hwf Hreach) as Hwfs.
  rewrite <- IH.
  destruct Hmove as (d & x & y & Hb & Hsp & car & tx & ty & Hf & Hcases).
  destruct Hcases as [[_ ->]|(Hexit & Hcar & ->)].
  - now apply (cells_with_slide GOAL_CAR d).
  - assert (d = ScanLeft) as -> by (destruct d; cbn in Hexit; congruence).
    rewrite <- (cells_with_slide GOAL_CAR ScanLeft s x y car tx ty) by auto.
    pose proof (found_on_board _ _ _ _ _ _ _ Hf) as Hbt.
    destruct Hf as [_ (k & Hk & Htx & Hty & Hcells) _ _].
    cbn [dir_dx dir_dy] in Htx, Hty, Hcells.
    unfold span. apply cells_with_foldl_space; [auto using board_wf_slide|discriminate|].
    intros xx Hxx%elem_of_seqZ.
    assert (Hbx : on_board y xx) by (unfold on_board in *; lia).
    split; [exact Hbx|]. rewrite cell_at_slide by auto.
    repeat case_decide; [discriminate|congruence|].
    split_pairs.
    rewrite <- (Hcells (x - xx)) in Hcar by lia.
    replace (y + (x - xx) * 0) with y in Hcar by lia.
    replace (x + (x - xx) * -1) with xx in Hcar by lia.
    congruence.
Qed.

Lemma reach_board_exit_lane_vacated :
  reach board_exit_lane 1 board_exit_lane_vacated.
Proof.
  apply (reach_move _ 0%nat board_exit_lane); [constructor|].
  exists ScanLeft, 5, 2. split; [unfold on_board, BOARD_SIZE; lia|].
  split; [reflexivity|]. exists "B"%char, 3, 2.
  split; [exact found_in_board_exit_lane|]. right.
  split; [reflexivity|]. split; [discriminate|reflexivity].
Qed.

Lemma reach_keeps_goal_car_witness :
  cells_with GOAL_CAR board_exit_lane_vacated
  = cells_with GOAL_CAR board_exit_lane.
Proof.
  apply (reach_keeps_goal_car board_exit_lane 1 board_exit_lane_vacated).
  - reflexivity.
  - exact reach_board_exit_lane_vacated.
Defined.

Lemma reach_keeps_goal_in_lane_witness :
  board_wf board_exit_lane_vacated /\ goal_in_lane board_exit_lane_vacated.
Proof.
  apply (reach_keeps_goal_in_lane board_exit_lane 1 board_exit_lane_vacated).
  - reflexivity.
  - apply goal_in_lane_test_spec. reflexivity.
  - exact reach_board_exit_lane_vacated.
Defined.

(** ** The macro [txty_on_board] *)

(** X16: the macro [txty_on_board] tests one side of the board only,
    the one the scan moves to, and that is enough: from a cell of the
    board, [k] steps along the scan, the macro is true exactly when
    the cell is on the board, in each of the four directions. *)
Theorem txty_on_board_is_the_bounds_test (d : direction) (tx ty k : Z) :
  on_board ty tx -> 0 <= k ->
  txty_on_board (dir_dx d) (dir_dy d) (tx + k * dir_dx d) (ty + k * dir_dy d)
  = in_bounds (ty + k * dir_dy d) (tx + k * dir_dx d).
Proof.
  unfold on_board, txty_on_board, in_bounds, BOARD_SIZE. intros Hb Hk.
  destruct d; cbn [dir_dx dir_dy]; lia.
Qed.

Lemma txty_on_board_is_the_bounds_test_witness :
  txty_on_board (dir_dx ScanLeft) (dir_dy ScanLeft)
    (1 + 2 * dir_dx ScanLeft) (2 + 2 * dir_dy ScanLeft)
  = in_bounds (2 + 2 * dir_dy ScanLeft) (1 + 2 * dir_dx ScanLeft).
Proof.
  apply (txty_on_board_is_the_bounds_test ScanLeft 1 2 2).
  - unfold on_board, BOARD_SIZE. lia.
  - lia.
Defined.

(** ** The arrow of a move *)

(** X17: the arrow points the way the car moves.  When the scan from
    the empty cell [(y, x)] of a 6x6 board has found a car, and of the
    four cells next to [(y, x)] only the one the scan starts with
    holds the character of that car, then, the next board being the
    one with the car moved one cell, [Print] writes in the cell
    [(y, x)] the arrow that points from the car into the empty cell:
    to the right for a car on the left, and so on. *)
Theorem Print_arrow_points_the_way (d : direction) (s : Board) (x y : Z)
    (car : ascii) (tx ty : Z) :
  board_wf s -> on_board y x -> cell_at s y x = SPACE ->
  found d s x y car tx ty ->
  (forall d', d' <> d ->
     CellSafe s (y + dir_dy d') (x + dir_dx d') <> car) ->
  print_cell s (slide s y x car ty tx) y x = Printed (Char (arrow_of d)).
Proof.
  intros Hwf Hb Hsp Hf Hothers.
  pose proof (found_on_board _ _ _ _ _ _ _ Hf) as Hbt.
  pose proof (found_car _ _ _ _ _ _ _ Hf) as Hcar.
  destruct (found_far_end _ _ _ _ _ _ _ Hb Hsp Hf) as [Hne _].
  assert (Hfirst : CellSafe s (y + dir_dy d) (x + dir_dx d) = car).
  { destruct Hf as [_ (n & Hn2 & -> & -> & Hcells) _ _].
    pose proof (line_on_board d x y n 1 ltac:(lia) Hb Hbt) as Hb1.
    rewrite !Z.mul_1_l in Hb1. rewrite (CellSafe_on_board s _ _ Hb1).
    rewrite <- (Hcells 1) by lia. now rewrite !Z.mul_1_l. }
  unfold print_cell. rewrite !cell_of_on_board by auto. cbn [print_bind].
  rewrite cell_at_slide by auto.
  rewrite decide_False by exact Hne. rewrite decide_True by reflexivity.
  rewrite Hsp. rewrite (proj2 (Ascii.eqb_neq SPACE car)) by congruence.
  cbn [negb]. rewrite Ascii.eqb_refl. unfold arrow.
  pose proof (Hothers ScanRight) as HR. pose proof (Hothers ScanLeft) as HL.
  pose proof (Hothers ScanDown) as HD. pose proof (Hothers ScanUp) as HU.
  cbn [dir_dx dir_dy] in HR, HL, HD, HU.
  rewrite ?Z.add_0_r in HR, HL, HD, HU.
  change (x + -1) with (x - 1) in HL. change (y + -1) with (y - 1) in HU.
  destruct d; cbn [dir_dx dir_dy arrow_of] in Hfirst |- *;
    rewrite ?Z.add_0_r in Hfirst;
    change (x + -1) with (x - 1) in Hfirst;
    change (y + -1) with (y - 1) in Hfirst.
  - rewrite (proj2 (Ascii.eqb_neq _ _) (HL ltac:(discriminate))).
    rewrite Hfirst, Ascii.eqb_refl. reflexivity.
  - rewrite Hfirst, Ascii.eqb_refl. reflexivity.
  - rewrite (proj2 (Ascii.eqb_neq _ _) (HL ltac:(discriminate))).
    rewrite (proj2 (Ascii.eqb_neq _ _) (HR ltac:(discriminate))).
    rewrite (proj2 (Ascii.eqb_neq _ _) (HU ltac:(discriminate))).
    rewrite Hfirst, Ascii.eqb_refl. reflexivity.
  - rewrite (proj2 (Ascii.eqb_neq _ _) (HL ltac:(discriminate))).
    rewrite (proj2 (Ascii.eqb_neq _ _) (HR ltac:(discriminate))).
    rewrite Hfirst, Ascii.eqb_refl. reflexivity.
Qed.

Lemma Print_arrow_points_the_way_witness :
  print_cell board_155 (slide board_155 3 0 "G" 5 0) 3 0
  = Printed (Char (arrow_of ScanDown)).
Proof.
  apply (Print_arrow_points_the_way ScanDown board_155 0 3 "G" 0 5).
  - reflexivity.
  - unfold on_board, BOARD_SIZE. lia.
  - reflexivity.
  - exact found_in_board_155.
  - intros d' Hd'. destruct d'; try discriminate. congruence.
Defined.

(** ** The shortest solution, on the board of the source *)

Lemma search_finds_shortest_solution_witness :
  exists fuel0, forall fuel, (fuel0 <= fuel)%nat ->
    match main fuel board_155 initial_world with
    | Exit status w' =>
        status = 0 /\
        exists out path s b,
          stdout w' = out ++ emit 1 (path ++ [b]) None /\
          head path = Some board_155 /\ last path = Some s /\
          path_of_moves path /\ reach board_155 (length path - 1) s /\
          wins s /\
          (exists tx ty,
             found ScanLeft s (BOARD_SIZE - 1) BOARD_EXIT_Y GOAL_CAR tx ty /\
             b = slide s BOARD_EXIT_Y (BOARD_SIZE - 1) GOAL_CAR ty tx) /\
          forall n s', reach board_155 n s' -> wins s' -> (length path <= S n)%nat
    | Ret v w' =>
        v = 1 /\ forall n s', reach board_155 n s' -> ~ wins s'
    | Abort _ => False
    | Stuck => False
    end.
Proof.
  apply (search_finds_shortest_solution board_155); apply board_155_goal_in_lane.
Defined.

(** ** Writing a cell and reading it back *)

(** X19: [SetCell] and then [Cell].  On a 6x6 board, for a cell of
    the board, [SetCell] does not fail; the board is still a 6x6
    board; [Cell] and [CellSafe] read from that cell the character
    that was written; and for every other pair of coordinates, on the
    board or off it, they give what they gave before. *)
Theorem SetCell_then_Cell (s : Board) (y x : Z) (c : ascii) :
  board_wf s -> on_board y x ->
  exists s',
    SetCell s y x c = Some s' /\ board_wf s' /\
    Cell s' y x = Some c /\ CellSafe s' y x = c /\
    forall y' x', (y', x') <> (y, x) ->
      Cell s' y' x' = Cell s y' x' /\ CellSafe s' y' x' = CellSafe s y' x'.
Proof.
  intros Hwf Hb. exists (<[offset y x := c]> s).
  split; [now apply SetCell_on_board|].
  split; [now apply board_wf_insert|].
  split; [rewrite Cell_on_board by auto; f_equal; now apply cell_at_insert_eq|].
  split; [rewrite CellSafe_on_board by auto; now apply cell_at_insert_eq|].
  intros y' x' Hne.
  destruct (in_bounds y' x') eqn:Hin.
  - apply in_bounds_on_board in Hin.
    rewrite !Cell_on_board, !CellSafe_on_board by auto.
    rewrite cell_at_insert_ne by (auto; congruence). auto.
  - unfold Cell. rewrite Hin. split; [reflexivity|].
    unfold CellSafe. unfold in_bounds in Hin.
    replace (_ || _) with true; [reflexivity|]. symmetry. lia.
Qed.

Lemma SetCell_then_Cell_witness :
  exists s',
    SetCell board_155 0 4 "Z" = Some s' /\ board_wf s' /\
    Cell s' 0 4 = Some "Z"%char /\ CellSafe s' 0 4 = "Z"%char /\
    forall y' x', (y', x') <> (0, 4) ->
      Cell s' y' x' = Cell board_155 y' x' /\
      CellSafe s' y' x' = CellSafe board_155 y' x'.
Proof.
  apply (SetCell_then_Cell board_155 0 4 "Z").
  - reflexivity.
  - unfold on_board, BOARD_SIZE. lia.
Defined.

(** ** Where [CheckMove] finds no car *)

(** X20: a single cell is not a car.  On a 6x6 board, called for an
    empty cell, [CheckMove] returns at once, with the board and the
    globals as they were and nothing written, when the cell two steps
    along the scan is off the board, or is empty, or holds another
    character than the cell one step along the scan. *)
Theorem CheckMove_needs_two_cells (d : direction) (s : Board)
    (x y idx_state : Z) (w : World) :
  board_wf s -> on_board y x -> cell_at s y x = SPACE ->
  ~ on_board (y + 2 * dir_dy d) (x + 2 * dir_dx d) \/
  cell_at s (y + 2 * dir_dy d) (x + 2 * dir_dx d) = SPACE \/
  cell_at s (y + dir_dy d) (x + dir_dx d)
    <> cell_at s (y + 2 * dir_dy d) (x + 2 * dir_dx d) ->
  CheckMove (dir_dx d) (dir_dy d) s x y idx_state w = Ret s w.
Proof.
  intros Hwf Hb Hsp Hno.
  destruct (CheckMove_cases d s x y idx_state Hwf Hb Hsp)
    as [[_ Hret]|(car & tx & ty & Hf & _)]; [apply Hret|].
  exfalso.
  pose proof (found_on_board _ _ _ _ _ _ _ Hf) as Hbt.
  destruct Hf as [Hcar (n & Hn & -> & -> & Hcells) _ _].
  destruct Hno as [Hoff|[Hempty|Hother]].
  - apply Hoff. apply (line_on_board d x y n 2); auto. lia.
  - rewrite (Hcells 2) in Hempty by lia. contradiction.
  - apply Hother. rewrite (Hcells 2) by lia.
    rewrite <- (Hcells 1) by lia. now rewrite !Z.mul_1_l.
Qed.

Lemma CheckMove_needs_two_cells_witness :
  CheckMove (dir_dx ScanUp) (dir_dy ScanUp) board_155 1 1 0 initial_world
  = Ret board_155 initial_world.
Proof.
  apply (CheckMove_needs_two_cells ScanUp board_155 1 1 0 initial_world).
  - reflexivity.
  - unfold on_board, BOARD_SIZE. lia.
  - reflexivity.
  - left. unfold on_board, BOARD_SIZE. cbn. lia.
Defined.

(** ** Registering a board twice *)

(** X21: the first registration counts.  While the two globals are
    consistent, a call of [CheckAddState] with a 6x6 board that comes
    from an entry of the list returns, and then the board is in
    [states_in_list] and in exactly one entry of [state_list]: the
    entry it had before the call, when it had one, and otherwise a new
    last entry, with the index [from].  A second call with the same
    board, whatever index it is said to come from, returns with the
    globals as the first call left them: the board stays in the list
    once, with the index it came from first. *)
Theorem CheckAddState_twice (state : Board) (from from' : Z) (w : World) :
  world_inv w -> board_wf state ->
  -1 <= from < Z.of_nat (length (state_list w)) ->
  exists w',
    CheckAddState state from w = Ret tt w' /\
    CheckAddState state from' w' = Ret tt w' /\
    state ∈ states_in_list w' /\
    exists j e,
      state_list w' !! j = Some e /\ e.1 = state /\
      (forall j' e', state_list w' !! j' = Some e' -> e'.1 = state ->
                     j' = j /\ e' = e) /\
      (state ∈ states_in_list w -> state_list w !! j = Some e) /\
      (state ∉ states_in_list w ->
         j = length (state_list w) /\ e = (state, from) /\
         state_list w' = state_list w ++ [e]).
Proof.
  intros Hinv Hwf Hfrom.
  destruct (CheckAddState_inv state from w Hinv Hwf Hfrom)
    as (w' & Hrun & Hinv' & _ & Hin' & Hcases).
  exists w'. split; [exact Hrun|]. split.
  { destruct (CheckAddState_sizes state from' w' (inv_sizes _ Hinv'))
      as (w2 & Hrun2 & Hold & _).
    rewrite Hrun2. f_equal. now apply Hold. }
  split; [exact Hin'|].
  pose proof Hin' as Hentry. apply (inv_set _ Hinv') in Hentry.
  apply list_elem_of_fmap in Hentry as (e & He1 & He).
  apply list_elem_of_lookup in He as (j & Hj).
  assert (Honce : forall j' e', state_list w' !! j' = Some e' -> e'.1 = state ->
                                j' = j /\ e' = e).
  { intros j' e' Hj' He'.
    assert (j' = j) as ->.
    { apply (NoDup_lookup _ j' j state (inv_nodup _ Hinv')).
      - rewrite list_lookup_fmap, Hj'. cbn. now rewrite He'.
      - rewrite list_lookup_fmap, Hj. cbn. now rewrite <- He1. }
    split; [reflexivity|]. congruence. }
  exists j, e. split; [exact Hj|]. split; [now symmetry|].
  split; [exact Honce|].
  destruct Hcases as [[Hin Hw]|[Hnin Hl]].
  - split; [intros _; now rewrite <- Hw|]. intros Hnin. contradiction.
  - split; [intros Hin; contradiction|]. intros _.
    assert (Hlast : state_list w' !! length (state_list w) = Some (state, from)).
    { rewrite Hl, lookup_app_r by lia. now rewrite Nat.sub_diag. }
    destruct (Honce _ _ Hlast eq_refl) as [<- <-].
    split; [reflexivity|]. split; [reflexivity|exact Hl].
Qed.

Lemma CheckAddState_twice_witness :
  exists w',
    CheckAddState board_155 (-1) initial_world = Ret tt w' /\
    CheckAddState board_155 7 w' = Ret tt w' /\
    board_155 ∈ states_in_list w' /\
    exists j e,
      state_list w' !! j = Some e /\ e.1 = board_155 /\
      (forall j' e', state_list w' !! j' = Some e' -> e'.1 = board_155 ->
                     j' = j /\ e' = e) /\
      (board_155 ∈ states_in_list initial_world ->
         state_list initial_world !! j = Some e) /\
      (board_155 ∉ states_in_list initial_world ->
         j = length (state_list initial_world) /\ e = (board_155, -1) /\
         state_list w' = state_list initial_world ++ [e]).
Proof.
  apply (CheckAddState_twice board_155 (-1) 7 initial_world).
  - exact world_inv_initial.
  - reflexivity.
  - cbn. lia.
Defined.
